(** * Code Block Extractor (js/app.js): a shallow embedding and its properties

    The extraction engine of the repository lives in the second half of
    [js/app.js]: the class [CodeBlock] (language classifier, content hash,
    file extension) and the class [CodeExtractor] (fenced and indented
    scanners, de-duplication, topic names, per-file processing and the
    running statistics).

    JavaScript strings are sequences of UTF-16 code units; they are modelled
    as lists of code units ([N]).  Regular expressions are modelled by a
    small abstract syntax and a backtracking matcher that follows the
    priorities of the ECMAScript matcher (greedy and lazy stars, ordered
    alternatives, capture groups, line anchors). *)

From Stdlib Require Import String Ascii.
From Stdlib Require DecimalString HexadecimalString DecimalNat.
From Stdlib Require Import List NArith ZArith Bool Arith Lia Sorted.
Import ListNotations.

Set Implicit Arguments.

(** ** JavaScript strings *)

Module JS.

Definition char := N.
Definition str := list char.

(** A string literal of the source, as code units. *)
Definition lit (s : String.string) : str :=
  List.map Ascii.N_of_ascii (String.list_ascii_of_string s).

Definition ch (a : Ascii.ascii) : char := Ascii.N_of_ascii a.

Arguments lit s%_string.
Arguments ch a%_char.

Definition NL : char := 10%N.

Definition char_eqb (a b : char) : bool := N.eqb a b.

Fixpoint str_eqb (a b : str) : bool :=
  match a, b with
  | [], [] => true
  | x :: a', y :: b' => char_eqb x y && str_eqb a' b'
  | _, _ => false
  end.

Definition between (lo hi c : char) : bool := (N.leb lo c && N.leb c hi)%bool.

(** ECMAScript LineTerminator: LF, CR, LS, PS. *)
Definition isLineTerminator (c : char) : bool :=
  (N.eqb c 10 || N.eqb c 13 || N.eqb c 8232 || N.eqb c 8233)%N%bool.

(** ECMAScript WhiteSpace and LineTerminator, the set of [\s] and of
    [String.prototype.trim]. *)
Definition isWhiteSpace (c : char) : bool :=
  (N.eqb c 9 || N.eqb c 11 || N.eqb c 12 || N.eqb c 32 || N.eqb c 160
   || N.eqb c 5760 || between 8192 8202 c || N.eqb c 8239 || N.eqb c 8287
   || N.eqb c 12288 || N.eqb c 65279 || isLineTerminator c)%N%bool.

(** The class [\w]: ASCII letters, digits and the underscore. *)
Definition isWord (c : char) : bool :=
  (between 97 122 c || between 65 90 c || between 48 57 c || N.eqb c 95)%N%bool.

(** [.] without the [s] flag. *)
Definition isDot (c : char) : bool := negb (isLineTerminator c).

(** Canonicalize of the [i] flag, on the ASCII letters (every literal of an
    [i]-flagged pattern of the program is an ASCII letter, and no code unit
    above 127 canonicalizes to one below 128). *)
Definition canonicalize (c : char) : char :=
  if between 97%N 122%N c then (c - 32)%N else c.

Fixpoint dropWhile (p : char -> bool) (s : str) : str :=
  match s with
  | [] => []
  | c :: s' => if p c then dropWhile p s' else s
  end.

Definition trimStart (s : str) : str := dropWhile isWhiteSpace s.
Definition trimEnd (s : str) : str := rev (dropWhile isWhiteSpace (rev s)).
Definition trim (s : str) : str := trimEnd (trimStart s).

(** Truthiness of a string: non-empty. *)
Definition truthy (s : str) : bool :=
  match s with [] => false | _ :: _ => true end.

(** [s.split('\n')]: always at least one piece. *)
Fixpoint split_nl (s : str) : list str :=
  match s with
  | [] => [[]]
  | c :: s' =>
      if char_eqb c NL then [] :: split_nl s'
      else match split_nl s' with
           | [] => [[c]]
           | l :: ls => (c :: l) :: ls
           end
  end.

(** [a.join('\n')]. *)
Fixpoint join_nl (ls : list str) : str :=
  match ls with
  | [] => []
  | [l] => l
  | l :: ls' => l ++ NL :: join_nl ls'
  end.

Fixpoint startsWith (p s : str) : bool :=
  match p, s with
  | [], _ => true
  | x :: p', y :: s' => char_eqb x y && startsWith p' s'
  | _ :: _, [] => false
  end.

(** [s.includes(p)]. *)
Fixpoint includes (s p : str) : bool :=
  startsWith p s ||
  match s with
  | [] => false
  | _ :: s' => includes s' p
  end.

(** [s.substring(0, n)] and [s.slice(0, n)] for a non-negative [n]. *)
Definition substring0 (s : str) (n : nat) : str := firstn n s.

(** [s.padStart(n, '0')]. *)
Definition padStart0 (n : nat) (s : str) : str :=
  repeat (ch "0") (n - length s) ++ s.

(** [n.toString()] of a non-negative integer. *)
Definition natToString (n : nat) : str :=
  lit (DecimalString.NilZero.string_of_uint (Nat.to_uint n)).

(** [n.toString(16)] of a non-negative integer (lower-case digits). *)
Definition hexToString (n : N) : str :=
  lit (HexadecimalString.NilZero.string_of_uint (N.to_hex_uint n)).

(** ToInt32: wrap-around into the signed 32-bit range. *)
Definition toInt32 (z : Z) : Z :=
  ((z + 2147483648) mod 4294967296 - 2147483648)%Z.

(** *** Reading a property of an object literal *)

(** What [object[key]] can give for an object literal whose own properties
    are strings: one of these strings, or what the object inherits from
    [Object.prototype], a built-in function or, through [__proto__],
    [Object.prototype] itself. *)
Inductive Value : Type :=
| Str (s : str)
| BuiltinFunction (name : str)
| ObjectPrototype.

(** The properties of [Object.prototype] in ECMAScript, the legacy
    accessors included; the functions with their names. *)
Definition objectPrototype : list (str * Value) :=
  [ (lit "constructor", BuiltinFunction (lit "Object"));
    (lit "hasOwnProperty", BuiltinFunction (lit "hasOwnProperty"));
    (lit "isPrototypeOf", BuiltinFunction (lit "isPrototypeOf"));
    (lit "propertyIsEnumerable", BuiltinFunction (lit "propertyIsEnumerable"));
    (lit "toLocaleString", BuiltinFunction (lit "toLocaleString"));
    (lit "toString", BuiltinFunction (lit "toString"));
    (lit "valueOf", BuiltinFunction (lit "valueOf"));
    (lit "__proto__", ObjectPrototype);
    (lit "__defineGetter__", BuiltinFunction (lit "__defineGetter__"));
    (lit "__defineSetter__", BuiltinFunction (lit "__defineSetter__"));
    (lit "__lookupGetter__", BuiltinFunction (lit "__lookupGetter__"));
    (lit "__lookupSetter__", BuiltinFunction (lit "__lookupSetter__")) ].

(** Truthiness of a value: functions and objects are truthy. *)
Definition truthyValue (v : Value) : bool :=
  match v with
  | Str s => truthy s
  | BuiltinFunction _ | ObjectPrototype => true
  end.

(** What is left to the engine: the text that [Function.prototype.toString]
    gives for the built-in function of a given name.  ECMAScript fixes its
    form, [function name() { [native code] }], and leaves the rest to the
    implementation. *)
Class Engine : Type := { nativeFunctionText : str -> str }.

(** ToString of a value, as a template literal applies it. *)
Definition toText {engine : Engine} (v : Value) : str :=
  match v with
  | Str s => s
  | BuiltinFunction name => nativeFunctionText name
  | ObjectPrototype => lit "[object Object]"
  end.

End JS.

Import JS.

(** ** Regular expressions *)

Module RegExp.

Inductive regex : Type :=
| Empty : regex
| Chr : char -> regex                    (* a literal character *)
| Class : (char -> bool) -> regex        (* a class: \s, \w, ., [...] *)
| Seq : regex -> regex -> regex
| Alt : regex -> regex -> regex          (* r1|r2, r1 tried first *)
| Star : bool -> regex -> regex          (* r* (true) and r*? (false) *)
| Group : nat -> regex -> regex          (* capture group number n *)
| Bol : regex                            (* ^ *)
| Eol : regex.                           (* $ *)

Definition Plus (r : regex) : regex := Seq r (Star true r).
Definition Opt (r : regex) : regex := Alt r Empty.

Fixpoint Lit (s : str) : regex :=
  match s with
  | [] => Empty
  | [c] => Chr c
  | c :: s' => Seq (Chr c) (Lit s')
  end.

Record RegExp : Type := mkRegExp {
  source : regex;
  ignoreCase : bool;
  multiline : bool
}.

(** A position in the input: the characters before it (nearest first) and
    the characters after it. *)
Record pos : Type := mkPos { before : str; after : str }.

Definition index (z : pos) : nat := length (before z).

Definition captures := list (nat * str).

Fixpoint capture (n : nat) (cs : captures) : option str :=
  match cs with
  | [] => None
  | (i, s) :: cs' => if Nat.eqb i n then Some s else capture n cs'
  end.

Definition atBol (multi : bool) (z : pos) : bool :=
  match before z with
  | [] => true
  | c :: _ => multi && isLineTerminator c
  end.

Definition atEol (multi : bool) (z : pos) : bool :=
  match after z with
  | [] => true
  | c :: _ => multi && isLineTerminator c
  end.

Definition chrMatches (icase : bool) (c x : char) : bool :=
  if icase then char_eqb (canonicalize c) (canonicalize x) else char_eqb c x.

Definition cont := pos -> captures -> option (pos * captures).

(** The iterations of a star whose body is matched by [body]: greedy
    stars try one more iteration first, lazy ones try the continuation
    first.  An iteration that consumes nothing is rejected, as in the
    ECMAScript specification; hence every iteration shortens the input and
    the count [n] of iterations still allowed, which starts above the length
    of the input, is never used up (lemma [starLoop_bound] below). *)
Fixpoint starLoop (body : pos -> captures -> cont -> option (pos * captures))
  (greedy : bool) (k : cont) (n : nat) (z : pos) (cs : captures)
  {struct n} : option (pos * captures) :=
  match n with
  | O => k z cs
  | S n' =>
      let again (_ : unit) :=
        body z cs
          (fun z' cs' =>
             if Nat.ltb (length (after z')) (length (after z))
             then starLoop body greedy k n' z' cs' else None) in
      if greedy then
        match again tt with
        | Some res => Some res
        | None => k z cs
        end
      else
        match k z cs with
        | Some res => Some res
        | None => again tt
        end
  end.

Section Matcher.

Variable icase multi : bool.

(** The backtracking matcher, in continuation-passing style as in the
    ECMAScript specification.  Two simplifications, which no pattern of the
    program can tell: the captures of a group under a star are not reset
    when an iteration starts (no pattern has a group under a star), and the
    [i] flag does not change what a class matches (the only class of an
    [i]-flagged pattern is [\s]). *)
Fixpoint matcher (r : regex) (z : pos) (cs : captures) (k : cont)
  {struct r} : option (pos * captures) :=
  match r with
  | Empty => k z cs
  | Chr c =>
      match after z with
      | x :: xs =>
          if chrMatches icase c x then k (mkPos (x :: before z) xs) cs
          else None
      | [] => None
      end
  | Class p =>
      match after z with
      | x :: xs => if p x then k (mkPos (x :: before z) xs) cs else None
      | [] => None
      end
  | Seq r1 r2 => matcher r1 z cs (fun z' cs' => matcher r2 z' cs' k)
  | Alt r1 r2 =>
      match matcher r1 z cs k with
      | Some res => Some res
      | None => matcher r2 z cs k
      end
  | Star greedy r1 =>
      starLoop (matcher r1) greedy k (S (length (after z))) z cs
  | Group i r1 =>
      matcher r1 z cs
        (fun z' cs' =>
           k z' ((i, firstn (length (after z) - length (after z')) (after z))
                   :: cs'))
  | Bol => if atBol multi z then k z cs else None
  | Eol => if atEol multi z then k z cs else None
  end.

Definition accept : cont := fun z cs => Some (z, cs).

(** The first position at or after the given one where the pattern matches:
    start, end and captures of the leftmost match. *)
Fixpoint search (r : regex) (bef aft : str) {struct aft}
  : option (pos * pos * captures) :=
  match matcher r (mkPos bef aft) [] accept with
  | Some (e, cs) => Some (mkPos bef aft, e, cs)
  | None =>
      match aft with
      | [] => None
      | x :: xs => search r (x :: bef) xs
      end
  end.

End Matcher.

Definition searchFrom (re : RegExp) (z : pos) : option (pos * pos * captures) :=
  search (ignoreCase re) (multiline re) (source re) (before z) (after z).

(** [re.test(s)] for a pattern without the [g] flag. *)
Definition test (re : RegExp) (s : str) : bool :=
  match searchFrom re (mkPos [] s) with
  | Some _ => true
  | None => false
  end.

(** The result of a match: its index, the matched text and the captures. *)
Record MatchResult : Type := mkMatch {
  mindex : nat;
  mtext : str;
  mgroups : captures;
  mend : pos
}.

Definition mkResult (res : pos * pos * captures) : MatchResult :=
  let '(s, e, cs) := res in
  mkMatch (index s) (firstn (index e - index s) (after s)) cs e.

(** [s.match(re)] for a pattern without the [g] flag. *)
Definition smatch (s : str) (re : RegExp) : option MatchResult :=
  option_map mkResult (searchFrom re (mkPos [] s)).

(** [s.replace(re, repl)] for a pattern without the [g] flag and a
    replacement text without [$]: the leftmost match is replaced. *)
Definition replaceFirst (re : RegExp) (repl : str) (s : str) : str :=
  match searchFrom re (mkPos [] s) with
  | None => s
  | Some (st, e, _) => firstn (index st) s ++ repl ++ after e
  end.

(** The loop of [s.replace(re, repl)] for a pattern with the [g] flag: every
    match is replaced, the text between matches is copied, and after an
    empty match the search resumes one character further.  Every round moves
    forward, so a fuel above the length of the text is never used up (lemma
    [replaceLoop_bound] below). *)
Fixpoint replaceLoop (fuel : nat) (re : RegExp) (repl : str) (z : pos) : str :=
  match fuel with
  | O => after z
  | S fuel' =>
      match searchFrom re z with
      | None => after z
      | Some (st, e, _) =>
          firstn (index st - index z) (after z) ++ repl ++
          (if Nat.ltb (index st) (index e) then replaceLoop fuel' re repl e
           else match after e with
                | [] => []
                | x :: xs =>
                    x :: replaceLoop fuel' re repl (mkPos (x :: before e) xs)
                end)
      end
  end.

Definition replaceAll (re : RegExp) (repl : str) (s : str) : str :=
  replaceLoop (S (length s)) re repl (mkPos [] s).

(** *** Regular expression literals *)

(** How the text of a script is cut into a regular expression literal
    (the lexical grammar of ECMAScript): after the opening slash the body
    runs to the first slash that is neither escaped by a backslash nor
    inside a class [[...]]; a line terminator or the end of the text
    before that slash is an error. *)
Fixpoint scanBody (inClass : bool) (s : str) : option (str * str) :=
  match s with
  | [] => None
  | c :: rest =>
      if isLineTerminator c then None
      else if char_eqb c (ch "092") then
        match rest with
        | [] => None
        | d :: rest' =>
            if isLineTerminator d then None
            else match scanBody inClass rest' with
                 | Some (body, after) => Some (c :: d :: body, after)
                 | None => None
                 end
        end
      else if inClass then
        match scanBody (negb (char_eqb c (ch "]"))) rest with
        | Some (body, after) => Some (c :: body, after)
        | None => None
        end
      else if char_eqb c (ch "/") then Some ([], rest)
      else
        match scanBody (char_eqb c (ch "[")) rest with
        | Some (body, after) => Some (c :: body, after)
        | None => None
        end
  end.

(** The flags are the identifier characters that follow the closing slash
    (the ASCII ones: letters, digits, [_] and [$]). *)
Definition isIdentifierPart (c : char) : bool := isWord c || char_eqb c (ch "$").

Fixpoint scanFlags (s : str) : str * str :=
  match s with
  | [] => ([], [])
  | c :: rest =>
      if isIdentifierPart c
      then let '(flags, after) := scanFlags rest in (c :: flags, after)
      else ([], s)
  end.

(** The literal at the beginning of a text: its body, its flags and the
    text that follows.  The body is not empty and does not begin with a
    star (these are comments). *)
Definition scanLiteral (s : str) : option (str * str * str) :=
  match s with
  | [] => None
  | c :: rest =>
      if char_eqb c (ch "/") then
        match scanBody false rest with
        | Some (b :: body, after) =>
            if char_eqb b (ch "*") then None
            else let '(flags, after') := scanFlags after in
                 Some (b :: body, flags, after')
        | _ => None
        end
      else None
  end.

(** The early error of the flags: only [d g i m s u v y], none twice, and
    not both [u] and [v]. *)
Fixpoint noRepeat (s : str) : bool :=
  match s with
  | [] => true
  | c :: rest => negb (existsb (char_eqb c) rest) && noRepeat rest
  end.

Definition validFlags (flags : str) : bool :=
  forallb (fun c => existsb (char_eqb c) (lit "dgimsuvy")) flags
  && noRepeat flags
  && negb (existsb (char_eqb (ch "u")) flags
           && existsb (char_eqb (ch "v")) flags).

(** A text that is one regular expression literal: its body and flags;
    [None] stands for the SyntaxError of a text that is not. *)
Definition parseLiteral (text : str) : option (str * str) :=
  match scanLiteral text with
  | Some (body, flags, []) =>
      if validFlags flags then Some (body, flags) else None
  | _ => None
  end.

End RegExp.

Import RegExp.

(** ** Pattern notation *)

Module Pat.

Fixpoint cat (rs : list regex) : regex :=
  match rs with
  | [] => Empty
  | [r] => r
  | r :: rs' => Seq r (cat rs')
  end.

Definition L (s : string) : regex := Lit (lit s).
Arguments L s%_string.

Definition DQ : char := 34%N.      (* the double quote *)
Definition SQ : char := 39%N.      (* the single quote *)
Definition TICK : char := 96%N.    (* the backtick *)
Definition TAB : char := 9%N.

Definition chr (a : ascii) (c : char) : bool := char_eqb c (ch a).
Arguments chr a%_char c.

Definition s_ : regex := Class isWhiteSpace.                 (* \s *)
Definition w_ : regex := Class isWord.                       (* \w *)
Definition dot : regex := Class isDot.                       (* . *)
Definition any : regex :=                                    (* [\s\S] *)
  Class (fun c => isWhiteSpace c || negb (isWhiteSpace c)).
Definition noneOf (p : char -> bool) : regex := Class (fun c => negb (p c)).
Definition star (r : regex) : regex := Star true r.
Definition lazyStar (r : regex) : regex := Star false r.

Definition isAlpha (c : char) : bool :=
  (between 97 122 c || between 65 90 c)%N.

(** /.../, /.../i and /.../m *)
Definition re (r : regex) : RegExp := mkRegExp r false false.
Definition rei (r : regex) : RegExp := mkRegExp r true false.
Definition rem (r : regex) : RegExp := mkRegExp r false true.

End Pat.

Import Pat.

(** ** class CodeBlock *)

Module CodeBlock.

Record t : Type := mk {
  content : str;
  language : str;
  startLine : nat;
  hash : str
}.

(** The texts of the regular expression literals of the table [patterns]
    of [detectLanguage], as the source has them, key by key. *)
Definition literals : list (str * list str) :=
  [ (lit "python",
      [ lit "/def\s+\w+\(/"; lit "/import\s+\w+/";
        lit "/from\s+\w+\s+import/"; lit "/print\s*\(/";
        lit "/class\s+\w+/" ]);
    (lit "javascript",
      [ lit "/function\s+\w+\(/"; lit "/const\s+\w+\s*=/";
        lit "/let\s+\w+\s*=/"; lit "/console\.log\(/";
        lit "/document\./" ]);
    (lit "java",
      [ lit "/public\s+class\s+\w+/";
        lit "/public\s+static\s+void\s+main/";
        lit "/System\.out\.print/" ]);
    (lit "c",
      [ lit "/#include\s*</"; lit "/int\s+main\s*\(/";
        lit "/printf\s*\(/" ]);
    (lit "cpp",
      [ lit "/#include\s*</"; lit "/std::/"; lit "/cout\s*<</" ]);
    (lit "html",
      [ lit "/<html/"; lit "/<div/"; lit "/<body/"; lit "/<!DOCTYPE/" ]);
    (lit "css",
      [ lit "/\w+\s*\{[^}]*\}/"; lit "/@media/"; lit "/\.[\w-]+\s*\{/" ]);
    (lit "sql",
      [ lit "/SELECT\s+/i"; lit "/FROM\s+/i"; lit "/WHERE\s+/i";
        lit "/INSERT\s+INTO/i" ]);
    (lit "bash",
      [ lit "/#!/bin\/bash/"; lit "/echo\s+/"; lit "/\$\w+/";
        lit "/if\s*\[\s*/" ]);
    (lit "dockerfile",
      [ lit "/FROM\s+\w+/"; lit "/RUN\s+/"; lit "/COPY\s+/";
        lit "/WORKDIR\s+/"; lit "/EXPOSE\s+/"; lit "/CMD\s*\[/" ]);
    (lit "json",
      [ lit "/^\s*\{/"; lit "/^\s*\[/";
        lit "/" ++ DQ :: lit "\w+" ++ DQ :: lit ":\s*/" ]);
    (lit "yaml",
      [ lit "/^\w+:/m"; lit "/^\s*-\s+\w+/m" ]);
    (lit "xml",
      [ lit "/<\?xml/"; lit "/<\w+.*>.*<\/\w+>/" ]) ].

(** The texts of the table that are not regular expression literals.  One
    such text is enough for the script to be rejected with a SyntaxError
    before any of it runs. *)
Definition malformedLiterals : list str :=
  filter (fun text => match parseLiteral text with
                      | Some _ => false
                      | None => true
                      end)
         (flat_map snd literals).

(** The table [patterns] of [detectLanguage], in the order of its keys:
    what the literals of [literals] denote.  The first literal of [bash] is
    written [/#!/bin\/bash/], with the first slash of the path not escaped,
    and denotes nothing ([malformedLiterals]); the table has in its place
    the pattern that the text with that slash escaped, [/#!\/bin\/bash/],
    denotes: the literal [#!/bin/bash]. *)
Definition patterns : list (str * list RegExp) :=
  [ (lit "python",
      [ re (cat [L "def"; Plus s_; Plus w_; L "("]);
        re (cat [L "import"; Plus s_; Plus w_]);
        re (cat [L "from"; Plus s_; Plus w_; Plus s_; L "import"]);
        re (cat [L "print"; star s_; L "("]);
        re (cat [L "class"; Plus s_; Plus w_]) ]);
    (lit "javascript",
      [ re (cat [L "function"; Plus s_; Plus w_; L "("]);
        re (cat [L "const"; Plus s_; Plus w_; star s_; L "="]);
        re (cat [L "let"; Plus s_; Plus w_; star s_; L "="]);
        re (L "console.log(");
        re (L "document.") ]);
    (lit "java",
      [ re (cat [L "public"; Plus s_; L "class"; Plus s_; Plus w_]);
        re (cat [L "public"; Plus s_; L "static"; Plus s_; L "void"; Plus s_;
                 L "main"]);
        re (L "System.out.print") ]);
    (lit "c",
      [ re (cat [L "#include"; star s_; L "<"]);
        re (cat [L "int"; Plus s_; L "main"; star s_; L "("]);
        re (cat [L "printf"; star s_; L "("]) ]);
    (lit "cpp",
      [ re (cat [L "#include"; star s_; L "<"]);
        re (L "std::");
        re (cat [L "cout"; star s_; L "<<"]) ]);
    (lit "html",
      [ re (L "<html"); re (L "<div"); re (L "<body"); re (L "<!DOCTYPE") ]);
    (lit "css",
      [ re (cat [Plus w_; star s_; L "{"; star (noneOf (chr "}")); L "}"]);
        re (L "@media");
        re (cat [L "."; Plus (Class (fun c => isWord c || chr "-" c));
                 star s_; L "{"]) ]);
    (lit "sql",
      [ rei (cat [L "SELECT"; Plus s_]);
        rei (cat [L "FROM"; Plus s_]);
        rei (cat [L "WHERE"; Plus s_]);
        rei (cat [L "INSERT"; Plus s_; L "INTO"]) ]);
    (lit "bash",
      [ re (L "#!/bin/bash");
        re (cat [L "echo"; Plus s_]);
        re (cat [L "$"; Plus w_]);
        re (cat [L "if"; star s_; L "["; star s_]) ]);
    (lit "dockerfile",
      [ re (cat [L "FROM"; Plus s_; Plus w_]);
        re (cat [L "RUN"; Plus s_]);
        re (cat [L "COPY"; Plus s_]);
        re (cat [L "WORKDIR"; Plus s_]);
        re (cat [L "EXPOSE"; Plus s_]);
        re (cat [L "CMD"; star s_; L "["]) ]);
    (lit "json",
      [ re (cat [Bol; star s_; L "{"]);
        re (cat [Bol; star s_; L "["]);
        re (cat [Chr DQ; Plus w_; Chr DQ; L ":"; star s_]) ]);
    (lit "yaml",
      [ rem (cat [Bol; Plus w_; L ":"]);
        rem (cat [Bol; star s_; L "-"; Plus s_; Plus w_]) ]);
    (lit "xml",
      [ re (L "<?xml");
        re (cat [L "<"; Plus w_; star dot; L ">"; star dot; L "</"; Plus w_;
                 L ">"]) ]) ].

(** The two nested loops of [detectLanguage]: the first language one of
    whose patterns matches, or ['txt']. *)
Fixpoint detectIn (entries : list (str * list RegExp)) (content : str) : str :=
  match entries with
  | [] => lit "txt"
  | (lang, patternList) :: rest =>
      if existsb (fun pattern => test pattern content) patternList
      then lang
      else detectIn rest content
  end.

Definition detectLanguage (content : str) : str := detectIn patterns content.

(** [detectLanguage] in the script as it is written: nothing runs, [None],
    when a literal of the table is rejected. *)
Definition detectLanguageAsWritten (content : str) : option str :=
  match malformedLiterals with
  | [] => Some (detectLanguage content)
  | _ :: _ => None
  end.

Definition extensions : list (str * str) :=
  [ (lit "python", lit ".py"); (lit "javascript", lit ".js");
    (lit "java", lit ".java"); (lit "c", lit ".c"); (lit "cpp", lit ".cpp");
    (lit "html", lit ".html"); (lit "css", lit ".css"); (lit "sql", lit ".sql");
    (lit "bash", lit ".sh"); (lit "dockerfile", lit ".dockerfile");
    (lit "json", lit ".json"); (lit "yaml", lit ".yml"); (lit "xml", lit ".xml");
    (lit "txt", lit ".txt") ].

(** The first entry of a table for a key. *)
Fixpoint lookup (V : Type) (key : str) (table : list (str * V)) : option V :=
  match table with
  | [] => None
  | (k, v) :: rest => if str_eqb k key then Some v else lookup key rest
  end.

(** [extensions[key]]: the own property of that name if there is one,
    otherwise what the object literal inherits from [Object.prototype]
    under that name, otherwise [undefined] ([None]). *)
Definition getProperty (key : str) : option Value :=
  match lookup key extensions with
  | Some e => Some (Str e)
  | None => lookup key objectPrototype
  end.

(** [extensions[this.language] || '.txt']. *)
Definition getFileExtension (b : t) : Value :=
  match getProperty (language b) with
  | Some v => if truthyValue v then v else Str (lit ".txt")
  | None => Str (lit ".txt")
  end.

(** One round of the loop of [generateHash]:
    [hash = ((hash << 5) - hash) + char; hash = hash & hash]. *)
Definition hashStep (h : Z) (c : char) : Z :=
  toInt32 (toInt32 (h * 32) - h + Z.of_N c)%Z.

Definition generateHash (content : str) : str :=
  match content with
  | [] => padStart0 8 (hexToString 0)
  | _ =>
      let h := fold_left hashStep content 0%Z in
      firstn 8 (padStart0 8 (hexToString (Z.to_N (Z.abs h))))
  end.

(** The constructor, with the classifier it calls as a parameter:
    [this.language = language || this.detectLanguage()]. *)
Definition make (classify : str -> str)
  (content0 : str) (language0 : option str) (startLine0 : nat) : t :=
  let content := trim content0 in
  let language :=
    match language0 with
    | Some l => if truthy l then l else classify content
    | None => classify content
    end in
  mk content language startLine0 (generateHash content).

Definition new : str -> option str -> nat -> t := make detectLanguage.

End CodeBlock.

(** ** class CodeExtractor *)

Module CodeExtractor.

(** [this.stats]; the two [Set]s are kept in insertion order, as a
    JavaScript [Set] keeps them. *)
Record Stats : Type := mkStats {
  filesProcessed : nat;
  codeBlocksFound : nat;
  languagesDetected : list str;
  topicsCreated : list str
}.

(** [Set.prototype.add]. *)
Definition setAdd (x : str) (s : list str) : list str :=
  if existsb (str_eqb x) s then s else s ++ [x].

(** The statistics of the constructor and of [reset]. *)
Definition reset : Stats := mkStats 0 0 [] [].

(** *** extractMarkdownCodeBlocks *)

(** The fence pattern, with the [g] flag: three backticks, an optional
    word, a newline, the shortest text up to a newline and three
    backticks. *)
Definition fencePattern : RegExp :=
  re (cat [L "```"; Opt (Group 1 (Plus w_)); Chr NL;
           Group 2 (lazyStar any); Chr NL; L "```"]).

(** The body of the [while] loop, for one match. *)
Definition fencedBlock (content : str) (m : MatchResult) : list CodeBlock.t :=
  let language := capture 1 (mgroups m) in
  let codeContent :=
    match capture 2 (mgroups m) with Some c => c | None => [] end in
  let startLine := length (split_nl (substring0 content (mindex m))) in
  if truthy (trim codeContent) && Nat.ltb 20 (length (trim codeContent))
  then [CodeBlock.new codeContent language startLine]
  else [].

(** [while ((match = pattern.exec(content)) !== null)], with [lastIndex]
    as a position of the text; [None] when the fuel runs out, which a fuel
    above the length of the text never does (lemma [fencedLoop_spec]
    below). *)
Fixpoint fencedLoop (fuel : nat) (content : str) (lastIndex : pos)
  (codeBlocks : list CodeBlock.t) : option (list CodeBlock.t) :=
  match fuel with
  | O => None
  | S fuel' =>
      match searchFrom fencePattern lastIndex with
      | None => Some codeBlocks
      | Some res =>
          let m := mkResult res in
          fencedLoop fuel' content (mend m) (codeBlocks ++ fencedBlock content m)
      end
  end.

Definition extractMarkdownCodeBlocks (content : str) : list CodeBlock.t :=
  match fencedLoop (S (length content)) content (mkPos [] content) [] with
  | Some codeBlocks => codeBlocks
  | None => []
  end.

(** *** looksLikeCode *)

Definition isQuote (c : char) : bool := char_eqb c DQ || char_eqb c SQ.

Definition codePatterns : list RegExp :=
  [ (* function calls *)
    re (cat [Class (fun c => isAlpha c || chr "_" c); star w_; star s_; L "("]);
    (* variable assignments *)
    re (cat [Class (fun c => isAlpha c || chr "_" c); star w_; star s_; L "="]);
    (* braces *)
    re (cat [L "{"; star (noneOf (chr "}")); L "}"]);
    (* quoted strings *)
    re (cat [Class isQuote; star (noneOf isQuote); Class isQuote]);
    (* comments *)
    re (Alt (cat [L "//"; star dot])
          (Alt (cat [L "/*"; star dot; L "*/"]) (cat [L "#"; star dot])));
    (* method calls *)
    re (cat [Plus w_; L "."; Plus w_]);
    (* control structures *)
    re (Alt (cat [L "if"; star s_; L "("])
          (Alt (cat [L "while"; star s_; L "("]) (cat [L "for"; star s_; L "("])));
    (* HTML tags *)
    re (cat [L "<"; Opt (L "/"); Plus w_; star (noneOf (chr ">")); L ">"]);
    (* CSS properties *)
    re (cat [Plus (Class (fun c => isAlpha c || chr "-" c)); L ":"; star s_;
             Plus (noneOf (chr ";")); L ";"]) ].

(** The counter [matches] after the loop over [codePatterns]. *)
Definition countMatches (content : str) : nat :=
  fold_left (fun matches pattern =>
               if test pattern content then S matches else matches)
            codePatterns 0.

Definition looksLikeCode (content : str) : bool :=
  Nat.leb 2 (countMatches content).

(** *** extractIndentedCodeBlocks *)

(** /^(    |\t)/ *)
Definition indentPattern : RegExp :=
  re (cat [Bol; Group 1 (Alt (L "    ") (Chr TAB))]).

(** What the scanner does with a run that has ended (by a line that is not
    indented, or by the end of the text): the blocks it pushes. *)
Definition flush (currentBlock : list str) (currentStart : nat)
  : list CodeBlock.t :=
  if Nat.ltb 0 (length currentBlock)
     && existsb (fun l => truthy (trim l)) currentBlock
  then
    let blockContent := trim (join_nl currentBlock) in
    if truthy blockContent && Nat.ltb 3 (length currentBlock)
       && Nat.ltb 50 (length blockContent)
    then
      if looksLikeCode blockContent
      then [CodeBlock.new blockContent None currentStart]
      else []
    else []
  else [].

Record ScanState : Type := mkScan {
  codeBlocks : list CodeBlock.t;
  currentBlock : list str;
  currentStart : nat
}.

(** The test of a line: indented by four spaces or a tab, or blank inside a
    run. *)
Definition continuesRun (line : str) (st : ScanState) : bool :=
  test indentPattern line
  || (negb (truthy (trim line)) && Nat.ltb 0 (length (currentBlock st))).

(** One round of the [for] loop, at the line of index [i]. *)
Definition scanLine (i : nat) (line : str) (st : ScanState) : ScanState :=
  if continuesRun line st then
    mkScan (codeBlocks st)
           (currentBlock st ++ [line])
           (if Nat.eqb (length (currentBlock st)) 0 then i else currentStart st)
  else
    mkScan (codeBlocks st ++ flush (currentBlock st) (currentStart st))
           []
           (currentStart st).

(** [for (let i = 0; i < lines.length; i++)], from the index [i] on. *)
Fixpoint scanLoop (lines : list str) (i : nat) (st : ScanState) : ScanState :=
  match lines with
  | [] => st
  | line :: rest => scanLoop rest (S i) (scanLine i line st)
  end.

Definition extractIndentedCodeBlocks (content : str) : list CodeBlock.t :=
  let lines := split_nl content in
  let st := scanLoop lines 0 (mkScan [] [] 0) in
  codeBlocks st ++ flush (currentBlock st) (currentStart st).

(** *** extractCodeBlocks *)

Definition absDiff (a b : nat) : nat := (a - b) + (b - a).

(** The test of the inner loop: the "simple overlap detection". *)
Definition overlaps (indentedBlock existingBlock : CodeBlock.t) : bool :=
  Nat.ltb (absDiff (CodeBlock.startLine indentedBlock)
                   (CodeBlock.startLine existingBlock)) 5
  && includes (CodeBlock.content existingBlock)
              (substring0 (CodeBlock.content indentedBlock) 100).

(** One round of the outer loop: the inner loop looks through all the
    blocks collected so far. *)
Definition addIfNew (codeBlocks : list CodeBlock.t) (indentedBlock : CodeBlock.t)
  : list CodeBlock.t :=
  let isDuplicate := existsb (overlaps indentedBlock) codeBlocks in
  if negb isDuplicate then codeBlocks ++ [indentedBlock] else codeBlocks.

Definition extractCodeBlocks (content : str) : list CodeBlock.t :=
  let codeBlocks := [] ++ extractMarkdownCodeBlocks content in
  let indentedBlocks := extractIndentedCodeBlocks content in
  fold_left addIfNew indentedBlocks codeBlocks.

(** *** generateTopicName *)

Definition titlePatterns : list RegExp :=
  [ rem (cat [Bol; L "#"; Plus s_; Group 1 (Plus dot); Eol]);        (* h1 *)
    rem (cat [Bol; L "##"; Plus s_; Group 1 (Plus dot); Eol]);       (* h2 *)
    rem (cat [Bol; L "Title:"; star s_; Group 1 (Plus dot); Eol]);
    rem (cat [Bol; L "Subject:"; star s_; Group 1 (Plus dot); Eol]) ].

(** /[^\w\s-]/g *)
Definition notTopicChar : RegExp :=
  re (noneOf (fun c => isWord c || isWhiteSpace c || chr "-" c)).

(** /\s+/g *)
Definition spaces : RegExp := re (Plus s_).

(** /\.[^/.]+$/ *)
Definition extensionPattern : RegExp :=
  re (cat [L "."; Plus (noneOf (fun c => chr "/" c || chr "." c)); Eol]).

Definition group1 (m : MatchResult) : str :=
  match capture 1 (mgroups m) with Some s => s | None => [] end.

(** The body of the loop over the title patterns, for a match. *)
Definition topicOfMatch (m : MatchResult) : str :=
  let topic := trim (replaceAll notTopicChar [] (group1 m)) in
  let topic := replaceAll spaces (lit "_") topic in
  firstn 50 topic.

Fixpoint topicFrom (patterns : list RegExp) (content : str) : option str :=
  match patterns with
  | [] => None
  | pattern :: rest =>
      match smatch content pattern with
      | Some m => Some (topicOfMatch m)
      | None => topicFrom rest content
      end
  end.

Definition generateTopicName (fileName content : str) : str :=
  match topicFrom titlePatterns content with
  | Some topic => topic
  | None =>
      let baseName := replaceFirst extensionPattern [] fileName in
      if truthy baseName then baseName else lit "unknown_topic"
  end.

(** *** processFile *)

(** A [File] of the browser: its name and what [readFileAsText] yields,
    the text, or nothing when the reader reports an error. *)
Record File : Type := mkFile {
  name : str;
  text : option str
}.

(** [readFileAsText]: the promise resolves with the text or is rejected with
    [new Error('Failed to read file')]; [inr] carries the error message. *)
Definition readFileAsText (file : File) : str + str :=
  match text file with
  | Some content => inl content
  | None => inr (lit "Failed to read file")
  end.

Record ExtractedFile : Type := mkExtractedFile {
  fileName : str;
  fileContent : str;
  fileLanguage : str;
  lines : nat;
  fileHash : str;
  extension : Value
}.

Record CodeFile : Type := mkCodeFile {
  cfFileName : str;
  cfLanguage : str;
  cfLines : nat;
  cfHash : str
}.

Record Metadata : Type := mkMetadata {
  sourceFile : str;
  mdTopic : str;
  totalBlocks : nat;
  codeFiles : list CodeFile;
  processedAt : str
}.

Inductive Result : Type :=
| Error (error : str)
| Message (message : str)
| Extracted (topic : str) (blocksExtracted : nat)
            (files : list ExtractedFile) (metadata : Metadata).

Definition codeFileOf (f : ExtractedFile) : CodeFile :=
  mkCodeFile (fileName f) (fileLanguage f) (lines f) (fileHash f).

Section WithEngine.

Context {engine : Engine}.

(** The name of the file of the block of 1-based index [index]; the
    template literal turns what [getFileExtension] returns into text. *)
Definition fileNameOf (index : nat) (codeBlock : CodeBlock.t) : str :=
  if truthy (CodeBlock.language codeBlock)
     && negb (str_eqb (CodeBlock.language codeBlock) (lit "txt"))
  then lit "code_" ++ padStart0 2 (natToString index) ++ lit "_"
       ++ CodeBlock.language codeBlock ++ lit "_" ++ CodeBlock.hash codeBlock
       ++ toText (CodeBlock.getFileExtension codeBlock)
  else lit "code_" ++ padStart0 2 (natToString index) ++ lit "_"
       ++ CodeBlock.hash codeBlock
       ++ toText (CodeBlock.getFileExtension codeBlock).

Definition extractedFileOf (index : nat) (codeBlock : CodeBlock.t)
  : ExtractedFile :=
  mkExtractedFile (fileNameOf index codeBlock)
                  (CodeBlock.content codeBlock)
                  (CodeBlock.language codeBlock)
                  (length (split_nl (CodeBlock.content codeBlock)))
                  (CodeBlock.hash codeBlock)
                  (CodeBlock.getFileExtension codeBlock).

(** The loop over the blocks, from the 0-based index [i] on: it pushes a
    file per block and adds the language of the block to the statistics. *)
Fixpoint filesLoop (blocks : list CodeBlock.t) (i : nat)
  (extractedFiles : list ExtractedFile) (stats : Stats)
  : list ExtractedFile * Stats :=
  match blocks with
  | [] => (extractedFiles, stats)
  | codeBlock :: rest =>
      filesLoop rest (S i)
        (extractedFiles ++ [extractedFileOf (i + 1) codeBlock])
        (mkStats (filesProcessed stats) (codeBlocksFound stats)
                 (setAdd (CodeBlock.language codeBlock) (languagesDetected stats))
                 (topicsCreated stats))
  end.

(** [processFile]: the statistics are threaded through; [now] is the value
    of [new Date().toISOString()]. *)
Definition processFile (now : str) (stats : Stats) (file : File)
  : Result * Stats :=
  match readFileAsText file with
  | inr message =>
      (Error (lit "Failed to process file: " ++ message), stats)
  | inl content =>
      let codeBlocks := extractCodeBlocks content in
      if Nat.eqb (length codeBlocks) 0 then
        (Message (lit "No code blocks found"), stats)
      else
        let topicName := generateTopicName (name file) content in
        let '(extractedFiles, stats1) := filesLoop codeBlocks 0 [] stats in
        let metadata :=
          mkMetadata (name file) topicName (length codeBlocks)
                     (map codeFileOf extractedFiles) now in
        let stats2 :=
          mkStats (filesProcessed stats1 + 1)
                  (codeBlocksFound stats1 + length codeBlocks)
                  (languagesDetected stats1)
                  (setAdd topicName (topicsCreated stats1)) in
        (Extracted topicName (length codeBlocks) extractedFiles metadata,
         stats2)
  end.

End WithEngine.

(** [processFile] returns the blocks only through [files]; this is the list
    [codeBlocks] it was computed from. *)
Definition blocksOf (file : File) : list CodeBlock.t :=
  match text file with
  | Some content => extractCodeBlocks content
  | None => []
  end.

(** [getStats]: the counters, and the two sets as arrays in the order of
    insertion ([Array.from]). *)
Definition getStats (stats : Stats) : Stats :=
  mkStats (filesProcessed stats) (codeBlocksFound stats)
          (languagesDetected stats) (topicsCreated stats).

End CodeExtractor.

(** ** class CodeExtractorApp *)

(** The application that drives the extractor: the selected files, the
    batch run and the grouping of the results by topic.  The updates of the
    page (what is shown or hidden, the HTML that is written) are left out;
    the texts handed to [showNotification] and [addProgressDetail] are
    returned. *)
Module CodeExtractorApp.

Import CodeExtractor.

(** The state of the application: the statistics and the output name of
    its extractor, the [Map] of the selected files in the order of
    insertion, and the results of the last run ([None] for [null]). *)
Record App : Type := mkApp {
  stats : Stats;
  outputName : str;
  selectedFiles : list (str * File);
  extractionResults : option (list (str * Result))
}.

(** The constructor. *)
Definition new : App := mkApp reset (lit "extracted_code") [] None.

(** [Map.prototype.has], [set] for a key that may be there, [delete]. *)
Definition mapHas {V : Type} (key : str) (m : list (str * V)) : bool :=
  existsb (fun kv => str_eqb (fst kv) key) m.

Fixpoint mapSet {V : Type} (key : str) (v : V) (m : list (str * V))
  : list (str * V) :=
  match m with
  | [] => [(key, v)]
  | (k, w) :: rest =>
      if str_eqb k key then (k, v) :: rest else (k, w) :: mapSet key v rest
  end.

Definition mapDelete {V : Type} (key : str) (m : list (str * V))
  : list (str * V) :=
  filter (fun kv => negb (str_eqb (fst kv) key)) m.

Fixpoint mapGet {V : Type} (key : str) (m : list (str * V)) : option V :=
  match m with
  | [] => None
  | (k, w) :: rest => if str_eqb k key then Some w else mapGet key rest
  end.

(** [s.split('.')]: the pieces between the dots, at least one. *)
Fixpoint splitDot (s : str) : list str :=
  match s with
  | [] => [[]]
  | c :: s' =>
      if char_eqb c (ch ".") then [] :: splitDot s'
      else match splitDot s' with
           | [] => [[c]]
           | l :: ls => (c :: l) :: ls
           end
  end.

Definition validExtensions : list str :=
  [lit ".md"; lit ".txt"; lit ".log"; lit ".rtf"; lit ".text"].

Section AddFiles.

(** [String.prototype.toLowerCase], a function of the platform. *)
Variable toLowerCase : str -> str.

(** The test of the filter of [addFiles]. *)
Definition isValidFile (file : File) : bool :=
  let ext := ch "." :: toLowerCase (last (splitDot (name file)) []) in
  existsb (str_eqb ext) validExtensions
  || negb (includes (name file) (lit ".")).

(** One round of [validFiles.forEach]. *)
Definition selectFile (selected : list (str * File)) (file : File)
  : list (str * File) :=
  if negb (mapHas (name file) selected)
  then mapSet (name file) file selected
  else selected.

(** [addFiles]: the new state and whether the warning
    'Some files were skipped. Only text files are supported.' is shown. *)
Definition addFiles (files : list File) (app : App) : App * bool :=
  let validFiles := filter isValidFile files in
  let warning := negb (Nat.eqb (length validFiles) (length files)) in
  (mkApp (stats app) (outputName app)
         (fold_left selectFile validFiles (selectedFiles app))
         (extractionResults app),
   warning).

End AddFiles.

Definition removeFile (fileName : str) (app : App) : App :=
  mkApp (stats app) (outputName app)
        (mapDelete fileName (selectedFiles app)) (extractionResults app).

Definition clearFiles (app : App) : App :=
  mkApp (stats app) (outputName app) [] (extractionResults app).

(** The listener of the output name: [e.target.value || 'extracted_code']. *)
Definition setOutputName (value : str) (app : App) : App :=
  mkApp (stats app)
        (if truthy value then value else lit "extracted_code")
        (selectedFiles app) (extractionResults app).

(** The line of the progress for a result. *)
Definition resultDetail (result : Result) : str :=
  match result with
  | Error error => [10060%N; 32%N] ++ lit "Error: " ++ error
  | Message message => [8505%N; 65039%N; 32%N] ++ message
  | Extracted topic blocksExtracted _ _ =>
      [9989%N; 32%N] ++ lit "Extracted " ++ natToString blocksExtracted
      ++ lit " code blocks -> " ++ topic
  end.

Section WithEngine.

Context {engine : Engine}.

(** The loop of [processFiles] over the files; [clock i] is the time at
    which the file of index [i] is processed. *)
Fixpoint processLoop (clock : nat -> str) (i : nat) (files : list File)
  (st : Stats) (results : list (str * Result)) (details : list str)
  : Stats * list (str * Result) * list str :=
  match files with
  | [] => (st, results, details)
  | file :: rest =>
      let details1 :=
        details ++ [[55357%N; 56513%N; 32%N] ++ lit "Processing file: "
                    ++ name file] in
      let '(result, st') := processFile (clock i) st file in
      processLoop clock (S i) rest st'
        (results ++ [(name file, result)])
        (details1 ++ [resultDetail result])
  end.

(** What [processFiles] tells the user: a notification, or the lines of
    the progress. *)
Inductive Feedback : Type :=
| Notification (message kind : str)
| Progress (details : list str).

(** [processFiles]: nothing but a notification without files; otherwise
    the statistics are reset, the files processed in their order and the
    results kept. *)
Definition processFiles (clock : nat -> str) (app : App) : App * Feedback :=
  if Nat.eqb (length (selectedFiles app)) 0 then
    (app, Notification (lit "Please select files to process") (lit "error"))
  else
    let files := map snd (selectedFiles app) in
    let '(st, results, details) := processLoop clock 0 files reset [] [] in
    (mkApp st (outputName app) (selectedFiles app) (Some results),
     Progress details).

End WithEngine.

(** [startNewExtraction]. *)
Definition startNewExtraction (app : App) : App :=
  mkApp reset (outputName app) [] None.

(** *** Grouping the results by topic *)

(** [result.files && result.files.length > 0]. *)
Definition hasFiles (result : Result) : bool :=
  match result with
  | Extracted _ _ files _ => Nat.ltb 0 (length files)
  | _ => false
  end.

Definition topicOf (result : Result) : str :=
  match result with
  | Extracted topic _ _ _ => topic
  | _ => []
  end.

Definition filesOf (result : Result) : list ExtractedFile :=
  match result with
  | Extracted _ _ files _ => files
  | _ => []
  end.

Definition blocksExtractedOf (result : Result) : nat :=
  match result with
  | Extracted _ n _ _ => n
  | _ => 0
  end.

(** The groups of [displayExtractedFiles]: for every topic, the results
    that have it, with the names of their source files. *)
Definition displayStep (topicGroups : list (str * list (str * Result)))
  (entry : str * Result) : list (str * list (str * Result)) :=
  let '(file, result) := entry in
  if hasFiles result then
    let topicGroups1 :=
      if negb (mapHas (topicOf result) topicGroups)
      then mapSet (topicOf result) [] topicGroups
      else topicGroups in
    match mapGet (topicOf result) topicGroups1 with
    | Some group =>
        mapSet (topicOf result) (group ++ [(file, result)]) topicGroups1
    | None => topicGroups1
    end
  else topicGroups.

Definition displayGroups (results : list (str * Result))
  : list (str * list (str * Result)) :=
  fold_left displayStep results [].

(** [allFiles] and [totalBlocks] of a group. *)
Definition allFiles (topicResults : list (str * Result)) : list ExtractedFile :=
  flat_map (fun r => filesOf (snd r)) topicResults.

Definition totalBlocks (topicResults : list (str * Result)) : nat :=
  fold_left (fun sum r => sum + blocksExtractedOf (snd r)) topicResults 0.

(** The groups of [downloadAll]: for every topic, the files of the results
    that have it and the metadata of the first of them. *)
Definition downloadStep
  (topicGroups : list (str * (list ExtractedFile * option Metadata)))
  (entry : str * Result)
  : list (str * (list ExtractedFile * option Metadata)) :=
  let '(file, result) := entry in
  if hasFiles result then
    let topicGroups1 :=
      if negb (mapHas (topicOf result) topicGroups)
      then mapSet (topicOf result)
                  ([], match result with
                       | Extracted _ _ _ metadata => Some metadata
                       | _ => None
                       end)
                  topicGroups
      else topicGroups in
    match mapGet (topicOf result) topicGroups1 with
    | Some (files, metadata) =>
        mapSet (topicOf result) (files ++ filesOf result, metadata)
               topicGroups1
    | None => topicGroups1
    end
  else topicGroups.

Definition downloadGroups (results : list (str * Result))
  : list (str * (list ExtractedFile * option Metadata)) :=
  fold_left downloadStep results [].

End CodeExtractorApp.


Import CodeExtractor.

(** * Vocabulary of the properties *)

(** ** The matcher *)

(** The least number of characters a match of the pattern consumes. *)
Fixpoint minLen (r : regex) : nat :=
  match r with
  | Empty => 0
  | Chr _ => 1
  | Class _ => 1
  | Seq r1 r2 => minLen r1 + minLen r2
  | Alt r1 r2 => Nat.min (minLen r1) (minLen r2)
  | Star _ _ => 0
  | Group _ r1 => minLen r1
  | Bol => 0
  | Eol => 0
  end.

(** [z'] is [z] moved forward over at least [n] characters of the text. *)
Definition reach (n : nat) (z z' : pos) : Prop :=
  exists l, after z = l ++ after z'
            /\ before z' = rev l ++ before z
            /\ n <= length l.

(** The text a position belongs to. *)
Definition textOf (z : pos) : str := rev (before z) ++ after z.

(** What a match of a pattern is, without the priorities of the matcher:
    [matches r z cs z' cs'] when [r] matches the text between the positions
    [z] and [z'] and turns the captures [cs] into [cs']. *)
Inductive matches (icase multi : bool)
  : regex -> pos -> captures -> pos -> captures -> Prop :=
| M_Empty z cs : matches icase multi Empty z cs z cs
| M_Chr c x xs bef cs :
    chrMatches icase c x = true ->
    matches icase multi (Chr c) (mkPos bef (x :: xs)) cs (mkPos (x :: bef) xs) cs
| M_Class (p : char -> bool) x xs bef cs :
    p x = true ->
    matches icase multi (Class p) (mkPos bef (x :: xs)) cs
            (mkPos (x :: bef) xs) cs
| M_Seq r1 r2 z cs z1 cs1 z2 cs2 :
    matches icase multi r1 z cs z1 cs1 ->
    matches icase multi r2 z1 cs1 z2 cs2 ->
    matches icase multi (Seq r1 r2) z cs z2 cs2
| M_AltL r1 r2 z cs z1 cs1 :
    matches icase multi r1 z cs z1 cs1 ->
    matches icase multi (Alt r1 r2) z cs z1 cs1
| M_AltR r1 r2 z cs z1 cs1 :
    matches icase multi r2 z cs z1 cs1 ->
    matches icase multi (Alt r1 r2) z cs z1 cs1
| M_StarNil g r z cs : matches icase multi (Star g r) z cs z cs
| M_StarCons g r z cs z1 cs1 z2 cs2 :
    matches icase multi r z cs z1 cs1 ->
    matches icase multi (Star g r) z1 cs1 z2 cs2 ->
    matches icase multi (Star g r) z cs z2 cs2
| M_Group i r z cs z1 cs1 :
    matches icase multi r z cs z1 cs1 ->
    matches icase multi (Group i r) z cs z1
            ((i, firstn (length (after z) - length (after z1)) (after z)) :: cs1)
| M_Bol z cs : atBol multi z = true -> matches icase multi Bol z cs z cs
| M_Eol z cs : atEol multi z = true -> matches icase multi Eol z cs z cs.

(** Patterns without capture groups. *)
Fixpoint noGroups (r : regex) : bool :=
  match r with
  | Seq r1 r2 | Alt r1 r2 => noGroups r1 && noGroups r2
  | Star _ r1 => noGroups r1
  | Group _ _ => false
  | _ => true
  end.

(** The characters outside a class. *)
Definition outside (p : char -> bool) : char -> bool := fun c => negb (p c).

(** The longest prefix of characters of a class. *)
Fixpoint takeWhile (p : char -> bool) (s : str) : str :=
  match s with
  | [] => []
  | c :: s' => if p c then c :: takeWhile p s' else []
  end.

(** The text starts with no character of the class. *)
Definition stops (p : char -> bool) (rest : str) : Prop :=
  match rest with
  | [] => True
  | y :: _ => p y = false
  end.

(** ** The scanners *)

(** The matches that the loop of [extractMarkdownCodeBlocks] goes through,
    from [lastIndex] on. *)
Fixpoint fenceMatches (fuel : nat) (lastIndex : pos) : list MatchResult :=
  match fuel with
  | O => []
  | S fuel' =>
      match searchFrom fencePattern lastIndex with
      | None => []
      | Some res => mkResult res :: fenceMatches fuel' (mend (mkResult res))
      end
  end.

Definition fencedMatches (content : str) : list MatchResult :=
  fenceMatches (S (length content)) (mkPos [] content).

(** The 1-based number of the line that holds the character of index
    [offset]: one more than the number of newlines before it. *)
Definition lineNumberAt (content : str) (offset : nat) : nat :=
  S (count_occ N.eq_dec (firstn offset content) NL).

(** The indented runs the scanner ends, with the index of their first line,
    in the order in which they end: a run is ended by a line that is
    neither indented nor blank, or by the end of the text.  (A line of that
    kind outside a run ends an empty run.) *)
Fixpoint runsFrom (lines : list str) (i : nat) (current : list str)
  (start : nat) : list (nat * list str) :=
  match lines with
  | [] => [(start, current)]
  | line :: rest =>
      if continuesRun line (mkScan [] current start)
      then runsFrom rest (S i) (current ++ [line])
                    (if Nat.eqb (length current) 0 then i else start)
      else (start, current) :: runsFrom rest (S i) [] start
  end.

Definition indentedRuns (content : str) : list (nat * list str) :=
  runsFrom (split_nl content) 0 [] 0.

Definition flushRun (run : nat * list str) : list CodeBlock.t :=
  flush (snd run) (fst run).

(** The signatures of [looksLikeCode] that match a text. *)
Definition matchingSignatures (content : str) : list RegExp :=
  filter (fun pattern => test pattern content) codePatterns.

(** A candidate of the classifier matches a text when one of its
    signatures does. *)
Definition candidateMatches (entry : str * list RegExp) (content : str) : Prop :=
  exists pattern, In pattern (snd entry) /\ test pattern content = true.

(** ** De-duplication *)

(** The indented blocks that the loop of [extractCodeBlocks] keeps, when
    [known] are the blocks collected so far. *)
Fixpoint retained (known indented : list CodeBlock.t) : list CodeBlock.t :=
  match indented with
  | [] => []
  | b :: rest =>
      if existsb (overlaps b) known then retained known rest
      else b :: retained (known ++ [b]) rest
  end.

(** [p] occurs in [s]. *)
Definition occursIn (p s : str) : Prop := exists pre post, s = pre ++ p ++ post.

(** An indented block is a duplicate of a fenced one: their start lines
    differ by less than 5 and the first 100 characters of its content occur
    in the content of the fenced block. *)
Definition duplicateOf (indented fenced : CodeBlock.t) : Prop :=
  (Z.abs (Z.of_nat (CodeBlock.startLine indented)
          - Z.of_nat (CodeBlock.startLine fenced)) < 5)%Z
  /\ occursIn (firstn 100 (CodeBlock.content indented))
              (CodeBlock.content fenced).

(** The blocks come at least five lines apart. *)
Definition spaced (a b : CodeBlock.t) : Prop :=
  CodeBlock.startLine a + 5 <= CodeBlock.startLine b.

(** ** Topics and files *)

(** The pattern of a top-level heading, the first of the title patterns. *)
Definition h1Pattern : RegExp :=
  rem (cat [Bol; L "#"; Plus s_; Group 1 (Plus dot); Eol]).

(** The patterns of a second-level heading, of a [Title:] line and of a
    [Subject:] line. *)
Definition h2Pattern : RegExp :=
  rem (cat [Bol; L "##"; Plus s_; Group 1 (Plus dot); Eol]).
Definition titleLinePattern : RegExp :=
  rem (cat [Bol; L "Title:"; star s_; Group 1 (Plus dot); Eol]).
Definition subjectLinePattern : RegExp :=
  rem (cat [Bol; L "Subject:"; star s_; Group 1 (Plus dot); Eol]).

(** The text captured by the first of the title patterns, in their order,
    that matches. *)
Fixpoint firstTitle (patterns : list RegExp) (content : str) : option str :=
  match patterns with
  | [] => None
  | pattern :: rest =>
      match smatch content pattern with
      | Some m => Some (group1 m)
      | None => firstTitle rest content
      end
  end.

(** Every run of white space becomes one underscore; [inRun] tells that the
    previous character was white space. *)
Fixpoint collapseFrom (inRun : bool) (s : str) : str :=
  match s with
  | [] => []
  | c :: s' =>
      if isWhiteSpace c
      then if inRun then collapseFrom true s' else ch "_" :: collapseFrom true s'
      else c :: collapseFrom false s'
  end.

Definition collapseSpaces (s : str) : str := collapseFrom false s.

(** The characters a topic keeps: word characters, white space, hyphens. *)
Definition keepsTopicChar (c : char) : bool :=
  isWord c || isWhiteSpace c || chr "-" c.

(** The topic as the code has it: hyphens are kept too, and the text is
    trimmed before its runs of white space are turned into underscores. *)
Definition topicText (text : str) : str :=
  firstn 50 (collapseSpaces (trim (filter keepsTopicChar text))).

(** The characters of an extension: neither a slash nor a dot. *)
Definition isExtChar (c : char) : bool := negb (chr "/" c || chr "." c).

(** The name without its extension: without its last dot and what follows
    it, when what follows is not empty and has no slash. *)
Definition removeExtension (fileName : str) : str :=
  let r := rev fileName in
  match takeWhile isExtChar r, dropWhile isExtChar r with
  | _ :: _, c :: base => if chr "." c then rev base else fileName
  | _, _ => fileName
  end.

(** The topic as the words of the specification have it: characters that
    are neither word characters nor white space removed, runs of white
    space turned into underscores, the first 50 characters kept. *)
Definition claimedTopicText (text : str) : str :=
  firstn 50 (collapseSpaces
               (filter (fun c => isWord c || isWhiteSpace c) text)).

Definition claimedTopicName (fileName content : str) : str :=
  match firstTitle titlePatterns content with
  | Some text => claimedTopicText text
  | None =>
      match removeExtension fileName with
      | [] => lit "unknown_topic"
      | base => base
      end
  end.

(** The files of [filesLoop], as a function of the blocks alone. *)
Fixpoint filesFrom {engine : Engine} (i : nat) (blocks : list CodeBlock.t)
  : list ExtractedFile :=
  match blocks with
  | [] => []
  | b :: rest => extractedFileOf (i + 1) b :: filesFrom (S i) rest
  end.

(** ** Sample documents *)

(** A short document with a tagged fence, an untagged fence and a heading. *)
Definition sampleDocument : str :=
  lit "# Database Setup Discussion" ++ [NL]
  ++ lit "```python" ++ [NL]
  ++ lit "print(1 + 1); x = compute(2)" ++ [NL]
  ++ lit "```" ++ [NL]
  ++ lit "and then" ++ [NL]
  ++ lit "```" ++ [NL]
  ++ lit "const total = items.length;" ++ [NL]
  ++ lit "```" ++ [NL].

Definition sampleFile : File := mkFile (lit "notes.md") (Some sampleDocument).

(** Three indented lines whose trimmed text has 40 characters. *)
Definition shortSnippet : str :=
  lit "    x = foo(1)" ++ [NL]
  ++ lit "    y = bar(x.z)" ++ [NL]
  ++ lit "    print(y)".

(** An indented run of four lines followed by a fenced block. *)
Definition indentedFirst : str :=
  lit "    total = compute(items)" ++ [NL]
  ++ lit "    if (total > limit) {" ++ [NL]
  ++ lit "        report(total);" ++ [NL]
  ++ lit "    }" ++ [NL]
  ++ lit "Some words in between." ++ [NL]
  ++ lit "More words." ++ [NL]
  ++ lit "```sql" ++ [NL]
  ++ lit "SELECT name FROM users WHERE id = 1;" ++ [NL]
  ++ lit "```" ++ [NL].

(** ** Hashes, extensions and file names *)

(** The polynomial of the code units of a text, with the multiplier 31. *)
Definition polynomialHash (content : str) : Z :=
  fold_left (fun h c => (31 * h + Z.of_N c)%Z) content 0%Z.

(** The digits of [toString(16)]. *)
Definition isHexDigit (c : char) : bool :=
  (between 48 57 c || between 97 102 c)%N.

(** ** Lines and topics *)

(** A line that begins with four spaces or with a tab. *)
Definition indentedLine (line : str) : Prop :=
  exists rest, line = lit "    " ++ rest \/ line = TAB :: rest.

(** The characters of a topic taken from a title: word characters (the
    underscore is one) and hyphens. *)
Definition isTopicChar (c : char) : bool := isWord c || chr "-" c.

(** Two indented runs of four lines, with a line of prose between them. *)
Definition firstRun : list str :=
  [ lit "    total = compute(items)"; lit "    if (total > limit) {";
    lit "        report(total);"; lit "    }" ].

Definition secondRun : list str :=
  [ lit "    count = measure(parts)"; lit "    while (count > 0) {";
    lit "        count = step(count);"; lit "    }" ].

Definition twoRuns : str :=
  join_nl (firstRun ++ [lit "Some words in between."] ++ secondRun).

(** ** The batch run *)

Import CodeExtractorApp.

(** The results a run over the files gives, the file of index [i] first:
    each file is processed on its own. *)
Fixpoint resultsFrom {engine : Engine} (clock : nat -> str) (i : nat)
  (files : list File) : list (str * Result) :=
  match files with
  | [] => []
  | file :: rest =>
      (name file, fst (processFile (clock i) reset file))
      :: resultsFrom clock (S i) rest
  end.

(** The elements of a list in the order of their first occurrence. *)
Definition firstOccurrences (l : list str) : list str :=
  fold_left (fun s x => setAdd x s) l [].

(** ** File names *)

Definition isDigit (c : char) : bool := between 48%N 57%N c.

(** The number written by the digits at the beginning of a text. *)
Fixpoint readDigits (acc : nat) (s : str) : nat :=
  match s with
  | [] => acc
  | c :: s' =>
      if isDigit c then readDigits (10 * acc + N.to_nat (c - 48)) s' else acc
  end.

(** The number a file name carries after [code_]. *)
Definition indexOfName (fileName : str) : nat :=
  readDigits 0 (skipn 5 fileName).

(** A selection of two files, one of which cannot be read. *)
Definition sampleApp : App :=
  mkApp reset (lit "extracted_code")
        [ (lit "notes.md", sampleFile);
          (lit "broken.md", mkFile (lit "broken.md") None) ]
        None.

(** ** The selection *)

(** The extensions of [validExtensions] without their dot. *)
Definition textExtensions : list str :=
  [lit "md"; lit "txt"; lit "log"; lit "rtf"; lit "text"].

(** Lower case for the letters A to Z, every other character kept. *)
Definition asciiLower (s : str) : str :=
  map (fun c => if between 65%N 90%N c then (c + 32)%N else c) s.

Definition upperCaseNotes : File := mkFile (lit "NOTES.MD") None.

Definition picture : File := mkFile (lit "photo.png") None.

(** ** The groups of a topic *)

(** The results with files. *)
Definition withFiles (results : list (str * Result)) : list (str * Result) :=
  filter (fun r => hasFiles (snd r)) results.

(** The results with files that have the topic [t], in their order. *)
Definition groupOf (t : str) (results : list (str * Result))
  : list (str * Result) :=
  filter (fun r => hasFiles (snd r) && str_eqb (topicOf (snd r)) t) results.

Definition nonEmpty {A : Type} (l : list A) : option (list A) :=
  match l with
  | [] => None
  | _ :: _ => Some l
  end.

Definition metadataOf (result : Result) : option Metadata :=
  match result with
  | Extracted _ _ _ metadata => Some metadata
  | _ => None
  end.

(** ** The engine and the classifier table *)

(** An engine that prints a built-in function as V8 does. *)
Definition v8 : Engine :=
  {| nativeFunctionText :=
       fun name => lit "function " ++ name ++ lit "() { [native code] }" |}.

(** A fence whose tag is the name of a property of [Object.prototype]. *)
Definition constructorDocument : str :=
  join_nl [ lit "```constructor";
            lit "function Point(x, y) { this.x = x; this.y = y; }";
            lit "```" ].

(** The text of the first literal of [bash] in the table. *)
Definition shebangLiteral : str := lit "/#!/bin\/bash/".

(** A shell script that only its first line gives away. *)
Definition shebangScript : str :=
  join_nl [ lit "#!/bin/bash"; lit "./configure --prefix=/usr";
            lit "make install" ].

(** The table without the first signature of [bash]. *)
Definition patternsWithoutShebang : list (str * list RegExp) :=
  map (fun entry =>
         if str_eqb (fst entry) (lit "bash")
         then (fst entry, tl (snd entry))
         else entry)
      CodeBlock.patterns.

(** * Properties *)

(** ** The matcher moves forward *)

Lemma reach_refl z : reach 0 z z.
Proof. exists []. simpl. auto. Qed.

Lemma reach_trans n1 n2 z1 z2 z3 :
  reach n1 z1 z2 -> reach n2 z2 z3 -> reach (n1 + n2) z1 z3.
Proof.
  intros (l1 & A1 & B1 & L1) (l2 & A2 & B2 & L2).
  exists (l1 ++ l2). rewrite A1, A2, B2, B1, rev_app_distr, length_app.
  rewrite !app_assoc. repeat split; auto. lia.
Qed.

Lemma reach_weaken n m z z' : m <= n -> reach n z z' -> reach m z z'.
Proof. intros Hle (l & A & B & L). exists l. repeat split; auto. lia. Qed.

Lemma reach_step x xs bef : reach 1 (mkPos bef (x :: xs)) (mkPos (x :: bef) xs).
Proof. exists [x]. simpl. auto. Qed.

Lemma reach_after n z z' :
  reach n z z' -> length (after z') + n <= length (after z).
Proof. intros (l & A & _ & L). rewrite A, length_app. lia. Qed.

Lemma reach_index n z z' : reach n z z' -> index z + n <= index z'.
Proof.
  intros (l & _ & B & L). unfold index. rewrite B, length_app, length_rev. lia.
Qed.

Lemma reach_textOf n z z' : reach n z z' -> textOf z' = textOf z.
Proof.
  intros (l & A & B & _). unfold textOf.
  rewrite A, B, rev_app_distr, rev_involutive, <- app_assoc. reflexivity.
Qed.

Lemma starLoop_sound icase multi r g k :
  (forall z cs k res,
     matcher icase multi r z cs k = Some res ->
     exists z' cs', matches icase multi r z cs z' cs' /\ k z' cs' = Some res) ->
  forall n z cs res,
    starLoop (matcher icase multi r) g k n z cs = Some res ->
    exists z' cs',
      matches icase multi (Star g r) z cs z' cs' /\ k z' cs' = Some res.
Proof.
  intros Hbody. induction n as [|n IHn]; intros z cs res H; simpl in H.
  - exists z, cs. split; [constructor | assumption].
  - assert (Again : forall res',
        matcher icase multi r z cs
          (fun z' cs' =>
             if Nat.ltb (length (after z')) (length (after z))
             then starLoop (matcher icase multi r) g k n z' cs' else None)
        = Some res' ->
        exists z' cs',
          matches icase multi (Star g r) z cs z' cs' /\ k z' cs' = Some res').
    { intros res' E. apply Hbody in E. destruct E as (z1 & cs1 & R1 & E).
      destruct (Nat.ltb (length (after z1)) (length (after z)));
        [|discriminate].
      apply IHn in E. destruct E as (z2 & cs2 & R2 & E).
      exists z2, cs2. split; [|assumption].
      eapply M_StarCons; eassumption. }
    destruct g.
    + match type of H with
      | match ?m with _ => _ end = _ => destruct m eqn:E
      end.
      * inversion H; subst. apply Again. reflexivity.
      * exists z, cs. split; [constructor | assumption].
    + destruct (k z cs) eqn:Ek.
      * inversion H; subst. exists z, cs.
        split; [constructor | assumption].
      * apply Again. exact H.
Qed.

Section MatcherFacts.

Variables icase multi : bool.

(** A successful run of the matcher is a match of the pattern, at whose end
    the continuation succeeds. *)
Lemma matcher_sound r : forall z cs k res,
  matcher icase multi r z cs k = Some res ->
  exists z' cs', matches icase multi r z cs z' cs' /\ k z' cs' = Some res.
Proof.
  induction r as [|c|p|r1 IH1 r2 IH2|r1 IH1 r2 IH2|g r1 IH1|i r1 IH1| |];
    intros z cs k res H; cbn [matcher] in H.
  - exists z, cs. split; [constructor | assumption].
  - destruct z as [bef [|x xs]]; simpl in H; [discriminate|].
    destruct (chrMatches icase c x) eqn:E; [|discriminate].
    eexists _, cs. split; [constructor; exact E | exact H].
  - destruct z as [bef [|x xs]]; simpl in H; [discriminate|].
    destruct (p x) eqn:E; [|discriminate].
    eexists _, cs. split; [constructor; exact E | exact H].
  - apply IH1 in H. destruct H as (z1 & cs1 & R1 & H).
    apply IH2 in H. destruct H as (z2 & cs2 & R2 & H).
    exists z2, cs2. split; [|assumption]. econstructor; eassumption.
  - destruct (matcher icase multi r1 z cs k) eqn:E.
    + inversion H; subst. apply IH1 in E. destruct E as (z1 & cs1 & R & E).
      exists z1, cs1. split; [|assumption]. apply M_AltL; assumption.
    + apply IH2 in H. destruct H as (z1 & cs1 & R & E').
      exists z1, cs1. split; [|assumption]. apply M_AltR; assumption.
  - eapply starLoop_sound in H; [exact H | exact IH1].
  - apply IH1 in H. destruct H as (z1 & cs1 & R1 & H).
    eexists z1, _. split; [constructor; exact R1 | exact H].
  - destruct (atBol multi z) eqn:E; [|discriminate].
    exists z, cs. split; [constructor; exact E | assumption].
  - destruct (atEol multi z) eqn:E; [|discriminate].
    exists z, cs. split; [constructor; exact E | assumption].
Qed.

(** A match ends further on, by at least the minimal length of the
    pattern. *)
Lemma matches_reach r z cs z' cs' :
  matches icase multi r z cs z' cs' -> reach (minLen r) z z'.
Proof.
  induction 1; simpl.
  - apply reach_refl.
  - apply reach_step.
  - apply reach_step.
  - eapply reach_trans; eassumption.
  - eapply reach_weaken; [|eassumption]. apply Nat.le_min_l.
  - eapply reach_weaken; [|eassumption]. apply Nat.le_min_r.
  - apply reach_refl.
  - eapply reach_weaken; [|eapply reach_trans; eassumption]. simpl. lia.
  - assumption.
  - apply reach_refl.
  - apply reach_refl.
Qed.

(** The leftmost match starts at or after the position searched from, and
    is a match of the pattern. *)
Lemma search_sound r : forall aft bef s e cs,
  search icase multi r bef aft = Some (s, e, cs) ->
  reach 0 (mkPos bef aft) s /\ matches icase multi r s [] e cs.
Proof.
  assert (Here : forall z e cs,
            matcher icase multi r z [] accept = Some (e, cs) ->
            matches icase multi r z [] e cs).
  { intros z e cs E. apply matcher_sound in E.
    destruct E as (z' & cs' & M & A). unfold accept in A.
    inversion A; subst. exact M. }
  induction aft as [|x xs IH]; intros bef s e cs H; simpl in H.
  - destruct (matcher icase multi r (mkPos bef []) [] accept) as [[e' cs']|] eqn:E;
      [|discriminate].
    inversion H; subst. split; [apply reach_refl | apply Here, E].
  - destruct (matcher icase multi r (mkPos bef (x :: xs)) [] accept)
      as [[e' cs']|] eqn:E.
    + inversion H; subst. split; [apply reach_refl | apply Here, E].
    + apply IH in H. destruct H as [R1 R2]. split; [|exact R2].
      eapply reach_weaken; [|eapply reach_trans; [apply reach_step | exact R1]].
      lia.
Qed.

End MatcherFacts.

Lemma searchFrom_sound re z s e cs :
  searchFrom re z = Some (s, e, cs) ->
  reach 0 z s
  /\ matches (ignoreCase re) (multiline re) (source re) s [] e cs
  /\ reach (minLen (source re)) s e.
Proof.
  unfold searchFrom. intros H. apply search_sound in H.
  destruct z; destruct H as [R M]. repeat split; auto.
  eapply matches_reach; eassumption.
Qed.

(** ** The bound on the iterations of a star is never reached *)

Section StarBound.

Variables icase multi : bool.

Lemma starLoop_ext r g k1 k2 :
  (forall z cs k1 k2,
     (forall z' cs', reach 0 z z' -> k1 z' cs' = k2 z' cs') ->
     matcher icase multi r z cs k1 = matcher icase multi r z cs k2) ->
  forall n z cs,
    (forall z' cs', reach 0 z z' -> k1 z' cs' = k2 z' cs') ->
    starLoop (matcher icase multi r) g k1 n z cs
    = starLoop (matcher icase multi r) g k2 n z cs.
Proof.
  intros Hbody. induction n as [|n IHn]; intros z cs Hk; simpl.
  - apply Hk, reach_refl.
  - rewrite (Hk z cs (reach_refl z)).
    rewrite (Hbody z cs
               (fun z' cs' =>
                  if Nat.ltb (length (after z')) (length (after z))
                  then starLoop (matcher icase multi r) g k1 n z' cs'
                  else None)
               (fun z' cs' =>
                  if Nat.ltb (length (after z')) (length (after z))
                  then starLoop (matcher icase multi r) g k2 n z' cs'
                  else None)); [reflexivity|].
    intros z' cs' R.
    destruct (Nat.ltb (length (after z')) (length (after z))); [|reflexivity].
    apply IHn. intros z'' cs'' R'. apply Hk.
    eapply reach_weaken; [|eapply reach_trans; eassumption]. lia.
Qed.

(** The matcher calls its continuation further on only. *)
Lemma matcher_ext r : forall z cs k1 k2,
  (forall z' cs', reach 0 z z' -> k1 z' cs' = k2 z' cs') ->
  matcher icase multi r z cs k1 = matcher icase multi r z cs k2.
Proof.
  induction r as [|c|p|r1 IH1 r2 IH2|r1 IH1 r2 IH2|g r1 IH1|i r1 IH1| |];
    intros z cs k1 k2 Hk; cbn [matcher].
  - apply Hk, reach_refl.
  - destruct z as [bef [|x xs]]; simpl; [reflexivity|].
    destruct (chrMatches icase c x); [|reflexivity].
    apply Hk. eapply reach_weaken; [|apply reach_step]. lia.
  - destruct z as [bef [|x xs]]; simpl; [reflexivity|].
    destruct (p x); [|reflexivity].
    apply Hk. eapply reach_weaken; [|apply reach_step]. lia.
  - apply IH1. intros z' cs' R. apply IH2. intros z'' cs'' R'. apply Hk.
    eapply reach_weaken; [|eapply reach_trans; eassumption]. lia.
  - rewrite (IH1 z cs k1 k2 Hk), (IH2 z cs k1 k2 Hk). reflexivity.
  - apply starLoop_ext; assumption.
  - apply IH1. intros z' cs' R. apply Hk, R.
  - destruct (atBol multi z); [apply Hk, reach_refl | reflexivity].
  - destruct (atEol multi z); [apply Hk, reach_refl | reflexivity].
Qed.

(** Any count of iterations above the length of the input gives the same
    result: the star iterates as long as the pattern allows. *)
Lemma starLoop_bound r g k : forall n m z cs,
  length (after z) < n -> length (after z) < m ->
  starLoop (matcher icase multi r) g k n z cs
  = starLoop (matcher icase multi r) g k m z cs.
Proof.
  induction n as [|n IHn]; intros m z cs Hn Hm; [lia|].
  destruct m as [|m]; [lia|]. simpl.
  rewrite (@matcher_ext r z cs
             (fun z' cs' =>
                if Nat.ltb (length (after z')) (length (after z))
                then starLoop (matcher icase multi r) g k n z' cs'
                else None)
             (fun z' cs' =>
                if Nat.ltb (length (after z')) (length (after z))
                then starLoop (matcher icase multi r) g k m z' cs'
                else None)); [reflexivity|].
  intros z' cs' _.
  destruct (Nat.ltb_spec (length (after z')) (length (after z)));
    [|reflexivity].
  apply IHn; lia.
Qed.

End StarBound.

(** ** processFile and the statistics *)

Section ProcessFile.

Context {engine : Engine}.

Variable now : str.

Lemma filesLoop_files blocks : forall i acc stats,
  fst (filesLoop blocks i acc stats) = acc ++ filesFrom i blocks.
Proof.
  induction blocks as [|b rest IH]; intros i acc stats; simpl.
  - now rewrite app_nil_r.
  - rewrite IH, <- app_assoc. reflexivity.
Qed.

Lemma filesLoop_counters blocks : forall i acc stats,
  filesProcessed (snd (filesLoop blocks i acc stats)) = filesProcessed stats
  /\ codeBlocksFound (snd (filesLoop blocks i acc stats)) = codeBlocksFound stats
  /\ topicsCreated (snd (filesLoop blocks i acc stats)) = topicsCreated stats.
Proof.
  induction blocks as [|b rest IH]; intros i acc stats; simpl; auto.
  destruct (IH (S i) (acc ++ [extractedFileOf (i + 1) b])
              (mkStats (filesProcessed stats) (codeBlocksFound stats)
                 (setAdd (CodeBlock.language b) (languagesDetected stats))
                 (topicsCreated stats))) as (H1 & H2 & H3).
  simpl in *. auto.
Qed.

Lemma filesFrom_length blocks : forall i,
  length (filesFrom i blocks) = length blocks.
Proof. induction blocks; simpl; auto. Qed.

Lemma filesFrom_nth blocks : forall i j b,
  nth_error blocks j = Some b ->
  nth_error (filesFrom i blocks) j = Some (extractedFileOf (i + j + 1) b).
Proof.
  induction blocks as [|b0 rest IH]; intros i [|j] b H; simpl in *;
    try discriminate.
  - inversion H; subst. now rewrite Nat.add_0_r.
  - rewrite (IH (S i) j b H). do 2 f_equal. lia.
Qed.

(** What [processFile] returns on a readable file, by the number of blocks. *)
Lemma processFile_readable stats file content :
  text file = Some content ->
  processFile now stats file =
    if Nat.eqb (length (extractCodeBlocks content)) 0
    then (Message (lit "No code blocks found"), stats)
    else
      let blocks := extractCodeBlocks content in
      let topicName := generateTopicName (name file) content in
      let r := filesLoop blocks 0 [] stats in
      (Extracted topicName (length blocks) (fst r)
         (mkMetadata (name file) topicName (length blocks)
            (map codeFileOf (fst r)) now),
       mkStats (filesProcessed (snd r) + 1)
               (codeBlocksFound (snd r) + length blocks)
               (languagesDetected (snd r))
               (setAdd topicName (topicsCreated (snd r)))).
Proof.
  intros Ht. unfold processFile, readFileAsText. rewrite Ht.
  destruct (Nat.eqb (length (extractCodeBlocks content)) 0); [reflexivity|].
  cbv zeta. destruct (filesLoop (extractCodeBlocks content) 0 [] stats).
  reflexivity.
Qed.

End ProcessFile.

(** C10: a failed read is reported as an [error] record and leaves the
    statistics untouched: when [readFileAsText] rejects with [message],
    [processFile] returns [{error: 'Failed to process file: ' + message}]
    and the very statistics it was given ([filesProcessed],
    [codeBlocksFound], [languagesDetected] and [topicsCreated] keep their
    values), since the read comes before every update. *)
Theorem processFile_read_failure_atomic {engine : Engine}
  (now : str) (stats : Stats)
  (file : File) (message : str) :
  readFileAsText file = inr message ->
  processFile now stats file
  = (Error (lit "Failed to process file: " ++ message), stats).
Proof.
  intros H. unfold processFile. rewrite H. reflexivity.
Qed.

Lemma processFile_read_failure_atomic_witness :
  processFile (engine := v8) (lit "2024-01-01T00:00:00.000Z")
    (mkStats 3 7 [lit "python"] [lit "notes"])
    (mkFile (lit "broken.md") None)
  = (Error (lit "Failed to process file: " ++ lit "Failed to read file"),
     mkStats 3 7 [lit "python"] [lit "notes"]).
Proof.
  apply (@processFile_read_failure_atomic v8
           (lit "2024-01-01T00:00:00.000Z")
           (mkStats 3 7 [lit "python"] [lit "notes"])
           (mkFile (lit "broken.md") None)
           (lit "Failed to read file")).
  reflexivity.
Defined.

(** C1, as amended: a document in which no block is found is answered by
    [{message: 'No code blocks found'}] and leaves all four statistics
    unchanged, [filesProcessed] included: the function returns before the
    counters are touched. *)
Theorem processFile_no_blocks_leaves_stats {engine : Engine}
  (now : str) (stats : Stats)
  (file : File) (content : str) :
  text file = Some content ->
  extractCodeBlocks content = [] ->
  processFile now stats file = (Message (lit "No code blocks found"), stats).
Proof.
  intros Ht Hb. rewrite (processFile_readable now stats file Ht), Hb.
  reflexivity.
Qed.

Lemma processFile_no_blocks_leaves_stats_witness :
  processFile (engine := v8) [] (mkStats 3 7 [lit "python"] [lit "notes"])
    (mkFile (lit "notes.txt") (Some (lit "just some prose")))
  = (Message (lit "No code blocks found"),
     mkStats 3 7 [lit "python"] [lit "notes"]).
Proof.
  apply (@processFile_no_blocks_leaves_stats v8 []
           (mkStats 3 7 [lit "python"] [lit "notes"])
           (mkFile (lit "notes.txt") (Some (lit "just some prose")))
           (lit "just some prose")).
  - reflexivity.
  - vm_compute. reflexivity.
Defined.

(** C1, as stated, fails: the document "just some prose" yields no block,
    and processing it does not increment [filesProcessed]. *)
Lemma processFile_no_blocks_not_counted :
  extractCodeBlocks (lit "just some prose") = []
  /\ filesProcessed
       (snd (processFile (engine := v8) [] reset
               (mkFile (lit "notes.txt") (Some (lit "just some prose")))))
     <> filesProcessed reset + 1.
Proof.
  split; vm_compute; [reflexivity | discriminate].
Qed.

(** C9: in every result that carries files, [files] has the length of the
    block list and is aligned with it: the file at index [i] is built from
    the block at index [i] (and its position) alone, and has its hash, its
    content and its language. *)
Theorem files_aligned_with_blocks {engine : Engine}
  (now : str) (stats stats' : Stats)
  (file : File) (topic : str) (n : nat) (files : list ExtractedFile)
  (metadata : Metadata) :
  processFile now stats file = (Extracted topic n files metadata, stats') ->
  blocksOf file <> []
  /\ length files = length (blocksOf file)
  /\ n = length (blocksOf file)
  /\ forall i b,
       nth_error (blocksOf file) i = Some b ->
       exists f,
         nth_error files i = Some f
         /\ f = extractedFileOf (S i) b
         /\ fileHash f = CodeBlock.hash b
         /\ fileContent f = CodeBlock.content b
         /\ fileLanguage f = CodeBlock.language b.
Proof.
  intros H. unfold blocksOf.
  destruct (text file) as [content|] eqn:Ht.
  - rewrite (processFile_readable now stats file Ht) in H.
    destruct (Nat.eqb (length (extractCodeBlocks content)) 0) eqn:E;
      [discriminate|].
    cbv zeta in H. inversion H; subst; clear H.
    rewrite filesLoop_files. rewrite app_nil_l.
    repeat split.
    + intros Hnil. rewrite Hnil in E. discriminate.
    + apply filesFrom_length.
    + intros i b Hi. eexists. split; [apply filesFrom_nth, Hi|].
      simpl. replace (i + 1) with (S i) by lia. repeat split.
  - unfold processFile, readFileAsText in H. rewrite Ht in H. discriminate.
Qed.

Lemma files_aligned_with_blocks_witness :
  blocksOf sampleFile <> []
  /\ length (fst (filesLoop (engine := v8) (blocksOf sampleFile) 0 [] reset))
     = length (blocksOf sampleFile)
  /\ 2 = length (blocksOf sampleFile)
  /\ forall i b,
       nth_error (blocksOf sampleFile) i = Some b ->
       exists f,
         nth_error (fst (filesLoop (engine := v8) (blocksOf sampleFile) 0 [] reset)) i = Some f
         /\ f = extractedFileOf (engine := v8) (S i) b
         /\ fileHash f = CodeBlock.hash b
         /\ fileContent f = CodeBlock.content b
         /\ fileLanguage f = CodeBlock.language b.
Proof.
  eapply (@files_aligned_with_blocks v8 [] reset _ sampleFile).
  vm_compute. reflexivity.
Defined.


(** ** The shape of the matches of simple patterns *)

Section MatchShapes.

Variables icase multi : bool.

Lemma matches_noGroups r z cs z' cs' :
  matches icase multi r z cs z' cs' -> noGroups r = true -> cs' = cs.
Proof.
  induction 1; simpl; intros G; try reflexivity;
    try (apply andb_prop in G; destruct G as [G1 G2]).
  - rewrite IHmatches2, IHmatches1; auto.
  - auto.
  - auto.
  - rewrite IHmatches2, IHmatches1; auto.
  - discriminate.
Qed.

(** The text between two positions, the second reached from the first. *)
Lemma reach_between n z z' :
  reach n z z' ->
  after z = firstn (length (after z) - length (after z')) (after z) ++ after z'.
Proof.
  intros (l & A & _ & _). rewrite A at 2 3. rewrite length_app.
  replace (length l + length (after z') - length (after z')) with (length l)
    by lia.
  rewrite firstn_app, firstn_all, Nat.sub_diag. simpl.
  rewrite app_nil_r. exact A.
Qed.

Lemma between_unique (l : str) z z' :
  after z = l ++ after z' ->
  firstn (length (after z) - length (after z')) (after z) = l.
Proof.
  intros A. rewrite A, length_app.
  replace (length l + length (after z') - length (after z')) with (length l)
    by lia.
  rewrite firstn_app, firstn_all, Nat.sub_diag. simpl. apply app_nil_r.
Qed.

(** A star of a class matches a run of characters of the class. *)
Lemma matches_star_class g p z cs z' cs' :
  matches icase multi (Star g (Class p)) z cs z' cs' ->
  exists l, after z = l ++ after z' /\ forallb p l = true /\ cs' = cs.
Proof.
  intros H. remember (Star g (Class p)) as r eqn:Er.
  induction H; try discriminate.
  - exists []. auto.
  - inversion Er; subst. clear IHmatches1.
    destruct (IHmatches2 eq_refl) as (l & A & F & C).
    inversion H; subst. simpl in *.
    exists (x :: l). simpl. rewrite A.
    match goal with Hp : p x = true |- _ => rewrite Hp end. auto.
Qed.

Lemma matches_plus_class p z cs z' cs' :
  matches icase multi (Plus (Class p)) z cs z' cs' ->
  exists l, l <> [] /\ after z = l ++ after z' /\ forallb p l = true
            /\ cs' = cs.
Proof.
  unfold Plus. intros H. inversion H; subst. clear H.
  match goal with
  | Hs : matches _ _ (Star _ _) _ _ _ _ |- _ =>
      apply matches_star_class in Hs; destruct Hs as (l & A & F & C)
  end.
  match goal with
  | Hc : matches _ _ (Class _) _ _ _ _ |- _ => inversion Hc; subst
  end.
  simpl in *. exists (x :: l). simpl. rewrite A.
  match goal with Hp : p x = true |- _ => rewrite Hp end.
  repeat split; auto. discriminate.
Qed.

End MatchShapes.

(** A literal character of a pattern without [i] matches itself only. *)
Lemma matches_chr multi c z cs z' cs' :
  matches false multi (Chr c) z cs z' cs' ->
  after z = c :: after z' /\ cs' = cs.
Proof.
  intros H. inversion H; subst. simpl in *.
  match goal with
  | Hc : _ = true |- _ => apply N.eqb_eq in Hc; subst
  end.
  auto.
Qed.

Tactic Notation "invert_seq" hyp(H) "as" ident(z1) ident(cs1) ident(H1) ident(H2) :=
  match type of H with
  | matches ?i ?m (Seq ?r1 ?r2) ?z ?cs ?z' ?cs' =>
      assert (exists z1 cs1,
                matches i m r1 z cs z1 cs1 /\ matches i m r2 z1 cs1 z' cs')
        as (z1 & cs1 & H1 & H2)
        by (inversion H; subst; eauto);
      clear H
  end.

Lemma matches_lit multi l : forall z cs z' cs',
  matches false multi (Lit l) z cs z' cs' ->
  after z = l ++ after z' /\ cs' = cs.
Proof.
  induction l as [|c l IH]; intros z cs z' cs' H.
  - inversion H; subst. auto.
  - destruct l as [|c' l'].
    + apply matches_chr in H. exact H.
    + change (Lit (c :: c' :: l')) with (Seq (Chr c) (Lit (c' :: l'))) in H.
      invert_seq H as z1 cs1 M1 M2.
      apply matches_chr in M1. destruct M1 as [A1 C1].
      apply IH in M2. destruct M2 as [A2 C2].
      subst. rewrite A1, A2. auto.
Qed.

(** ** The fenced scanner *)

(** The shape of a match of the fence pattern: three backticks, a possibly
    empty word, a newline, the code, a newline and three backticks; the
    first group holds the word when it is not empty, the second the code. *)
Lemma fence_shape s cs0 e cs :
  matches false false (source fencePattern) s cs0 e cs ->
  exists tag body,
    after s = lit "```" ++ tag ++ NL :: body ++ NL :: lit "```" ++ after e
    /\ forallb isWord tag = true
    /\ cs = (2, body) :: match tag with
                         | [] => cs0
                         | _ => (1, tag) :: cs0
                         end.
Proof.
  intros H. unfold fencePattern, re in H. cbn [source cat] in H.
  invert_seq H as z1 cs1 M1 Ha.
  apply matches_lit in M1. destruct M1 as [A0 C0]. subst cs1.
  invert_seq Ha as z2 cs2 M2 Hb.
  invert_seq Hb as z3 cs3 M3 Hc.
  apply matches_chr in M3. destruct M3 as [A2 C2]. subst cs3.
  invert_seq Hc as z4 cs4 M4 Hd.
  invert_seq Hd as z5 cs5 M5 He.
  apply matches_chr in M5. destruct M5 as [A4 C4]. subst cs5.
  apply matches_lit in He. destruct He as [A5 C5]. subst cs.
  inversion M4; subst. clear M4.
  match goal with
  | Hs : matches _ _ (lazyStar any) _ _ _ _ |- _ =>
      pose proof (matches_reach Hs) as R;
      apply matches_noGroups in Hs; [subst | reflexivity]
  end.
  apply reach_between in R.
  set (body := firstn (length (after z3) - length (after z4)) (after z3)) in *.
  inversion M2; subst; clear M2.
  - (* a tag *)
    match goal with
    | Hg : matches _ _ (Group 1 _) _ _ _ _ |- _ => inversion Hg; subst; clear Hg
    end.
    match goal with
    | Hp : matches _ _ (Plus w_) _ _ _ _ |- _ =>
        apply matches_plus_class in Hp; destruct Hp as (tag & Ne & A1 & F & C1)
    end.
    subst. rewrite (@between_unique tag z1 z2 A1).
    exists tag, body. repeat split.
    + rewrite A0, A1, A2, R, A4, A5. reflexivity.
    + exact F.
    + destruct tag; [congruence | reflexivity].
  - (* no tag *)
    match goal with
    | He : matches _ _ Empty _ _ _ _ |- _ => inversion He; subst; clear He
    end.
    exists [], body. repeat split.
    rewrite A0, A2, R, A4, A5. reflexivity.
Qed.

Lemma split_nl_length s : length (split_nl s) = S (count_occ N.eq_dec s NL).
Proof.
  induction s as [|c s IH]; [reflexivity|].
  simpl split_nl. unfold char_eqb. destruct (N.eqb_spec c NL) as [E|E].
  - subst. simpl length. rewrite IH. rewrite count_occ_cons_eq; auto.
  - rewrite count_occ_cons_neq by congruence.
    destruct (split_nl s); simpl in *; [discriminate | exact IH].
Qed.

Lemma textOf_firstn z : firstn (index z) (textOf z) = rev (before z).
Proof.
  unfold textOf, index. rewrite <- length_rev.
  rewrite firstn_app, firstn_all, Nat.sub_diag. simpl. apply app_nil_r.
Qed.

Lemma textOf_skipn z : skipn (index z) (textOf z) = after z.
Proof.
  unfold textOf, index. rewrite <- length_rev.
  rewrite skipn_app, skipn_all, Nat.sub_diag. reflexivity.
Qed.

Lemma fencePattern_minLen : minLen (source fencePattern) = 8.
Proof. reflexivity. Qed.

(** The loop of the fenced scanner does not run out of fuel: every match
    takes at least eight characters. *)
Lemma fencedLoop_spec content : forall fuel z acc,
  length (after z) < fuel ->
  fencedLoop fuel content z acc
  = Some (acc ++ flat_map (fencedBlock content) (fenceMatches fuel z)).
Proof.
  induction fuel as [|fuel IH]; intros z acc Hlt; [lia|].
  simpl. destruct (searchFrom fencePattern z) as [[[s e] cs]|] eqn:E.
  - apply searchFrom_sound in E. destruct E as (R1 & _ & R2).
    rewrite fencePattern_minLen in R2.
    apply reach_after in R1. apply reach_after in R2.
    rewrite IH by (simpl; lia). simpl. now rewrite app_assoc.
  - simpl. now rewrite app_nil_r.
Qed.

(** The fenced scanner returns the blocks of the matches, in their order. *)
Lemma extractMarkdownCodeBlocks_matches content :
  fencedLoop (S (length content)) content (mkPos [] content) []
  = Some (extractMarkdownCodeBlocks content)
  /\ extractMarkdownCodeBlocks content
     = flat_map (fencedBlock content) (fencedMatches content).
Proof.
  unfold extractMarkdownCodeBlocks, fencedMatches.
  rewrite fencedLoop_spec by (simpl; lia). auto.
Qed.

Lemma fenceMatches_in : forall fuel z m,
  In m (fenceMatches fuel z) ->
  exists s e cs,
    m = mkResult (s, e, cs) /\ reach 0 z s
    /\ matches false false (source fencePattern) s [] e cs.
Proof.
  induction fuel as [|fuel IH]; intros z m Hin; simpl in Hin; [contradiction|].
  destruct (searchFrom fencePattern z) as [[[s e] cs]|] eqn:E;
    [|contradiction].
  apply searchFrom_sound in E. destruct E as (R1 & M & R2).
  destruct Hin as [Hm | Hin].
  - exists s, e, cs. subst. auto.
  - apply IH in Hin. destruct Hin as (s' & e' & cs' & Em & R' & M').
    exists s', e', cs'. repeat split; auto.
    simpl in R'.
    eapply reach_weaken;
      [|eapply reach_trans; [exact R1 | eapply reach_trans; [exact R2 | exact R']]].
    lia.
Qed.

(** Every match of the fenced scanner lies in the text as an opening fence
    with a possibly empty word, a newline, the code, a newline and a closing
    fence; group 1 is the word if there is one, group 2 the code. *)
Lemma fencedMatches_shape content m :
  In m (fencedMatches content) ->
  exists tag body rest,
    skipn (mindex m) content
    = lit "```" ++ tag ++ NL :: body ++ NL :: lit "```" ++ rest
    /\ forallb isWord tag = true
    /\ capture 1 (mgroups m) = match tag with [] => None | _ => Some tag end
    /\ capture 2 (mgroups m) = Some body.
Proof.
  intros Hin. apply fenceMatches_in in Hin.
  destruct Hin as (s & e & cs & Em & R & M).
  apply reach_textOf in R. unfold textOf in R at 2. simpl in R.
  apply fence_shape in M. destruct M as (tag & body & A & F & C).
  exists tag, body, (after e). subst m. simpl.
  rewrite <- R, textOf_skipn. repeat split; auto.
  - subst cs. simpl. destruct tag; reflexivity.
  - subst cs. reflexivity.
Qed.

(** C6: the fenced scanner returns, match after match, what the matches
    of the fence pattern contribute, and each match contributes by itself
    alone.  A match is a fence of the text: three backticks, a possibly
    empty word, a newline, the code, a newline and three backticks.  It
    contributes nothing when the trimmed code has 20 characters or fewer,
    and one block with the trimmed code otherwise.  When a word follows
    the opening fence, the language of that block is that very word, and
    the block is the same whatever the classifier is: the classifier is
    not consulted.  When no word follows, the language is the answer of
    the classifier on the trimmed code. *)
Theorem fenced_tag_bypasses_classifier (content : str) :
  extractMarkdownCodeBlocks content
  = flat_map (fencedBlock content) (fencedMatches content)
  /\ forall m,
       In m (fencedMatches content) ->
       exists tag body rest,
         skipn (mindex m) content
         = lit "```" ++ tag ++ NL :: body ++ NL :: lit "```" ++ rest
         /\ forallb isWord tag = true
         /\ fencedBlock content m
            = (if Nat.ltb 20 (length (trim body))
               then [CodeBlock.mk
                       (trim body)
                       (match tag with
                        | [] => CodeBlock.detectLanguage (trim body)
                        | _ :: _ => tag
                        end)
                       (lineNumberAt content (mindex m))
                       (CodeBlock.generateHash (trim body))]
               else [])
         /\ (tag <> [] ->
             forall classify : str -> str,
               fencedBlock content m
               = if Nat.ltb 20 (length (trim body))
                 then [CodeBlock.make classify body (Some tag)
                                      (lineNumberAt content (mindex m))]
                 else []).
Proof.
  split; [apply extractMarkdownCodeBlocks_matches|].
  intros m Hm.
  destruct (fencedMatches_shape _ _ Hm) as (tag & body & rest & Sh & F & C1 & C2).
  exists tag, body, rest.
  assert (Hb : fencedBlock content m
               = if Nat.ltb 20 (length (trim body))
                 then [CodeBlock.new body
                         (match tag with [] => None | _ :: _ => Some tag end)
                         (lineNumberAt content (mindex m))]
                 else []).
  { unfold fencedBlock. rewrite C1, C2.
    unfold substring0, lineNumberAt. rewrite split_nl_length.
    destruct (trim body) as [|c t]; [reflexivity|].
    cbn [truthy andb]. destruct tag; reflexivity. }
  split; [exact Sh|]. split; [exact F|]. split.
  - rewrite Hb. destruct (Nat.ltb 20 (length (trim body))); [|reflexivity].
    destruct tag; reflexivity.
  - intros Hne classify. rewrite Hb.
    destruct (Nat.ltb 20 (length (trim body))); [|reflexivity].
    destruct tag; [congruence | reflexivity].
Qed.

Lemma fenced_tag_bypasses_classifier_witness :
  extractMarkdownCodeBlocks sampleDocument
  = flat_map (fencedBlock sampleDocument) (fencedMatches sampleDocument)
  /\ map (fun b => CodeBlock.language b)
         (extractMarkdownCodeBlocks sampleDocument)
     = [lit "python"; lit "javascript"].
Proof.
  split.
  - apply (proj1 (@fenced_tag_bypasses_classifier sampleDocument)).
  - vm_compute. reflexivity.
Defined.

(** ** The language classifier *)

Lemma candidateMatches_existsb entry content :
  existsb (fun pattern => test pattern content) (snd entry) = true
  <-> candidateMatches entry content.
Proof. unfold candidateMatches. apply existsb_exists. Qed.

Lemma detectIn_first content before entry after :
  (forall e, In e before -> ~ candidateMatches e content) ->
  candidateMatches entry content ->
  CodeBlock.detectIn (before ++ entry :: after) content = fst entry.
Proof.
  intros Hnone Hm. induction before as [|[l ps] before IH]; simpl.
  - destruct entry as [lang sigs].
    apply candidateMatches_existsb in Hm. simpl in Hm. rewrite Hm. reflexivity.
  - destruct (existsb (fun pattern => test pattern content) ps) eqn:E.
    + exfalso. apply (Hnone (l, ps)); [now left|].
      apply candidateMatches_existsb. exact E.
    + apply IH. intros e He. apply Hnone. now right.
Qed.

Lemma detectIn_txt content entries :
  Forall (fun e => fst e <> lit "txt") entries ->
  (CodeBlock.detectIn entries content = lit "txt"
   <-> forall e, In e entries -> ~ candidateMatches e content).
Proof.
  induction 1 as [|[l ps] entries Hl _ IH]; simpl.
  - split; [intros _ e [] | reflexivity].
  - destruct (existsb (fun pattern => test pattern content) ps) eqn:E.
    + split.
      * intros ->. exfalso. apply Hl. reflexivity.
      * intros Hnone. exfalso. apply (Hnone (l, ps)); [now left|].
        apply candidateMatches_existsb. exact E.
    + rewrite IH. split.
      * intros Hnone e [<- | He]; [|now apply Hnone].
        intros Hm. apply candidateMatches_existsb in Hm. simpl in Hm.
        congruence.
      * intros Hnone e He. apply Hnone. now right.
Qed.

Lemma patterns_labels :
  Forall (fun e => fst e <> lit "txt") CodeBlock.patterns.
Proof.
  unfold CodeBlock.patterns.
  repeat (constructor; [simpl; vm_compute; discriminate|]). constructor.
Qed.

(** With the table [patterns], in which the malformed literal of [bash]
    is read with its slash escaped: the classifier goes through its
    candidates in the order python, javascript, java, c, cpp, html, css,
    sql, bash, dockerfile, json, yaml, xml, and answers with the label of
    the first candidate one of whose signatures matches the content; it
    answers [txt] exactly when no signature of any candidate matches. *)
Lemma detectLanguage_first_candidate (content : str) :
  map fst CodeBlock.patterns
  = [ lit "python"; lit "javascript"; lit "java"; lit "c"; lit "cpp";
      lit "html"; lit "css"; lit "sql"; lit "bash"; lit "dockerfile";
      lit "json"; lit "yaml"; lit "xml" ]
  /\ (forall before entry after,
        CodeBlock.patterns = before ++ entry :: after ->
        (forall e, In e before -> ~ candidateMatches e content) ->
        candidateMatches entry content ->
        CodeBlock.detectLanguage content = fst entry)
  /\ (CodeBlock.detectLanguage content = lit "txt"
      <-> forall e, In e CodeBlock.patterns -> ~ candidateMatches e content).
Proof.
  split; [reflexivity|]. split.
  - intros before entry after Hp Hnone Hm.
    unfold CodeBlock.detectLanguage. rewrite Hp.
    apply detectIn_first; assumption.
  - apply detectIn_txt, patterns_labels.
Qed.

(** C3 fails on the script as it is written.  The first signature of
    [bash] is the text [/#!/bin\/bash/]: the literal that begins there ends
    at the second slash, with the body [#!] and the flags [bin], which are
    not flags; it is the only one of the 47 texts of the table that is not
    a regular expression literal.  The script is rejected for it, so the
    classifier gives no label for any content.  The shell script
    [shebangScript] is a content for which the claim expects [bash]: with
    the slash escaped the signature matches and [bash] is the label, and
    no other signature of the table matches it. *)
Theorem bash_signature_is_not_a_literal :
  scanLiteral shebangLiteral = Some (lit "#!", lit "bin", lit "\/bash/")
  /\ validFlags (lit "bin") = false
  /\ length (flat_map snd CodeBlock.literals) = 47
  /\ CodeBlock.malformedLiterals = [shebangLiteral]
  /\ (forall content, CodeBlock.detectLanguageAsWritten content = None)
  /\ CodeBlock.detectLanguage shebangScript = lit "bash"
  /\ CodeBlock.detectIn patternsWithoutShebang shebangScript = lit "txt".
Proof.
  assert (M : CodeBlock.malformedLiterals = [shebangLiteral])
    by (vm_compute; reflexivity).
  split; [vm_compute; reflexivity|].
  split; [reflexivity|].
  split; [reflexivity|].
  split; [exact M|].
  split.
  - intros content. unfold CodeBlock.detectLanguageAsWritten.
    rewrite M. reflexivity.
  - split; vm_compute; reflexivity.
Qed.

(** ** Trimming *)

Lemma dropWhile_nil p s : dropWhile p s = [] <-> forallb p s = true.
Proof.
  induction s as [|c s IH]; simpl; [tauto|].
  destruct (p c); simpl; [exact IH|]. split; discriminate.
Qed.

Lemma dropWhile_head p s c s' : dropWhile p s = c :: s' -> p c = false.
Proof.
  induction s as [|x s IH]; simpl; [discriminate|].
  destruct (p x) eqn:E; [exact IH|]. intros H. inversion H; subst. exact E.
Qed.

Lemma forallb_rev (p : char -> bool) s : forallb p (rev s) = forallb p s.
Proof.
  induction s as [|c s IH]; [reflexivity|].
  simpl. rewrite forallb_app, IH. simpl. rewrite andb_true_r. apply andb_comm.
Qed.

(** A text trims to nothing exactly when it is made of white space. *)
Lemma trim_nil s : trim s = [] <-> forallb isWhiteSpace s = true.
Proof.
  unfold trim, trimEnd, trimStart. split.
  - intros H. apply (f_equal (@rev char)) in H. rewrite rev_involutive in H.
    simpl in H. apply dropWhile_nil in H. rewrite forallb_rev in H.
    destruct (dropWhile isWhiteSpace s) as [|c s'] eqn:E.
    + apply dropWhile_nil. exact E.
    + apply dropWhile_head in E. simpl in H. rewrite E in H. discriminate.
  - intros H. apply dropWhile_nil in H. rewrite H. reflexivity.
Qed.

Lemma truthy_false (s : str) : truthy s = false <-> s = [].
Proof. destruct s; simpl; split; congruence. Qed.

Lemma join_nl_blank run :
  existsb (fun l => truthy (trim l)) run = false ->
  trim (join_nl run) = [].
Proof.
  intros H. apply trim_nil.
  induction run as [|l run IH]; [reflexivity|].
  simpl in H. apply orb_false_elim in H. destruct H as [Hl Hr].
  apply truthy_false, trim_nil in Hl. specialize (IH Hr).
  destruct run as [|l' run']; [exact Hl|].
  change (join_nl (l :: l' :: run')) with (l ++ NL :: join_nl (l' :: run')).
  rewrite forallb_app, Hl. simpl. exact IH.
Qed.

(** ** The indented scanner *)

Lemma flat_map_nil (A B : Type) (f : A -> list B) (l : list A) :
  (forall x, In x l -> f x = []) -> flat_map f l = [].
Proof.
  induction l as [|x l IH]; intros H; simpl; [reflexivity|].
  rewrite (H x) by now left. apply IH. intros y Hy. apply H. now right.
Qed.

Lemma count_fold (A : Type) (f : A -> bool) (l : list A) : forall n,
  fold_left (fun matches x => if f x then S matches else matches) l n
  = n + length (filter f l).
Proof.
  induction l as [|x l IH]; intros n; simpl; [lia|].
  rewrite IH. destruct (f x); simpl; lia.
Qed.

Lemma countMatches_signatures content :
  countMatches content = length (matchingSignatures content).
Proof. unfold countMatches. rewrite count_fold. reflexivity. Qed.

(** What becomes of a run that has ended: at most one block, and one
    exactly when the run has more than 3 lines, its trimmed text more than
    50 characters, and at least 2 signatures of [looksLikeCode] match it. *)
Lemma flush_spec run start :
  let blockContent := trim (join_nl run) in
  (3 < length run /\ 50 < length blockContent
   /\ 2 <= length (matchingSignatures blockContent)
   -> flush run start = [CodeBlock.new blockContent None start])
  /\ (flush run start <> []
      -> 3 < length run /\ 50 < length blockContent
         /\ 2 <= length (matchingSignatures blockContent)).
Proof.
  intros blockContent. unfold flush. fold blockContent.
  unfold looksLikeCode. rewrite countMatches_signatures.
  split.
  - intros (H3 & H50 & H2).
    destruct (existsb (fun l => truthy (trim l)) run) eqn:E.
    + apply Nat.ltb_lt in H3, H50. apply Nat.leb_le in H2.
      rewrite H3, H50, H2.
      replace (Nat.ltb 0 (length run)) with true
        by (symmetry; apply Nat.ltb_lt; apply Nat.ltb_lt in H3; lia).
      destruct blockContent; [apply Nat.ltb_lt in H50; simpl in H50; lia|].
      reflexivity.
    + apply join_nl_blank in E. fold blockContent in E. rewrite E in H50.
      simpl in H50. lia.
  - assert (Nope : forall P : Prop, (@nil CodeBlock.t) <> [] -> P)
      by (intros P Hn; exfalso; apply Hn; reflexivity).
    destruct (Nat.ltb 0 (length run)
              && existsb (fun l => truthy (trim l)) run); [|exact (Nope _)].
    destruct (truthy blockContent); cbn [andb]; [|exact (Nope _)].
    destruct (Nat.ltb_spec 3 (length run)); cbn [andb]; [|exact (Nope _)].
    destruct (Nat.ltb_spec 50 (length blockContent)); cbn [andb]; [|exact (Nope _)].
    destruct (Nat.leb_spec 2 (length (matchingSignatures blockContent)));
      [|exact (Nope _)].
    auto.
Qed.

Lemma continuesRun_current line st :
  continuesRun line st
  = continuesRun line (mkScan [] (currentBlock st) (currentStart st)).
Proof. reflexivity. Qed.

(** The scanner flushes the runs one after the other. *)
Lemma scanLoop_runs lines : forall i st,
  codeBlocks (scanLoop lines i st)
  ++ flush (currentBlock (scanLoop lines i st))
           (currentStart (scanLoop lines i st))
  = codeBlocks st
    ++ flat_map flushRun (runsFrom lines i (currentBlock st) (currentStart st)).
Proof.
  induction lines as [|line rest IH]; intros i st; simpl.
  - unfold flushRun. simpl. now rewrite app_nil_r.
  - rewrite IH. unfold scanLine. rewrite <- continuesRun_current.
    destruct (continuesRun line st); simpl.
    + reflexivity.
    + unfold flushRun at 2. simpl. now rewrite app_assoc.
Qed.

Lemma extractIndentedCodeBlocks_runs content :
  extractIndentedCodeBlocks content = flat_map flushRun (indentedRuns content).
Proof.
  unfold extractIndentedCodeBlocks, indentedRuns.
  cbv zeta. rewrite scanLoop_runs. reflexivity.
Qed.

(** A run is no longer than the lines it is made of. *)
Lemma runsFrom_length lines : forall i current start run,
  In run (runsFrom lines i current start) ->
  length (snd run) <= length current + length lines.
Proof.
  induction lines as [|line rest IH]; intros i current start run Hin;
    simpl in Hin.
  - destruct Hin as [<- | []]. simpl. lia.
  - destruct (continuesRun line (mkScan [] current start)).
    + apply IH in Hin. rewrite length_app in Hin. simpl in *. lia.
    + destruct Hin as [<- | Hin]; [simpl; lia|].
      apply IH in Hin. simpl in *. lia.
Qed.

(** C8: the indented scanner returns the blocks of the runs it ends, and
    a run gives a block, one, if and only if it has more than 3 lines, its
    trimmed text has more than 50 characters and at least 2 of the
    signatures of [looksLikeCode] match that text.  In particular a text
    of at most 3 lines gives no block, nor does a run whose trimmed text
    has 40 characters, such as the three indented lines of
    [shortSnippet]. *)
Theorem indented_run_kept_iff (content : str) :
  extractIndentedCodeBlocks content = flat_map flushRun (indentedRuns content)
  /\ (forall run start,
        let blockContent := trim (join_nl run) in
        (flush run start = [] \/
         flush run start = [CodeBlock.new blockContent None start])
        /\ (flush run start <> []
            <-> 3 < length run /\ 50 < length blockContent
                /\ 2 <= length (matchingSignatures blockContent)))
  /\ (length (split_nl content) <= 3 -> extractIndentedCodeBlocks content = [])
  /\ (length (split_nl shortSnippet) = 3
      /\ length (trim shortSnippet) = 40
      /\ extractIndentedCodeBlocks shortSnippet = []).
Proof.
  split; [apply extractIndentedCodeBlocks_runs|]. split; [|split].
  - intros run start blockContent.
    destruct (flush_spec run start) as [Hyes Hno]. fold blockContent in Hyes, Hno.
    split.
    + destruct (flush run start) as [|b bs] eqn:E; [now left|].
      right. apply Hyes. apply Hno. discriminate.
    + split; [exact Hno|]. intros H. rewrite (Hyes H). discriminate.
  - intros Hlen. rewrite extractIndentedCodeBlocks_runs.
    apply flat_map_nil.
    intros run Hin. apply runsFrom_length in Hin. simpl in Hin.
    destruct run as [start run]. unfold flushRun. simpl in *.
    destruct (flush_spec run start) as [_ Hno].
    destruct (flush run start) eqn:E; [reflexivity|].
    assert (3 < length run) by (apply Hno; discriminate). lia.
  - vm_compute. auto.
Qed.

(** ** De-duplication *)

Lemma startsWith_spec p : forall s,
  startsWith p s = true <-> exists post, s = p ++ post.
Proof.
  induction p as [|x p IH]; intros s; simpl.
  - split; [intros _; exists s; reflexivity | reflexivity].
  - destruct s as [|y s].
    + split; [discriminate | intros (post & H); discriminate].
    + unfold char_eqb. rewrite andb_true_iff, N.eqb_eq, IH. split.
      * intros (-> & post & ->). exists post. reflexivity.
      * intros (post & H). inversion H; subst. split; [reflexivity|].
        exists post. reflexivity.
Qed.

Lemma includes_spec p : forall s, includes s p = true <-> occursIn p s.
Proof.
  unfold occursIn. induction s as [|c s IH].
  - simpl. rewrite orb_false_r, startsWith_spec. split.
    + intros (post & H). exists [], post. exact H.
    + intros (pre & post & H). destruct pre as [|x pre]; [|discriminate].
      exists post. exact H.
  - change (includes (c :: s) p) with (startsWith p (c :: s) || includes s p).
    rewrite orb_true_iff, startsWith_spec, IH. split.
    + intros [(post & H) | (pre & post & H)].
      * exists [], post. exact H.
      * exists (c :: pre), post. rewrite H. reflexivity.
    + intros (pre & post & H). destruct pre as [|x pre].
      * left. exists post. exact H.
      * right. inversion H; subst. exists pre, post. reflexivity.
Qed.

Lemma overlaps_spec b f : overlaps b f = true <-> duplicateOf b f.
Proof.
  unfold overlaps, duplicateOf, absDiff, substring0.
  rewrite andb_true_iff, Nat.ltb_lt, includes_spec.
  split; intros [H1 H2]; (split; [lia | exact H2]).
Qed.

Lemma fold_addIfNew indented : forall known,
  fold_left addIfNew indented known = known ++ retained known indented.
Proof.
  induction indented as [|b rest IH]; intros known; simpl.
  - now rewrite app_nil_r.
  - rewrite IH. unfold addIfNew.
    destruct (existsb (overlaps b) known); simpl; [reflexivity|].
    now rewrite <- app_assoc.
Qed.

Lemma extractCodeBlocks_retained content :
  extractCodeBlocks content
  = extractMarkdownCodeBlocks content
    ++ retained (extractMarkdownCodeBlocks content)
                (extractIndentedCodeBlocks content).
Proof. unfold extractCodeBlocks. cbv zeta. simpl app. apply fold_addIfNew. Qed.

Lemma retained_incl indented : forall known b,
  In b (retained known indented) -> In b indented.
Proof.
  induction indented as [|x rest IH]; intros known b H; simpl in *; [exact H|].
  destruct (existsb (overlaps x) known).
  - right. eapply IH, H.
  - destruct H as [-> | H]; [now left | right; eapply IH, H].
Qed.

Lemma retained_no_overlap indented : forall known b f,
  In b (retained known indented) -> In f known -> overlaps b f = false.
Proof.
  induction indented as [|x rest IH]; intros known b f Hb Hf; simpl in Hb;
    [contradiction|].
  destruct (existsb (overlaps x) known) eqn:E.
  - eapply IH; eassumption.
  - destruct Hb as [<- | Hb].
    + destruct (overlaps x f) eqn:O; [|reflexivity].
      assert (existsb (overlaps x) known = true)
        by (apply existsb_exists; exists f; auto).
      congruence.
    + eapply IH; [exact Hb|]. apply in_or_app. now left.
Qed.

(** C4: the extractor returns the fenced blocks followed by indented
    blocks none of which is a duplicate of a fenced block of the output:
    no retained indented block B and fenced block F have start lines less
    than 5 apart with the first 100 characters of B occurring in F; an
    indented block that is such a duplicate is not in the output. *)
Theorem no_indented_duplicate_of_fenced (content : str) :
  let fenced := extractMarkdownCodeBlocks content in
  let indented := extractIndentedCodeBlocks content in
  extractCodeBlocks content = fenced ++ retained fenced indented
  /\ (forall B, In B (retained fenced indented) -> In B indented)
  /\ (forall B F,
        In B (retained fenced indented) -> In F fenced -> ~ duplicateOf B F)
  /\ (forall B F,
        In B indented -> In F fenced -> duplicateOf B F ->
        ~ In B (retained fenced indented)).
Proof.
  intros fenced indented. split; [apply extractCodeBlocks_retained|].
  split; [intros B; apply retained_incl|].
  assert (No : forall B F,
            In B (retained fenced indented) -> In F fenced -> ~ duplicateOf B F).
  { intros B F HB HF Hdup. apply overlaps_spec in Hdup.
    rewrite (retained_no_overlap _ _ _ _ HB HF) in Hdup. discriminate. }
  split; [exact No|].
  intros B F _ HF Hdup HB. exact (No B F HB HF Hdup).
Qed.

(** The blocks of the indented scanner start at least five lines apart: a
    block needs a run of more than 3 lines, and a line that is not indented
    separates two runs. *)
Lemma flush_cases run start :
  flush run start = []
  \/ (3 < length run
      /\ flush run start = [CodeBlock.new (trim (join_nl run)) None start]).
Proof.
  destruct (flush_spec run start) as [Hyes Hno].
  destruct (flush run start) eqn:E; [now left|].
  right. assert (H : 3 < length run /\ 50 < length (trim (join_nl run))
                     /\ 2 <= length (matchingSignatures (trim (join_nl run))))
    by (apply Hno; discriminate).
  split; [tauto | apply Hyes, H].
Qed.

Lemma runsFrom_spaced lines : forall i current start,
  (current <> [] -> start + length current = i) ->
  let out := flat_map flushRun (runsFrom lines i current start) in
  StronglySorted spaced out
  /\ Forall (fun b => (if Nat.eqb (length current) 0 then i else start)
                      <= CodeBlock.startLine b) out.
Proof.
  induction lines as [|line rest IH]; intros i current start Inv; simpl.
  - unfold flushRun. simpl. rewrite app_nil_r.
    destruct (flush_cases current start) as [E | [H3 E]]; rewrite E.
    + split; constructor.
    + split; [repeat constructor|]. constructor; [|constructor].
      simpl. destruct current; [simpl in H3; lia|]. simpl. lia.
  - destruct (continuesRun line (mkScan [] current start)).
    + destruct (IH (S i) (current ++ [line])
                  (if Nat.eqb (length current) 0 then i else start))
        as [S1 F1].
      { intros _. rewrite length_app. simpl.
        destruct current; simpl; [lia|].
        rewrite <- Inv by discriminate. simpl. lia. }
      split; [exact S1|].
      rewrite length_app in F1. simpl in F1.
      replace (Nat.eqb (length current + 1) 0) with false in F1
        by (symmetry; apply Nat.eqb_neq; lia).
      exact F1.
    + destruct (IH (S i) [] start) as [S1 F1]; [congruence|].
      simpl in F1.
      change (flat_map flushRun ((start, current) :: runsFrom rest (S i) [] start))
        with (flush current start
              ++ flat_map flushRun (runsFrom rest (S i) [] start)).
      destruct (flush_cases current start) as [E | [H3 E]]; rewrite E; simpl.
      * split; [exact S1|].
        eapply Forall_impl; [|exact F1]. simpl. intros b Hb.
        destruct current; simpl.
        -- lia.
        -- rewrite <- Inv in Hb by discriminate. simpl in Hb. lia.
      * assert (Hi : start + length current = i)
          by (apply Inv; destruct current; [simpl in H3; lia | discriminate]).
        split.
        -- constructor; [exact S1|].
           eapply Forall_impl; [|exact F1]. unfold spaced. simpl. intros b Hb.
           lia.
        -- constructor.
           ++ simpl. destruct current; [simpl in H3; lia|]. simpl. lia.
           ++ eapply Forall_impl; [|exact F1]. simpl. intros b Hb.
              destruct current; simpl; lia.
Qed.

Lemma extractIndentedCodeBlocks_spaced content :
  StronglySorted spaced (extractIndentedCodeBlocks content).
Proof.
  rewrite extractIndentedCodeBlocks_runs. unfold indentedRuns.
  apply (@runsFrom_spaced (split_nl content) 0 [] 0). congruence.
Qed.

Lemma spaced_no_overlap e b : spaced e b -> overlaps b e = false.
Proof.
  unfold spaced, overlaps, absDiff. intros H.
  replace (Nat.ltb _ 5) with false; [reflexivity|].
  symmetry. apply Nat.ltb_ge. lia.
Qed.

(** Since indented blocks are five lines apart, an indented block is only
    ever dropped for a fenced block. *)
Lemma retained_filter fenced : forall indented extra,
  StronglySorted spaced indented ->
  (forall e b, In e extra -> In b indented -> spaced e b) ->
  retained (fenced ++ extra) indented
  = filter (fun b => negb (existsb (overlaps b) fenced)) indented.
Proof.
  induction indented as [|b rest IH]; intros extra Hs Hx; [reflexivity|].
  apply StronglySorted_inv in Hs. destruct Hs as [Hs Hb].
  simpl. rewrite existsb_app.
  replace (existsb (overlaps b) extra) with false.
  - rewrite orb_false_r.
    destruct (existsb (overlaps b) fenced); simpl.
    + apply IH; [exact Hs|]. intros e b' He Hb'. apply Hx; [exact He | now right].
    + f_equal. rewrite <- app_assoc. apply IH; [exact Hs|].
      intros e b' He Hb'. apply in_app_or in He. destruct He as [He | [<- | []]].
      * apply Hx; [exact He | now right].
      * rewrite Forall_forall in Hb. apply Hb, Hb'.
  - symmetry. apply not_true_is_false. intros H.
    apply existsb_exists in H. destruct H as (e & He & Ho).
    rewrite (spaced_no_overlap (Hx e b He (or_introl eq_refl))) in Ho.
    discriminate.
Qed.

(** The matches of the fenced scanner come in the order of the text. *)
Lemma fenceMatches_sorted : forall fuel z,
  StronglySorted (fun a b => mindex a < mindex b) (fenceMatches fuel z)
  /\ Forall (fun m => index z <= mindex m) (fenceMatches fuel z).
Proof.
  induction fuel as [|fuel IH]; intros z; simpl; [split; constructor|].
  destruct (searchFrom fencePattern z) as [[[s e] cs]|] eqn:E;
    [|split; constructor].
  apply searchFrom_sound in E. destruct E as (R1 & _ & R2).
  rewrite fencePattern_minLen in R2.
  apply reach_index in R1. apply reach_index in R2.
  destruct (IH e) as [S1 F1]. simpl. split.
  - constructor; [exact S1|].
    eapply Forall_impl; [|exact F1]. simpl. intros m Hm. lia.
  - constructor; [simpl; lia|].
    eapply Forall_impl; [|exact F1]. simpl. intros m Hm. lia.
Qed.

Lemma spaced_increasing l :
  StronglySorted spaced l ->
  StronglySorted (fun a b => CodeBlock.startLine a < CodeBlock.startLine b) l.
Proof.
  induction 1; constructor; auto.
  eapply Forall_impl; [|eassumption]. unfold spaced. intros; lia.
Qed.

(** C5: the extractor returns the blocks of the fenced scanner, in the
    order of their fences in the text, followed by the blocks of the
    indented scanner that are not duplicates of a fenced block, in the order
    of their lines in the text; all fenced blocks come before all indented
    ones, wherever they stand in the text. *)
Theorem fenced_then_retained_indented (content : str) :
  let fenced := extractMarkdownCodeBlocks content in
  let indented := extractIndentedCodeBlocks content in
  let kept := filter (fun b => negb (existsb (overlaps b) fenced)) indented in
  extractCodeBlocks content = fenced ++ kept
  /\ (forall B, In B kept
                <-> In B indented /\ forall F, In F fenced -> ~ duplicateOf B F)
  /\ fenced = flat_map (fencedBlock content) (fencedMatches content)
  /\ StronglySorted (fun a b => mindex a < mindex b) (fencedMatches content)
  /\ StronglySorted
       (fun a b => CodeBlock.startLine a < CodeBlock.startLine b) indented
  /\ (forall i j F I,
        nth_error (extractCodeBlocks content) i = Some F -> In F fenced ->
        i < length fenced ->
        nth_error (extractCodeBlocks content) j = Some I ->
        length fenced <= j ->
        i < j /\ In I kept).
Proof.
  intros fenced indented kept.
  assert (Hout : extractCodeBlocks content = fenced ++ kept).
  { rewrite extractCodeBlocks_retained. fold fenced indented. f_equal.
    rewrite <- (app_nil_r fenced) at 1.
    apply retained_filter.
    - apply extractIndentedCodeBlocks_spaced.
    - intros e b []. }
  split; [exact Hout|]. split; [|split; [|split; [|split]]].
  - intros B. unfold kept. rewrite filter_In, negb_true_iff. split.
    + intros [HB Hn]. split; [exact HB|]. intros F HF Hd.
      apply overlaps_spec in Hd.
      assert (existsb (overlaps B) fenced = true)
        by (apply existsb_exists; exists F; auto).
      congruence.
    + intros [HB Hn]. split; [exact HB|].
      apply not_true_is_false. intros H. apply existsb_exists in H.
      destruct H as (F & HF & Ho). apply (Hn F HF), overlaps_spec, Ho.
  - apply extractMarkdownCodeBlocks_matches.
  - apply fenceMatches_sorted.
  - apply spaced_increasing, extractIndentedCodeBlocks_spaced.
  - intros i j F I _ _ Hi HI Hj. split; [lia|].
    rewrite Hout in HI. rewrite nth_error_app2 in HI by exact Hj.
    eapply nth_error_In, HI.
Qed.

(** An indented run that stands before a fenced block in the text comes
    after it in the output. *)
Example indented_first_comes_last :
  map CodeBlock.language (extractCodeBlocks indentedFirst)
  = [lit "sql"; lit "txt"]
  /\ map CodeBlock.startLine (extractCodeBlocks indentedFirst) = [7; 0].
Proof. vm_compute. split; reflexivity. Qed.

(** ** Start lines *)

(** The start line of a block of the fenced scanner is the 1-based number
    of the line on which its opening fence stands. *)
Lemma fenced_startLine content b :
  In b (extractMarkdownCodeBlocks content) ->
  exists m,
    In m (fencedMatches content)
    /\ CodeBlock.startLine b = lineNumberAt content (mindex m).
Proof.
  intros Hb.
  rewrite (proj2 (extractMarkdownCodeBlocks_matches content)) in Hb.
  apply in_flat_map in Hb. destruct Hb as (m & Hm & Hb).
  exists m. split; [exact Hm|].
  unfold fencedBlock in Hb.
  destruct (truthy _ && _); [|contradiction].
  destruct Hb as [<- | []]. simpl.
  unfold substring0, lineNumberAt. apply split_nl_length.
Qed.

(** A fence on the first line gives the start line 1. *)
Lemma fenced_startLine_first_line content m :
  ~ In NL (firstn (mindex m) content) ->
  lineNumberAt content (mindex m) = 1.
Proof.
  intros H. unfold lineNumberAt. f_equal. apply count_occ_not_In. exact H.
Qed.

(** The lines of a run are consecutive lines of the text, from the index
    kept with the run. *)
Lemma runsFrom_lines lines : forall pre i current start run,
  length pre = i ->
  (current <> [] -> start + length current = i /\ skipn start pre = current) ->
  In run (runsFrom lines i current start) ->
  snd run <> [] ->
  firstn (length (snd run)) (skipn (fst run) (pre ++ lines)) = snd run.
Proof.
  induction lines as [|line rest IH]; intros pre i current start run Hp Inv Hin Hne;
    simpl in Hin.
  - destruct Hin as [<- | []]. simpl in *. rewrite app_nil_r.
    destruct (Inv Hne) as [_ ->]. apply firstn_all.
  - assert (Here : current <> [] ->
              firstn (length current) (skipn start (pre ++ line :: rest))
              = current).
    { intros Hc. destruct (Inv Hc) as [Hi Hs].
      rewrite skipn_app, Hs.
      replace (start - length pre) with 0 by lia. simpl.
      rewrite firstn_app, firstn_all, Nat.sub_diag. simpl. apply app_nil_r. }
    destruct (continuesRun line (mkScan [] current start)).
    + replace (pre ++ line :: rest) with ((pre ++ [line]) ++ rest)
        by (rewrite <- app_assoc; reflexivity).
      eapply IH; [| |exact Hin|exact Hne].
      * rewrite length_app. simpl. lia.
      * intros _. rewrite length_app. simpl.
        destruct current as [|l0 current'].
        -- simpl. split; [lia|].
           rewrite skipn_app, skipn_all2 by lia.
           replace (i - length pre) with 0 by lia. reflexivity.
        -- destruct Inv as [Hi Hs]; [discriminate|]. simpl Nat.eqb. cbv iota.
           split; [simpl in *; lia|].
           rewrite skipn_app, Hs.
           replace (start - length pre) with 0 by (simpl in Hi; lia).
           reflexivity.
    + destruct Hin as [<- | Hin].
      * simpl in *. apply Here, Hne.
      * replace (pre ++ line :: rest) with ((pre ++ [line]) ++ rest)
          by (rewrite <- app_assoc; reflexivity).
        eapply IH; [| |exact Hin|exact Hne].
        -- rewrite length_app. simpl. lia.
        -- congruence.
Qed.

(** The start line of a block of the indented scanner is the 0-based index
    of the first line of its run, one less than the number of that line. *)
Lemma indented_startLine content b :
  In b (extractIndentedCodeBlocks content) ->
  exists start run,
    In (start, run) (indentedRuns content)
    /\ 3 < length run
    /\ firstn (length run) (skipn start (split_nl content)) = run
    /\ b = CodeBlock.new (trim (join_nl run)) None start
    /\ CodeBlock.startLine b = start.
Proof.
  intros Hb. rewrite extractIndentedCodeBlocks_runs in Hb.
  apply in_flat_map in Hb. destruct Hb as ([start run] & Hr & Hb).
  unfold flushRun in Hb. simpl in Hb.
  destruct (flush_cases run start) as [E | [H3 E]]; rewrite E in Hb;
    [contradiction|].
  destruct Hb as [<- | []].
  exists start, run. repeat split; auto.
  apply (@runsFrom_lines (split_nl content) [] 0 [] 0 (start, run));
    auto; try congruence.
  simpl. destruct run; [simpl in H3; lia | discriminate].
Qed.

(** C2 fails for the indented scanner: the text [indentedFirst] begins
    with an indented run on its first line (line 1); the block of that run
    has the start line 0, while the fenced block of the same text, whose
    fence stands on line 7, has the start line 7. *)
Theorem indented_startLine_is_zero_based :
  firstn 4 (split_nl indentedFirst)
  = [ lit "    total = compute(items)"; lit "    if (total > limit) {";
      lit "        report(total);"; lit "    }" ]
  /\ indentedRuns indentedFirst
     = [ (0, firstn 4 (split_nl indentedFirst)); (0, []); (0, []); (0, []);
         (0, []); (0, []); (0, []) ]
  /\ map CodeBlock.startLine (extractIndentedCodeBlocks indentedFirst) = [0]
  /\ map CodeBlock.startLine (extractMarkdownCodeBlocks indentedFirst) = [7]
  /\ nth_error (split_nl indentedFirst) 6 = Some (lit "```sql").
Proof. vm_compute. repeat split; reflexivity. Qed.

(** ** Stars of classes, searches and replacements *)

Lemma search_unfold icase multi r bef aft :
  search icase multi r bef aft
  = match matcher icase multi r (mkPos bef aft) [] accept with
    | Some (e, cs) => Some (mkPos bef aft, e, cs)
    | None =>
        match aft with
        | [] => None
        | x :: xs => search icase multi r (x :: bef) xs
        end
    end.
Proof. destruct aft; reflexivity. Qed.

Section ClassRuns.

Variables icase multi : bool.
Variable p : char -> bool.

Lemma takeWhile_dropWhile s : s = takeWhile p s ++ dropWhile p s.
Proof.
  induction s as [|c s IH]; simpl; [reflexivity|].
  destruct (p c); simpl; [now rewrite <- IH | reflexivity].
Qed.

Lemma takeWhile_all s : forallb p (takeWhile p s) = true.
Proof.
  induction s as [|c s IH]; simpl; [reflexivity|].
  destruct (p c) eqn:E; simpl; [now rewrite E | reflexivity].
Qed.

Lemma dropWhile_stops s : stops p (dropWhile p s).
Proof.
  induction s as [|c s IH]; simpl; [exact I|].
  destruct (p c) eqn:E; simpl; [exact IH | exact E].
Qed.

(** A greedy star of a class runs over the whole run of characters of the
    class and hands over to the continuation there, if it succeeds there. *)
Lemma starLoop_class_greedy k cs res : forall run n bef rest,
  forallb p run = true ->
  stops p rest ->
  length (run ++ rest) < n ->
  k (mkPos (rev run ++ bef) rest) cs = Some res ->
  starLoop (matcher icase multi (Class p)) true k n (mkPos bef (run ++ rest)) cs
  = Some res.
Proof.
  set (body := matcher icase multi (Class p)).
  assert (Bnil : forall bef cs' k', body (mkPos bef []) cs' k' = None)
    by reflexivity.
  assert (Bcons : forall bef x xs cs' k',
            body (mkPos bef (x :: xs)) cs' k'
            = if p x then k' (mkPos (x :: bef) xs) cs' else None)
    by reflexivity.
  clearbody body.
  induction run as [|x run IH]; intros n bef rest Hp Hrest Hn Hk;
    (destruct n as [|n]; [simpl in Hn; lia|]).
  - simpl in Hk. cbn [starLoop app].
    destruct rest as [|y ys].
    + rewrite Bnil. exact Hk.
    + simpl in Hrest. rewrite Bcons, Hrest. exact Hk.
  - simpl in Hp. apply andb_prop in Hp. destruct Hp as [Hx Hp].
    cbn [starLoop app]. rewrite Bcons, Hx. cbn [after].
    replace (Nat.ltb (length (run ++ rest)) (length (x :: run ++ rest)))
      with true by (symmetry; apply Nat.ltb_lt; simpl; lia).
    rewrite (IH n (x :: bef) rest Hp Hrest); [reflexivity | simpl in Hn; lia |].
    simpl in Hk. rewrite <- app_assoc in Hk. exact Hk.
Qed.

End ClassRuns.

Section ClassSearch.

Variable p : char -> bool.

Lemma matcher_plus_class_accept bef x xs :
  p x = true ->
  matcher false false (Plus (Class p)) (mkPos bef (x :: xs)) [] accept
  = Some (mkPos (rev (takeWhile p xs) ++ x :: bef) (dropWhile p xs), []).
Proof.
  intros Hx. unfold Plus. cbn [matcher after before]. rewrite Hx.
  pose proof (@starLoop_class_greedy false false p accept []
                (mkPos (rev (takeWhile p xs) ++ x :: bef) (dropWhile p xs), [])
                (takeWhile p xs) (S (length xs)) (x :: bef) (dropWhile p xs)
                (takeWhile_all p xs) (dropWhile_stops p xs)) as G.
  rewrite <- takeWhile_dropWhile in G. apply G; [lia | reflexivity].
Qed.

Lemma matcher_plus_class_stops bef aft :
  stops p aft ->
  matcher false false (Plus (Class p)) (mkPos bef aft) [] accept = None.
Proof.
  intros H. unfold Plus. cbn [matcher after].
  destruct aft as [|y ys]; [reflexivity|]. simpl in H. now rewrite H.
Qed.

Lemma outside_head l x xs : dropWhile (outside p) l = x :: xs -> p x = true.
Proof.
  intros H. apply dropWhile_head in H. unfold outside in H.
  now apply negb_false_iff in H.
Qed.

(** The leftmost match of [[p]+]: after the characters outside the class,
    the whole run of characters of the class. *)
Lemma search_plus_class : forall aft bef,
  search false false (Plus (Class p)) bef aft
  = match dropWhile (outside p) aft with
    | [] => None
    | x :: xs =>
        Some (mkPos (rev (takeWhile (outside p) aft) ++ bef) (x :: xs),
              mkPos (rev (takeWhile p xs) ++ x :: rev (takeWhile (outside p) aft) ++ bef)
                    (dropWhile p xs),
              [])
    end.
Proof.
  induction aft as [|c aft IH]; intros bef; rewrite search_unfold.
  - rewrite matcher_plus_class_stops by exact I. reflexivity.
  - assert (N : (outside p) c = negb (p c)) by reflexivity.
    cbn [dropWhile takeWhile]. rewrite N. destruct (p c) eqn:E; cbn [negb].
    + rewrite matcher_plus_class_accept by exact E. reflexivity.
    + rewrite matcher_plus_class_stops by exact E. rewrite IH.
      destruct (dropWhile (outside p) aft); [reflexivity|].
      simpl rev. rewrite <- !app_assoc. reflexivity.
Qed.

(** The leftmost match of [[p]]: the first character of the class. *)
Lemma search_class : forall aft bef,
  search false false (Class p) bef aft
  = match dropWhile (outside p) aft with
    | [] => None
    | x :: xs =>
        Some (mkPos (rev (takeWhile (outside p) aft) ++ bef) (x :: xs),
              mkPos (x :: rev (takeWhile (outside p) aft) ++ bef) xs,
              [])
    end.
Proof.
  induction aft as [|c aft IH]; intros bef; rewrite search_unfold.
  - reflexivity.
  - assert (N : (outside p) c = negb (p c)) by reflexivity.
    cbn [dropWhile takeWhile]. rewrite N.
    cbn [matcher after before]. destruct (p c) eqn:E; cbn [negb].
    + reflexivity.
    + rewrite IH.
      destruct (dropWhile (outside p) aft); [reflexivity|].
      simpl rev. rewrite <- !app_assoc. reflexivity.
Qed.

Lemma flat_map_outside (repl : str) l :
  forallb (outside p) l = true ->
  flat_map (fun c => if p c then repl else [c]) l = l.
Proof.
  induction l as [|c l IH]; simpl; [reflexivity|].
  intros H. apply andb_prop in H. destruct H as [Hc Hl].
  unfold outside in Hc. apply negb_true_iff in Hc. rewrite Hc, IH by exact Hl.
  reflexivity.
Qed.

(** Replacing every character of a class. *)
Lemma replaceLoop_class (repl : str) : forall fuel aft bef,
  length aft < fuel ->
  replaceLoop fuel (re (Class p)) repl (mkPos bef aft)
  = flat_map (fun c => if p c then repl else [c]) aft.
Proof.
  induction fuel as [|fuel IH]; intros aft bef Hlt; [lia|].
  cbn [replaceLoop]. unfold searchFrom. cbn [re ignoreCase multiline source
                                              before after].
  rewrite search_class.
  pose proof (takeWhile_dropWhile (outside p) aft) as Split.
  pose proof (takeWhile_all (outside p) aft) as Out.
  destruct (dropWhile (outside p) aft) as [|x xs] eqn:D.
  - rewrite app_nil_r in Split. rewrite Split at 2.
    rewrite flat_map_outside by exact Out. now rewrite <- Split.
  - apply outside_head in D.
    remember (takeWhile (outside p) aft) as l eqn:El. clear El. subst aft.
    unfold index. cbn [before after]. rewrite length_app, length_rev.
    replace (length l + length bef - length bef) with (length l) by lia.
    replace (Nat.ltb _ _) with true
      by (symmetry; apply Nat.ltb_lt; simpl; rewrite length_app, length_rev; lia).
    rewrite IH by (rewrite length_app in Hlt; simpl in Hlt; lia).
    rewrite firstn_app, firstn_all, Nat.sub_diag, flat_map_app. simpl.
    rewrite app_nil_r, D, (@flat_map_outside repl l Out). reflexivity.
Qed.

End ClassSearch.

Lemma replaceAll_class p s :
  replaceAll (re (Class p)) [] s = filter (fun c => negb (p c)) s.
Proof.
  unfold replaceAll. rewrite replaceLoop_class by lia.
  induction s as [|c s IH]; simpl; [reflexivity|].
  destruct (p c); simpl; now rewrite IH.
Qed.

(** [replace(/[^\w\s-]/g, '')] keeps the word characters, the white space
    and the hyphens. *)
Lemma replaceAll_notTopicChar s :
  replaceAll notTopicChar [] s = filter keepsTopicChar s.
Proof.
  unfold notTopicChar, noneOf. rewrite replaceAll_class.
  apply filter_ext. intros c. apply negb_involutive.
Qed.

(** ** Topic names *)

Lemma collapse_outside l s :
  forallb (fun c => negb (isWhiteSpace c)) l = true ->
  collapseFrom false (l ++ s) = l ++ collapseFrom false s.
Proof.
  induction l as [|c l IH]; simpl; [reflexivity|].
  intros H. apply andb_prop in H. destruct H as [Hc Hl].
  apply negb_true_iff in Hc. rewrite Hc, IH by exact Hl. reflexivity.
Qed.

Lemma collapse_run s :
  collapseFrom true s = collapseFrom false (dropWhile isWhiteSpace s).
Proof.
  induction s as [|c s IH]; simpl; [reflexivity|].
  destruct (isWhiteSpace c) eqn:E; [exact IH|]. simpl. now rewrite E.
Qed.

Lemma dropWhile_length p s : length (dropWhile p s) <= length s.
Proof.
  induction s as [|c s IH]; simpl; [lia|]. destruct (p c); simpl; lia.
Qed.

(** [replace(/\s+/g, '_')] turns every run of white space into one
    underscore. *)
Lemma replaceLoop_spaces : forall fuel aft bef,
  length aft < fuel ->
  replaceLoop fuel spaces (lit "_") (mkPos bef aft) = collapseFrom false aft.
Proof.
  induction fuel as [|fuel IH]; intros aft bef Hlt; [lia|].
  cbn [replaceLoop]. unfold searchFrom, spaces, s_.
  cbn [re ignoreCase multiline source before after].
  rewrite search_plus_class.
  set (np := outside isWhiteSpace).
  pose proof (takeWhile_dropWhile np aft) as Split.
  pose proof (takeWhile_all np aft) as Out.
  destruct (dropWhile np aft) as [|x xs] eqn:D.
  - rewrite app_nil_r in Split. rewrite Split at 2.
    rewrite <- (app_nil_r (takeWhile np aft)) at 1.
    rewrite collapse_outside by exact Out. simpl. rewrite app_nil_r. exact Split.
  - apply outside_head in D.
    remember (takeWhile np aft) as l eqn:El. clear El. subst aft.
    unfold index. cbn [before after].
    rewrite !length_app, !length_rev. cbn [length].
    rewrite !length_app, !length_rev.
    replace (length l + length bef - length bef) with (length l) by lia.
    replace (Nat.ltb _ _) with true by (symmetry; apply Nat.ltb_lt; lia).
    rewrite IH.
    + rewrite firstn_app, firstn_all, Nat.sub_diag. simpl firstn.
      rewrite app_nil_r, collapse_outside by exact Out.
      simpl. rewrite D, collapse_run. reflexivity.
    + pose proof (dropWhile_length isWhiteSpace xs).
      rewrite length_app in Hlt. simpl in Hlt. lia.
Qed.

Lemma replaceAll_spaces s : replaceAll spaces (lit "_") s = collapseSpaces s.
Proof. unfold replaceAll. apply replaceLoop_spaces. lia. Qed.

Lemma topicOfMatch_text m : topicOfMatch m = topicText (group1 m).
Proof.
  unfold topicOfMatch, topicText.
  now rewrite replaceAll_notTopicChar, replaceAll_spaces.
Qed.

Lemma topicFrom_firstTitle content : forall patterns,
  topicFrom patterns content = option_map topicText (firstTitle patterns content).
Proof.
  induction patterns as [|pattern rest IH]; simpl; [reflexivity|].
  destruct (smatch content pattern); simpl; [|exact IH].
  now rewrite topicOfMatch_text.
Qed.

Lemma takeWhile_app_stop p l rest :
  forallb p l = true -> stops p rest -> takeWhile p (l ++ rest) = l.
Proof.
  intros Hl Hr. induction l as [|c l IH]; simpl in *.
  - destruct rest as [|y ys]; simpl in *; [reflexivity | now rewrite Hr].
  - apply andb_prop in Hl. destruct Hl as [Hc Hl]. rewrite Hc, IH; auto.
Qed.

Lemma dropWhile_app_stop p l rest :
  forallb p l = true -> stops p rest -> dropWhile p (l ++ rest) = rest.
Proof.
  intros Hl Hr. induction l as [|c l IH]; simpl in *.
  - destruct rest as [|y ys]; simpl in *; [reflexivity | now rewrite Hr].
  - apply andb_prop in Hl. destruct Hl as [Hc Hl]. rewrite Hc, IH; auto.
Qed.

(** A name that ends with a dot and a non-empty extension loses both. *)
Lemma removeExtension_suffix base ext :
  ext <> [] -> forallb isExtChar ext = true ->
  removeExtension (base ++ ch "." :: ext) = base.
Proof.
  intros Hne Hext. unfold removeExtension.
  rewrite rev_app_distr. simpl rev. rewrite <- app_assoc. simpl app.
  rewrite takeWhile_app_stop, dropWhile_app_stop;
    try (rewrite forallb_rev; exact Hext); try reflexivity.
  destruct (rev ext) eqn:E.
  - apply (f_equal (@rev char)) in E. rewrite rev_involutive in E.
    simpl in E. congruence.
  - change (chr "." (ch ".")) with true. cbv iota. apply rev_involutive.
Qed.

(** A match, if the search finds one somewhere, is found. *)
Lemma search_complete icase multi r : forall l1 l2 bef,
  matcher icase multi r (mkPos (rev l1 ++ bef) l2) [] accept <> None ->
  search icase multi r bef (l1 ++ l2) <> None.
Proof.
  induction l1 as [|c l1 IH]; intros l2 bef H; rewrite search_unfold.
  - simpl in *. destruct (matcher icase multi r (mkPos bef l2) [] accept)
      as [[e cs]|]; [discriminate | congruence].
  - destruct (matcher icase multi r (mkPos bef ((c :: l1) ++ l2)) [] accept)
      as [[e cs]|]; [discriminate|].
    simpl app. apply IH. simpl in H. rewrite <- app_assoc in H. exact H.
Qed.

Lemma extensionPattern_shape s e cs :
  matches false false (source extensionPattern) s [] e cs ->
  exists ext,
    ext <> [] /\ forallb isExtChar ext = true
    /\ after s = ch "." :: ext /\ after e = [].
Proof.
  intros H. unfold extensionPattern, re in H. cbn [source cat] in H.
  invert_seq H as z1 cs1 M1 Ha.
  apply matches_lit in M1. destruct M1 as [A1 _].
  invert_seq Ha as z2 cs2 M2 Hb.
  apply matches_plus_class in M2. destruct M2 as (ext & Hne & A2 & F & _).
  inversion Hb; subst.
  match goal with
  | Hz : atEol false _ = true |- _ =>
      unfold atEol in Hz; destruct (after e) eqn:Ee; [|discriminate]
  end.
  exists ext. rewrite app_nil_r in A2. repeat split; auto.
  rewrite A1, A2. reflexivity.
Qed.

(** The equations of the matcher, for stepping through a pattern. *)
Section MatcherEquations.

Variables icase multi : bool.

Lemma matcher_Seq r1 r2 z cs k :
  matcher icase multi (Seq r1 r2) z cs k
  = matcher icase multi r1 z cs (fun z' cs' => matcher icase multi r2 z' cs' k).
Proof. reflexivity. Qed.

Lemma matcher_Class_hit p bef x xs cs k :
  p x = true ->
  matcher icase multi (Class p) (mkPos bef (x :: xs)) cs k
  = k (mkPos (x :: bef) xs) cs.
Proof. intros H. cbn [matcher after before]. now rewrite H. Qed.

Lemma matcher_Star g r z cs k :
  matcher icase multi (Star g r) z cs k
  = starLoop (matcher icase multi r) g k (S (length (after z))) z cs.
Proof. reflexivity. Qed.

Lemma matcher_Group i r z cs k :
  matcher icase multi (Group i r) z cs k
  = matcher icase multi r z cs
      (fun z' cs' =>
         k z' ((i, firstn (length (after z) - length (after z')) (after z))
                 :: cs')).
Proof. reflexivity. Qed.

Lemma matcher_Bol z cs k :
  atBol multi z = true -> matcher icase multi Bol z cs k = k z cs.
Proof. intros H. cbn [matcher]. now rewrite H. Qed.

Lemma matcher_Eol z cs k :
  atEol multi z = true -> matcher icase multi Eol z cs k = k z cs.
Proof. intros H. cbn [matcher]. now rewrite H. Qed.

End MatcherEquations.

Lemma matcher_Lit multi l : forall bef rest cs k,
  matcher false multi (Lit l) (mkPos bef (l ++ rest)) cs k
  = k (mkPos (rev l ++ bef) rest) cs.
Proof.
  induction l as [|c l IH]; intros bef rest cs k; [reflexivity|].
  assert (Hc : forall xs k',
            matcher false multi (Chr c) (mkPos bef (c :: xs)) cs k'
            = k' (mkPos (c :: bef) xs) cs).
  { intros xs k'. cbn [matcher after before]. unfold chrMatches, char_eqb.
    now rewrite N.eqb_refl. }
  destruct l as [|c' l'].
  - apply Hc.
  - change (Lit (c :: c' :: l')) with (Seq (Chr c) (Lit (c' :: l'))).
    rewrite matcher_Seq.
    change ((c :: c' :: l') ++ rest) with (c :: (c' :: l') ++ rest).
    rewrite Hc, IH.
    change (rev (c :: c' :: l')) with (rev (c' :: l') ++ [c]).
    rewrite <- app_assoc. reflexivity.
Qed.

Lemma extensionPattern_matches bef x ext :
  forallb isExtChar (x :: ext) = true ->
  matcher false false (source extensionPattern)
          (mkPos bef (ch "." :: x :: ext)) [] accept <> None.
Proof.
  intros H. simpl in H. apply andb_prop in H. destruct H as [Hx Hext].
  change (source extensionPattern)
    with (Seq (Lit (lit "."))
              (Seq (Seq (Class isExtChar) (Star true (Class isExtChar))) Eol)).
  rewrite matcher_Seq.
  change (ch "." :: x :: ext) with (lit "." ++ x :: ext).
  rewrite matcher_Lit, !matcher_Seq, matcher_Class_hit by exact Hx.
  rewrite matcher_Star. cbn [after].
  rewrite <- (app_nil_r ext) at 2.
  erewrite starLoop_class_greedy;
    [discriminate | exact Hext | exact I | rewrite app_nil_r; simpl; lia
     | reflexivity].
Qed.

(** [fileName.replace(/\.[^/.]+$/, "")] removes the extension. *)
Lemma replaceFirst_extension fileName :
  replaceFirst extensionPattern [] fileName = removeExtension fileName.
Proof.
  unfold replaceFirst.
  destruct (searchFrom extensionPattern (mkPos [] fileName))
    as [[[s e] cs]|] eqn:E.
  - apply searchFrom_sound in E. destruct E as (R & M & _).
    apply reach_textOf in R. unfold textOf in R at 2. simpl in R.
    apply extensionPattern_shape in M.
    destruct M as (ext & Hne & F & As & Ae).
    rewrite Ae. simpl. rewrite app_nil_r.
    rewrite <- R at 1. rewrite textOf_firstn.
    rewrite <- R. unfold textOf. rewrite As.
    symmetry. apply removeExtension_suffix; assumption.
  - unfold removeExtension.
    destruct (takeWhile isExtChar (rev fileName)) as [|x tw] eqn:T;
      [reflexivity|].
    destruct (dropWhile isExtChar (rev fileName)) as [|c base] eqn:D;
      [reflexivity|].
    destruct (chr "." c) eqn:C; [|reflexivity].
    exfalso. apply N.eqb_eq in C. subst c.
    pose proof (takeWhile_dropWhile isExtChar (rev fileName)) as Split.
    pose proof (takeWhile_all isExtChar (rev fileName)) as All.
    rewrite T, D in Split. rewrite T in All.
    apply (f_equal (@rev char)) in Split. rewrite rev_involutive in Split.
    rewrite rev_app_distr in Split.
    change (rev (ch "." :: base)) with (rev base ++ [ch "."]) in Split.
    rewrite <- app_assoc in Split. simpl app in Split.
    unfold searchFrom in E. simpl in E.
    assert (Hne : rev (x :: tw) <> []).
    { intros Hn. apply (f_equal (@rev char)) in Hn.
      rewrite rev_involutive in Hn. discriminate. }
    assert (F : forallb isExtChar (rev (x :: tw)) = true)
      by (rewrite forallb_rev; exact All).
    destruct (rev (x :: tw)) as [|y ext] eqn:R; [congruence|].
    refine (@search_complete false false (source extensionPattern)
              (rev base) (ch "." :: y :: ext) [] _ _).
    + rewrite rev_involutive, app_nil_r.
      apply extensionPattern_matches. exact F.
    + rewrite <- E. f_equal. cbn [rev] in R, Split. rewrite R in Split.
      exact (eq_sym Split).
Qed.

Lemma starLoop_class_stop icase multi p k cs res n bef rest :
  stops p rest ->
  length rest < n ->
  k (mkPos bef rest) cs = Some res ->
  starLoop (matcher icase multi (Class p)) true k n (mkPos bef rest) cs
  = Some res.
Proof.
  intros Hs Hn Hk.
  apply (@starLoop_class_greedy icase multi p k cs res [] n bef rest);
    auto.
Qed.

(** A top-level heading on the first line is found by the first title
    pattern, which captures its text. *)
Lemma h1_heading c text tail :
  isWhiteSpace c = false ->
  forallb isDot (c :: text) = true ->
  stops isDot tail ->
  exists m,
    smatch (lit "# " ++ (c :: text) ++ tail) h1Pattern = Some m
    /\ mindex m = 0 /\ group1 m = c :: text.
Proof.
  intros Hc Hd Ht. simpl in Hd. apply andb_prop in Hd. destruct Hd as [Hdc Hd].
  assert (Heol : forall bef, atEol true (mkPos bef tail) = true).
  { intros bef. unfold atEol. simpl after. destruct tail as [|y ys]; [reflexivity|].
    simpl in Ht. unfold isDot in Ht. apply negb_false_iff in Ht.
    now rewrite Ht. }
  assert (K : forall bef,
            matcher false true
              (Seq (Group 1 (Seq (Class isDot) (Star true (Class isDot)))) Eol)
              (mkPos bef ((c :: text) ++ tail)) [] accept
            = Some (mkPos (rev text ++ c :: bef) tail, [(1, c :: text)])).
  { intros bef. rewrite matcher_Seq, matcher_Group, matcher_Seq.
    change ((c :: text) ++ tail) with (c :: text ++ tail).
    rewrite matcher_Class_hit by exact Hdc.
    rewrite matcher_Star. cbn [after].
    erewrite starLoop_class_greedy;
      [reflexivity | exact Hd | exact Ht | lia |].
    rewrite matcher_Eol by apply Heol. unfold accept. cbn [after].
    do 3 f_equal.
    change (c :: text ++ tail) with ((c :: text) ++ tail).
    rewrite length_app.
    replace (length (c :: text) + length tail - length tail)
      with (length (c :: text)) by lia.
    rewrite firstn_app, firstn_all, Nat.sub_diag. simpl. now rewrite app_nil_r. }
  unfold smatch, searchFrom.
  cbn [h1Pattern rem ignoreCase multiline source before after].
  rewrite search_unfold.
  change (cat [Bol; L "#"; Plus s_; Group 1 (Plus dot); Eol])
    with (Seq Bol (Seq (Lit (lit "#"))
            (Seq (Seq (Class isWhiteSpace) (Star true (Class isWhiteSpace)))
               (Seq (Group 1 (Seq (Class isDot) (Star true (Class isDot)))) Eol)))).
  rewrite matcher_Seq, matcher_Bol by reflexivity.
  rewrite matcher_Seq.
  change (lit "# " ++ (c :: text) ++ tail)
    with (lit "#" ++ 32%N :: (c :: text) ++ tail).
  rewrite matcher_Lit. rewrite !matcher_Seq.
  rewrite matcher_Class_hit by reflexivity.
  rewrite matcher_Star. cbn [after].
  erewrite starLoop_class_stop; [ | exact Hc | simpl; lia | apply K].
  eexists. split; [reflexivity|]. split; reflexivity.
Qed.

Lemma firstTitle_h1 c text tail :
  isWhiteSpace c = false ->
  forallb isDot (c :: text) = true ->
  stops isDot tail ->
  firstTitle titlePatterns (lit "# " ++ (c :: text) ++ tail) = Some (c :: text).
Proof.
  intros Hc Hd Ht.
  destruct (h1_heading c text tail Hc Hd Ht) as (m & Hm & _ & Hg).
  change titlePatterns
    with [h1Pattern; h2Pattern; titleLinePattern; subjectLinePattern].
  cbn [firstTitle]. rewrite Hm, Hg. reflexivity.
Qed.

Lemma generateTopicName_refines fileName content :
  generateTopicName fileName content
  = match firstTitle titlePatterns content with
    | Some text => topicText text
    | None =>
        match removeExtension fileName with
        | [] => lit "unknown_topic"
        | base => base
        end
    end.
Proof.
  unfold generateTopicName. rewrite topicFrom_firstTitle.
  destruct (firstTitle titlePatterns content); simpl; [reflexivity|].
  rewrite replaceFirst_extension.
  destruct (removeExtension fileName); reflexivity.
Qed.

(** C7, as amended: the topic is sought with, in this order, the patterns
    of a top-level heading, of a second-level heading, of a [Title:] line
    and of a [Subject:] line; from the text captured by the first that
    matches, the characters that are neither word characters, white space
    nor hyphens are removed, the result is trimmed, its runs of white space
    become underscores and its first 50 characters are kept; when no
    pattern matches, the topic is the file name without its extension, or
    [unknown_topic] when that is empty.  A document whose first line is
    [# Database Setup Discussion] has the topic
    [Database_Setup_Discussion]. *)
Theorem generateTopicName_spec (fileName content : str) :
  titlePatterns = [h1Pattern; h2Pattern; titleLinePattern; subjectLinePattern]
  /\ generateTopicName fileName content
     = match firstTitle titlePatterns content with
       | Some text =>
           firstn 50 (collapseSpaces (trim (filter keepsTopicChar text)))
       | None =>
           match removeExtension fileName with
           | [] => lit "unknown_topic"
           | base => base
           end
       end
  /\ generateTopicName fileName (lit "# Database Setup Discussion")
     = lit "Database_Setup_Discussion"
  /\ (forall rest,
        generateTopicName fileName
          (lit "# Database Setup Discussion" ++ NL :: rest)
        = lit "Database_Setup_Discussion").
Proof.
  split; [reflexivity|]. split; [apply generateTopicName_refines|].
  assert (H : forall tail,
            stops isDot tail ->
            generateTopicName fileName
              (lit "# Database Setup Discussion" ++ tail)
            = lit "Database_Setup_Discussion").
  { intros tail Ht. rewrite generateTopicName_refines.
    change (lit "# Database Setup Discussion" ++ tail)
      with (lit "# " ++ (lit "Database Setup Discussion") ++ tail).
    change (lit "Database Setup Discussion")
      with (ch "D" :: lit "atabase Setup Discussion").
    rewrite firstTitle_h1; [vm_compute; reflexivity | reflexivity
                            | reflexivity | exact Ht]. }
  split.
  - rewrite <- (app_nil_r (lit "# Database Setup Discussion")).
    apply H. exact I.
  - intros rest. apply H. reflexivity.
Qed.

(** C7, as stated, fails: the hyphen of the heading [# Set-up Guide] is
    kept in the topic, while it is not a word character. *)
Lemma topic_keeps_hyphen :
  generateTopicName (lit "notes.md") (lit "# Set-up Guide")
  = lit "Set-up_Guide"
  /\ claimedTopicName (lit "notes.md") (lit "# Set-up Guide")
     = lit "Setup_Guide"
  /\ generateTopicName (lit "notes.md") (lit "# Set-up Guide")
     <> claimedTopicName (lit "notes.md") (lit "# Set-up Guide").
Proof.
  vm_compute. repeat split; try reflexivity. discriminate.
Qed.

(** ** The loops of [replace] and of the classifier on examples *)

Lemma reach_total n z z' :
  reach n z z' ->
  index z' + length (after z') = index z + length (after z).
Proof.
  intros (l & A & B & _). unfold index.
  rewrite A, B, !length_app, length_rev. lia.
Qed.

(** The loop of a global [replace] does not run out of fuel: any fuel above
    the length of the text gives the same result. *)
Lemma replaceLoop_bound re repl : forall n m z,
  length (after z) < n -> length (after z) < m ->
  replaceLoop n re repl z = replaceLoop m re repl z.
Proof.
  induction n as [|n IHn]; intros m z Hn Hm; [lia|].
  destruct m as [|m]; [lia|]. simpl.
  destruct (searchFrom re z) as [[[s e] cs]|] eqn:E; [|reflexivity].
  apply searchFrom_sound in E. destruct E as (R1 & _ & R2).
  pose proof (reach_total R1) as T1. pose proof (reach_total R2) as T2.
  pose proof (reach_index R1) as I1.
  f_equal. f_equal.
  destruct (Nat.ltb_spec (index s) (index e)).
  - apply IHn; lia.
  - pose proof (reach_index R2) as I2.
    destruct (after e) as [|x xs] eqn:Ae; [reflexivity|].
    f_equal. apply IHn; simpl in *; lia.
Qed.

Example detect_python :
  CodeBlock.detectLanguage (lit "import os") = lit "python".
Proof. vm_compute. reflexivity. Qed.

(** [c] stands before [cpp] and shares its first signature. *)
Example detect_c_shadows_cpp :
  CodeBlock.detectLanguage (lit "#include <iostream>") = lit "c".
Proof. vm_compute. reflexivity. Qed.

Example detect_sql_ignores_case :
  CodeBlock.detectLanguage (lit "select id from users") = lit "sql".
Proof. vm_compute. reflexivity. Qed.

Example detect_fallback :
  CodeBlock.detectLanguage (lit "nothing to see here") = lit "txt".
Proof. vm_compute. reflexivity. Qed.

(** The hash is the 32-bit polynomial hash of the code units, in
    hexadecimal. *)
Example hash_hello_world :
  CodeBlock.generateHash (lit "hello world") = lit "6aefe2c4"
  /\ CodeBlock.generateHash [] = lit "00000000".
Proof. vm_compute. split; reflexivity. Qed.

(** The sample document gives two fenced blocks, the tagged one first. *)
Example sample_blocks :
  map CodeBlock.language (extractCodeBlocks sampleDocument)
  = [lit "python"; lit "javascript"]
  /\ map CodeBlock.startLine (extractCodeBlocks sampleDocument) = [2; 6]
  /\ generateTopicName (lit "notes.md") sampleDocument
     = lit "Database_Setup_Discussion".
Proof. vm_compute. repeat split; reflexivity. Qed.

(** * Further properties *)

(** ** The hash *)

Lemma toInt32_shift x k : toInt32 (x + k * 4294967296) = toInt32 x.
Proof.
  unfold toInt32.
  replace (x + k * 4294967296 + 2147483648)%Z
    with (x + 2147483648 + k * 4294967296)%Z by lia.
  now rewrite Z.mod_add by lia.
Qed.

Lemma toInt32_wraps x : exists k, toInt32 x = (x + k * 4294967296)%Z.
Proof.
  exists (- ((x + 2147483648) / 4294967296))%Z. unfold toInt32.
  pose proof (Z.div_mod (x + 2147483648) 4294967296). lia.
Qed.

Lemma toInt32_range x : (- 2147483648 <= toInt32 x < 2147483648)%Z.
Proof.
  unfold toInt32.
  pose proof (Z.mod_pos_bound (x + 2147483648) 4294967296). lia.
Qed.

(** One round of the loop multiplies by 31 and adds the code unit, modulo
    2^32. *)
Lemma hashStep_polynomial z c :
  CodeBlock.hashStep (toInt32 z) c = toInt32 (31 * z + Z.of_N c).
Proof.
  unfold CodeBlock.hashStep.
  destruct (toInt32_wraps z) as (k1 & E1).
  destruct (toInt32_wraps (toInt32 z * 32)) as (k2 & E2).
  rewrite E2, E1.
  replace ((z + k1 * 4294967296) * 32 + k2 * 4294967296
           - (z + k1 * 4294967296) + Z.of_N c)%Z
    with (31 * z + Z.of_N c + (31 * k1 + k2) * 4294967296)%Z by lia.
  apply toInt32_shift.
Qed.

Lemma hashLoop_polynomial content : forall z,
  fold_left CodeBlock.hashStep content (toInt32 z)
  = toInt32 (fold_left (fun h c => (31 * h + Z.of_N c)%Z) content z).
Proof.
  induction content as [|c content IH]; intros z; simpl; [reflexivity|].
  rewrite hashStep_polynomial. apply IH.
Qed.

Lemma generateHash_formula content :
  CodeBlock.generateHash content
  = firstn 8 (padStart0 8
       (hexToString (Z.to_N (Z.abs (toInt32 (polynomialHash content)))))).
Proof.
  unfold CodeBlock.generateHash, polynomialHash.
  rewrite <- (hashLoop_polynomial content 0%Z).
  destruct content; reflexivity.
Qed.

(** X1: the loop of [generateHash], written with shifts and [&], computes
    the polynomial of the code units with the multiplier 31, wrapped into
    the signed 32-bit range; the hash is the absolute value of that number
    in hexadecimal, and the empty text has the hash of the number 0. *)
Theorem generateHash_polynomial (content : str) :
  let h := toInt32 (polynomialHash content) in
  fold_left CodeBlock.hashStep content 0%Z = h
  /\ (- 2147483648 <= h < 2147483648)%Z
  /\ CodeBlock.generateHash content
     = firstn 8 (padStart0 8 (hexToString (Z.to_N (Z.abs h)))).
Proof.
  intros h. split; [apply (hashLoop_polynomial content 0%Z)|].
  split; [apply toInt32_range | apply generateHash_formula].
Qed.

Lemma In_firstn (A : Type) (x : A) n l : In x (firstn n l) -> In x l.
Proof.
  intros H. rewrite <- (firstn_skipn n l). apply in_or_app. now left.
Qed.

Lemma hex_digits_of_uint d :
  Forall (fun c => isHexDigit c = true)
         (lit (HexadecimalString.NilEmpty.string_of_uint d)).
Proof.
  induction d; simpl; constructor; auto.
Qed.

Lemma hexToString_digits n :
  Forall (fun c => isHexDigit c = true) (hexToString n).
Proof.
  unfold hexToString, HexadecimalString.NilZero.string_of_uint.
  destruct (N.to_hex_uint n); try apply hex_digits_of_uint.
  repeat constructor.
Qed.

(** X2: a hash has exactly 8 characters, each a digit or a letter from [a]
    to [f], whatever the text. *)
Theorem generateHash_shape (content : str) :
  length (CodeBlock.generateHash content) = 8
  /\ Forall (fun c => isHexDigit c = true) (CodeBlock.generateHash content).
Proof.
  rewrite generateHash_formula.
  set (s := hexToString _).
  assert (Hs : Forall (fun c => isHexDigit c = true) s)
    by apply hexToString_digits.
  unfold padStart0. split.
  - rewrite length_firstn, length_app, repeat_length. lia.
  - apply Forall_forall. intros c Hc. apply In_firstn in Hc.
    apply in_app_or in Hc. destruct Hc as [Hc | Hc].
    + apply repeat_spec in Hc. subst. reflexivity.
    + rewrite Forall_forall in Hs. apply Hs, Hc.
Qed.

(** ** Extensions *)

Lemma str_eqb_eq a : forall b, str_eqb a b = true <-> a = b.
Proof.
  induction a as [|x a IH]; intros [|y b]; simpl; split; try congruence;
    try discriminate; auto.
  - unfold char_eqb. rewrite andb_true_iff, N.eqb_eq, IH.
    intros [-> ->]. reflexivity.
  - intros H. inversion H; subst. unfold char_eqb.
    rewrite N.eqb_refl. simpl. apply IH. reflexivity.
Qed.

Lemma lookup_In (V : Type) key (table : list (str * V)) v :
  CodeBlock.lookup key table = Some v -> In (key, v) table.
Proof.
  induction table as [|[k w] table IH]; simpl; [discriminate|].
  destruct (str_eqb k key) eqn:E.
  - apply str_eqb_eq in E. intros H. inversion H; subst. now left.
  - intros H. right. apply IH, H.
Qed.

Lemma detectIn_label content entries :
  CodeBlock.detectIn entries content = lit "txt"
  \/ In (CodeBlock.detectIn entries content) (map fst entries).
Proof.
  induction entries as [|[l ps] entries IH]; simpl; [now left|].
  destruct (existsb (fun pattern => test pattern content) ps).
  - right. now left.
  - destruct IH as [IH | IH]; [now left | right; now right].
Qed.

(** The labels of the classifier, with their extensions. *)
Lemma classifier_labels_extensions :
  Forall (fun l => exists rest,
            CodeBlock.lookup l CodeBlock.extensions = Some (ch "." :: rest)
            /\ rest <> []
            /\ (ch "." :: rest = lit ".txt" <-> l = lit "txt"))
         (lit "txt" :: map fst CodeBlock.patterns).
Proof.
  repeat (constructor;
          [eexists; split; [vm_compute; reflexivity|];
           split; [discriminate|]; split; intros H; vm_compute in H;
           try discriminate; reflexivity|]).
  constructor.
Qed.

(** X3: the label the classifier gives to any text is a key of the table
    of extensions, so a block without a tag gets the extension of its
    label from the table, and gets [.txt] only when its label is [txt]. *)
Theorem untagged_block_extension (content : str) (startLine : nat) :
  let b := CodeBlock.new content None startLine in
  CodeBlock.language b = CodeBlock.detectLanguage (trim content)
  /\ exists rest,
       CodeBlock.lookup (CodeBlock.language b) CodeBlock.extensions
       = Some (ch "." :: rest)
       /\ CodeBlock.getFileExtension b = Str (ch "." :: rest)
       /\ (CodeBlock.getFileExtension b = Str (lit ".txt")
           <-> CodeBlock.language b = lit "txt").
Proof.
  intros b. split; [reflexivity|].
  assert (L : In (CodeBlock.language b) (lit "txt" :: map fst CodeBlock.patterns)).
  { simpl CodeBlock.language. unfold CodeBlock.detectLanguage.
    destruct (detectIn_label (trim content) CodeBlock.patterns) as [E | E].
    - rewrite E. now left.
    - now right. }
  pose proof classifier_labels_extensions as F.
  rewrite Forall_forall in F. destruct (F _ L) as (rest & Hl & Hne & Htxt).
  exists rest. unfold CodeBlock.getFileExtension, CodeBlock.getProperty.
  rewrite Hl. cbn [truthyValue truthy]. cbv iota.
  split; [reflexivity|]. split; [reflexivity|].
  rewrite <- Htxt. split; [intros H; now inversion H | intros ->; reflexivity].
Qed.

(** The names of the properties of [Object.prototype] are not keys of the
    table of extensions, and none of these properties is a string. *)
Lemma objectPrototype_keys :
  Forall (fun key =>
            CodeBlock.lookup key CodeBlock.extensions = None
            /\ exists v, CodeBlock.lookup key objectPrototype = Some v
                         /\ truthyValue v = true
                         /\ forall s, v <> Str s)
         (map fst objectPrototype).
Proof.
  repeat (constructor;
          [split; [vm_compute; reflexivity|];
           eexists; split; [vm_compute; reflexivity|];
           split; [reflexivity | discriminate]|]).
  constructor.
Qed.

(** X4: the extension of a block is the entry of the table when the
    language is one of its keys, and then a dot followed by at least one
    character.  Otherwise the lookup goes on in [Object.prototype]: a
    language that names one of its properties ([constructor], [toString],
    [__proto__], ...) gets that property, which is not a string; only a
    language that names none gets [.txt]. *)
Theorem getFileExtension_cases (b : CodeBlock.t) :
  (forall ext,
     CodeBlock.lookup (CodeBlock.language b) CodeBlock.extensions = Some ext ->
     CodeBlock.getFileExtension b = Str ext
     /\ exists c rest, ext = ch "." :: c :: rest)
  /\ (In (CodeBlock.language b) (map fst objectPrototype) ->
      CodeBlock.lookup (CodeBlock.language b) objectPrototype
      = Some (CodeBlock.getFileExtension b)
      /\ forall s, CodeBlock.getFileExtension b <> Str s)
  /\ (CodeBlock.lookup (CodeBlock.language b) CodeBlock.extensions = None ->
      ~ In (CodeBlock.language b) (map fst objectPrototype) ->
      CodeBlock.getFileExtension b = Str (lit ".txt")).
Proof.
  assert (T : Forall (fun kv => exists c rest, snd kv = ch "." :: c :: rest)
                     CodeBlock.extensions).
  { unfold CodeBlock.extensions.
    repeat (constructor; [do 2 eexists; reflexivity|]). constructor. }
  unfold CodeBlock.getFileExtension, CodeBlock.getProperty.
  split; [|split].
  - intros ext Hl. rewrite Hl. apply lookup_In in Hl.
    rewrite Forall_forall in T. destruct (T _ Hl) as (c & rest & Ee).
    simpl in Ee. subst ext. split; [reflexivity|]. now exists c, rest.
  - intros Hin. pose proof objectPrototype_keys as K.
    rewrite Forall_forall in K.
    destruct (K _ Hin) as (Hn & v & Hv & Ht & Hs).
    rewrite Hn, Hv, Ht. split; [reflexivity | exact Hs].
  - intros Hn Hnot. rewrite Hn.
    destruct (CodeBlock.lookup (CodeBlock.language b) objectPrototype)
      as [v|] eqn:Hv; [|reflexivity].
    exfalso. apply Hnot. apply lookup_In in Hv.
    apply in_map_iff. exists (CodeBlock.language b, v). auto.
Qed.

Lemma getFileExtension_cases_witness :
  exists b,
    extractMarkdownCodeBlocks constructorDocument = [b]
    /\ CodeBlock.language b = lit "constructor"
    /\ CodeBlock.getFileExtension b = BuiltinFunction (lit "Object")
    /\ (forall s, CodeBlock.getFileExtension b <> Str s)
    /\ fileNameOf (engine := v8) 1 b
       = lit "code_01_constructor_2421c4aefunction Object() { [native code] }".
Proof.
  eexists. split; [vm_compute; reflexivity|].
  split; [reflexivity|]. split; [reflexivity|]. split.
  - refine (proj2 (proj1 (proj2 (@getFileExtension_cases _)) _)).
    vm_compute. tauto.
  - vm_compute. reflexivity.
Defined.

(** ** What every block is *)

Lemma dropWhile_fix p s : stops p s -> dropWhile p s = s.
Proof. destruct s as [|c s]; simpl; [reflexivity|]. now intros ->. Qed.

(** [trim] cuts white space off both ends, and all of it. *)
Lemma trim_spec s :
  exists a b,
    s = a ++ trim s ++ b
    /\ forallb isWhiteSpace a = true /\ forallb isWhiteSpace b = true
    /\ stops isWhiteSpace (trim s) /\ stops isWhiteSpace (rev (trim s)).
Proof.
  unfold trim, trimEnd, trimStart.
  set (u := dropWhile isWhiteSpace s).
  pose proof (takeWhile_dropWhile isWhiteSpace s) as Hs. fold u in Hs.
  pose proof (dropWhile_stops isWhiteSpace s) as Hu. fold u in Hu.
  pose proof (takeWhile_dropWhile isWhiteSpace (rev u)) as Hr.
  pose proof (dropWhile_stops isWhiteSpace (rev u)) as Hd.
  set (d := dropWhile isWhiteSpace (rev u)) in *.
  apply (f_equal (@rev char)) in Hr. rewrite rev_involutive, rev_app_distr in Hr.
  exists (takeWhile isWhiteSpace s), (rev (takeWhile isWhiteSpace (rev u))).
  repeat split.
  - rewrite <- Hr. exact Hs.
  - apply takeWhile_all.
  - rewrite forallb_rev. apply takeWhile_all.
  - destruct (rev d) as [|c t] eqn:E; [exact I|].
    rewrite Hr in Hu. simpl in Hu. exact Hu.
  - rewrite rev_involutive. exact Hd.
Qed.

Lemma trim_idempotent s : trim (trim s) = trim s.
Proof.
  destruct (trim_spec s) as (_ & _ & _ & _ & _ & H1 & H2).
  unfold trim at 1. unfold trimEnd, trimStart.
  rewrite (dropWhile_fix _ _ H1), (dropWhile_fix _ _ H2).
  apply rev_involutive.
Qed.

Lemma occursIn_trim s : occursIn (trim s) s.
Proof.
  destruct (trim_spec s) as (a & b & E & _). exists a, b. exact E.
Qed.

Lemma occursIn_trans a b c : occursIn a b -> occursIn b c -> occursIn a c.
Proof.
  intros (p1 & q1 & ->) (p2 & q2 & ->).
  exists (p2 ++ p1), (q1 ++ q2). now rewrite <- !app_assoc.
Qed.

Lemma detectLanguage_nonempty content : CodeBlock.detectLanguage content <> [].
Proof.
  unfold CodeBlock.detectLanguage.
  assert (F : Forall (fun l : str => l <> [])
                     (lit "txt" :: map fst CodeBlock.patterns))
    by (repeat (constructor; [vm_compute; discriminate|]); constructor).
  rewrite Forall_forall in F. apply F.
  destruct (detectIn_label content CodeBlock.patterns) as [E | E];
    [rewrite E; now left | now right].
Qed.

(** The blocks of the two scanners, one by one. *)
Lemma fenced_block_inv content b :
  In b (extractMarkdownCodeBlocks content) ->
  exists m tag body rest,
    In m (fencedMatches content)
    /\ skipn (mindex m) content
       = lit "```" ++ tag ++ NL :: body ++ NL :: lit "```" ++ rest
    /\ forallb isWord tag = true
    /\ capture 2 (mgroups m) = Some body
    /\ 20 < length (trim body)
    /\ b = CodeBlock.new body (match tag with [] => None | _ => Some tag end)
                         (length (split_nl (substring0 content (mindex m)))).
Proof.
  intros Hb.
  rewrite (proj2 (extractMarkdownCodeBlocks_matches content)) in Hb.
  apply in_flat_map in Hb. destruct Hb as (m & Hm & Hb).
  destruct (fencedMatches_shape _ _ Hm) as (tag & body & rest & Sh & F & C1 & C2).
  exists m, tag, body, rest. unfold fencedBlock in Hb. rewrite C1, C2 in Hb.
  destruct (truthy (trim body)); simpl in Hb; [|contradiction].
  destruct (Nat.ltb_spec 20 (length (trim body))); [|contradiction].
  destruct Hb as [<- | []]. repeat split; auto.
Qed.

Lemma indented_block_inv content b :
  In b (extractIndentedCodeBlocks content) ->
  exists start run,
    In (start, run) (indentedRuns content)
    /\ 3 < length run
    /\ 50 < length (trim (join_nl run))
    /\ firstn (length run) (skipn start (split_nl content)) = run
    /\ b = CodeBlock.new (trim (join_nl run)) None start.
Proof.
  intros Hb. rewrite extractIndentedCodeBlocks_runs in Hb.
  apply in_flat_map in Hb. destruct Hb as ([start run] & Hr & Hb).
  unfold flushRun in Hb. simpl in Hb.
  destruct (flush_spec run start) as [Hyes Hno].
  assert (Hne : flush run start <> [])
    by (intros E; rewrite E in Hb; contradiction).
  destruct (Hno Hne) as (H3 & H50 & H2).
  rewrite (Hyes (conj H3 (conj H50 H2))) in Hb. destruct Hb as [<- | []].
  exists start, run. repeat split; auto.
  apply (@runsFrom_lines (split_nl content) [] 0 [] 0 (start, run));
    auto; try congruence.
  simpl. destruct run; [simpl in H3; lia | discriminate].
Qed.

Lemma extractCodeBlocks_In content b :
  In b (extractCodeBlocks content) ->
  In b (extractMarkdownCodeBlocks content)
  \/ In b (extractIndentedCodeBlocks content).
Proof.
  rewrite extractCodeBlocks_retained. intros H. apply in_app_or in H.
  destruct H as [H | H]; [now left | right].
  eapply retained_incl, H.
Qed.

(** X5: every block the extractor returns has a trimmed content of more
    than 20 characters (more than 50 for an indented block), a non-empty
    language, and the 8-character hash of its content. *)
Theorem extracted_block_wellformed (content : str) (b : CodeBlock.t) :
  In b (extractCodeBlocks content) ->
  trim (CodeBlock.content b) = CodeBlock.content b
  /\ 20 < length (CodeBlock.content b)
  /\ (In b (extractIndentedCodeBlocks content) ->
      50 < length (CodeBlock.content b))
  /\ CodeBlock.language b <> []
  /\ CodeBlock.hash b = CodeBlock.generateHash (CodeBlock.content b)
  /\ length (CodeBlock.hash b) = 8.
Proof.
  intros Hb.
  assert (Hind : In b (extractIndentedCodeBlocks content) ->
                 trim (CodeBlock.content b) = CodeBlock.content b
                 /\ 50 < length (CodeBlock.content b)
                 /\ CodeBlock.language b <> []
                 /\ CodeBlock.hash b = CodeBlock.generateHash (CodeBlock.content b)).
  { intros Hi. apply indented_block_inv in Hi.
    destruct Hi as (start & run & _ & _ & H50 & _ & ->). simpl.
    rewrite !trim_idempotent. repeat split; auto.
    apply detectLanguage_nonempty. }
  assert (Hlen : CodeBlock.hash b = CodeBlock.generateHash (CodeBlock.content b) ->
                 length (CodeBlock.hash b) = 8).
  { intros ->. rewrite generateHash_formula. unfold padStart0.
    rewrite length_firstn, length_app, repeat_length. lia. }
  apply extractCodeBlocks_In in Hb. destruct Hb as [Hf | Hi].
  - apply fenced_block_inv in Hf.
    destruct Hf as (m & tag & body & rest & _ & _ & _ & _ & H20 & Eb).
    assert (Hh : CodeBlock.hash b = CodeBlock.generateHash (CodeBlock.content b))
      by (subst b; reflexivity).
    repeat split; auto.
    + subst b. simpl. apply trim_idempotent.
    + subst b. exact H20.
    + intros Hi. apply Hind in Hi. tauto.
    + subst b. simpl. destruct tag; simpl.
      * apply detectLanguage_nonempty.
      * discriminate.
  - destruct (Hind Hi) as (H1 & H2 & H3 & H4).
    repeat split; auto. lia.
Qed.

Lemma extracted_block_wellformed_witness :
  trim (CodeBlock.content
          (CodeBlock.new (lit "print(1 + 1); x = compute(2)")
                         (Some (lit "python")) 2))
  = CodeBlock.content
      (CodeBlock.new (lit "print(1 + 1); x = compute(2)")
                     (Some (lit "python")) 2)
  /\ 20 < length (CodeBlock.content
                    (CodeBlock.new (lit "print(1 + 1); x = compute(2)")
                                   (Some (lit "python")) 2)).
Proof.
  destruct (@extracted_block_wellformed sampleDocument
              (CodeBlock.new (lit "print(1 + 1); x = compute(2)")
                             (Some (lit "python")) 2))
    as (H1 & H2 & _).
  - vm_compute. left. reflexivity.
  - split; [exact H1 | exact H2].
Defined.

(** ** Blocks are pieces of the text *)

Lemma join_nl_cons l ls :
  ls <> [] -> join_nl (l :: ls) = l ++ NL :: join_nl ls.
Proof. destruct ls; [congruence | reflexivity]. Qed.

Lemma split_nl_nonempty s : split_nl s <> [].
Proof.
  destruct s as [|c s]; simpl; [discriminate|].
  destruct (char_eqb c NL); [discriminate|].
  destruct (split_nl s); discriminate.
Qed.

(** Joining the lines of a text gives the text back. *)
Lemma join_split s : join_nl (split_nl s) = s.
Proof.
  induction s as [|c s IH]; [reflexivity|].
  simpl split_nl. unfold char_eqb. destruct (N.eqb_spec c NL) as [E | E].
  - subst. rewrite join_nl_cons by apply split_nl_nonempty.
    simpl. now rewrite IH.
  - pose proof (split_nl_nonempty s) as Hne.
    destruct (split_nl s) as [|l ls]; [congruence|].
    destruct ls as [|l' ls'].
    + simpl in *. now rewrite IH.
    + change (join_nl ((c :: l) :: l' :: ls'))
        with (c :: (l ++ NL :: join_nl (l' :: ls'))).
      change (join_nl (l :: l' :: ls'))
        with (l ++ NL :: join_nl (l' :: ls')) in IH.
      now rewrite IH.
Qed.

Lemma join_nl_app l1 l2 :
  l1 <> [] -> l2 <> [] ->
  join_nl (l1 ++ l2) = join_nl l1 ++ NL :: join_nl l2.
Proof.
  intros H1 H2. induction l1 as [|l l1 IH]; [congruence|].
  destruct l1 as [|l' l1'].
  - simpl app. now rewrite join_nl_cons.
  - change ((l :: l' :: l1') ++ l2) with (l :: (l' :: l1') ++ l2).
    rewrite join_nl_cons by discriminate.
    rewrite IH by discriminate.
    rewrite (join_nl_cons l) by discriminate.
    now rewrite <- app_assoc.
Qed.

(** Consecutive lines, joined, occur in the joined whole. *)
Lemma occursIn_join pre run post :
  occursIn (join_nl run) (join_nl (pre ++ run ++ post)).
Proof.
  destruct run as [|r run]; [exists [], (join_nl (pre ++ post)); reflexivity|].
  set (R := r :: run). assert (HR : R <> []) by discriminate.
  assert (Tail : exists q, join_nl (R ++ post) = join_nl R ++ q).
  { destruct post as [|p post].
    - exists []. now rewrite !app_nil_r.
    - exists (NL :: join_nl (p :: post)). apply join_nl_app; [exact HR | discriminate]. }
  destruct Tail as (q & Eq).
  destruct pre as [|p pre].
  - exists [], q. simpl app. exact Eq.
  - exists (join_nl (p :: pre) ++ [NL]), q.
    rewrite join_nl_app; [|discriminate|destruct R; [congruence|discriminate]].
    rewrite Eq, <- !app_assoc. reflexivity.
Qed.

(** X6: the content of every block the extractor returns occurs, as it is,
    in the text the block was extracted from. *)
Theorem extracted_block_occurs_in_text (content : str) (b : CodeBlock.t) :
  In b (extractCodeBlocks content) ->
  occursIn (CodeBlock.content b) content.
Proof.
  intros Hb. apply extractCodeBlocks_In in Hb. destruct Hb as [Hf | Hi].
  - apply fenced_block_inv in Hf.
    destruct Hf as (m & tag & body & rest & _ & Sh & _ & _ & _ & ->).
    simpl. eapply occursIn_trans; [apply occursIn_trim|].
    exists (firstn (mindex m) content ++ lit "```" ++ tag ++ [NL]),
           (NL :: lit "```" ++ rest).
    rewrite <- (firstn_skipn (mindex m) content) at 1. rewrite Sh.
    rewrite <- !app_assoc. reflexivity.
  - apply indented_block_inv in Hi.
    destruct Hi as (start & run & _ & _ & _ & Hl & ->). simpl.
    eapply occursIn_trans; [apply occursIn_trim|].
    eapply occursIn_trans; [apply occursIn_trim|].
    rewrite <- (join_split content) at 1.
    rewrite <- (firstn_skipn start (split_nl content)).
    rewrite <- (firstn_skipn (length run) (skipn start (split_nl content))).
    rewrite Hl. apply occursIn_join.
Qed.

Lemma extracted_block_occurs_in_text_witness :
  occursIn
    (CodeBlock.content
       (CodeBlock.new (lit "print(1 + 1); x = compute(2)")
                      (Some (lit "python")) 2))
    sampleDocument.
Proof.
  apply (@extracted_block_occurs_in_text sampleDocument).
  vm_compute. left. reflexivity.
Defined.

(** ** A fenced block ends at the first closing fence *)

(** A lazy star of a class hands over to the continuation at the first
    position where the continuation succeeds. *)
Lemma starLoop_lazy_first icase multi p k cs res : forall n bef aft,
  starLoop (matcher icase multi (Class p)) false k n (mkPos bef aft) cs
  = Some res ->
  exists l rest,
    aft = l ++ rest
    /\ k (mkPos (rev l ++ bef) rest) cs = Some res
    /\ forall l1 x l2,
         l = l1 ++ x :: l2 ->
         k (mkPos (rev l1 ++ bef) (x :: l2 ++ rest)) cs = None.
Proof.
  set (body := matcher icase multi (Class p)).
  assert (Bnil : forall bef cs' k', body (mkPos bef []) cs' k' = None)
    by reflexivity.
  assert (Bcons : forall bef x xs cs' k',
            body (mkPos bef (x :: xs)) cs' k'
            = if p x then k' (mkPos (x :: bef) xs) cs' else None)
    by reflexivity.
  clearbody body.
  assert (Here : forall bef aft,
            k (mkPos bef aft) cs = Some res ->
            exists l rest,
              aft = l ++ rest
              /\ k (mkPos (rev l ++ bef) rest) cs = Some res
              /\ forall l1 x l2,
                   l = l1 ++ x :: l2 ->
                   k (mkPos (rev l1 ++ bef) (x :: l2 ++ rest)) cs = None).
  { intros bef aft Hk. exists [], aft. repeat split; auto.
    intros l1 x l2 H. destruct l1; discriminate. }
  induction n as [|n IHn]; intros bef aft H; cbn [starLoop] in H.
  - apply Here, H.
  - destruct (k (mkPos bef aft) cs) eqn:Ek.
    + inversion H; subst. apply Here, Ek.
    + destruct aft as [|x xs]; [rewrite Bnil in H; discriminate|].
      rewrite Bcons in H. destruct (p x); [|discriminate].
      cbn [after] in H.
      destruct (Nat.ltb (length xs) (length (x :: xs))); [|discriminate].
      apply IHn in H. destruct H as (l & rest & A & Hk & Hearlier).
      exists (x :: l), rest. repeat split.
      * simpl. now rewrite A.
      * simpl. rewrite <- app_assoc. exact Hk.
      * intros l1 y l2 E. destruct l1 as [|x' l1].
        -- simpl in E. inversion E; subst. simpl. exact Ek.
        -- simpl in E. inversion E; subst. simpl. rewrite <- app_assoc.
           apply Hearlier. reflexivity.
Qed.

Lemma search_matcher icase multi r : forall aft bef s e cs,
  search icase multi r bef aft = Some (s, e, cs) ->
  matcher icase multi r s [] accept = Some (e, cs).
Proof.
  induction aft as [|x xs IH]; intros bef s e cs H; rewrite search_unfold in H;
    destruct (matcher icase multi r (mkPos bef _) [] accept)
      as [[e' cs']|] eqn:E; try discriminate.
  - inversion H; subst. exact E.
  - inversion H; subst. exact E.
  - eapply IH, H.
Qed.

Lemma fenceMatches_matcher : forall fuel z m,
  In m (fenceMatches fuel z) ->
  exists s e cs,
    m = mkResult (s, e, cs)
    /\ matcher false false (source fencePattern) s [] accept = Some (e, cs).
Proof.
  induction fuel as [|fuel IH]; intros z m Hin; simpl in Hin; [contradiction|].
  destruct (searchFrom fencePattern z) as [[[s e] cs]|] eqn:E;
    [|contradiction].
  destruct Hin as [Hm | Hin].
  - exists s, e, cs. split; [now subst|].
    unfold searchFrom in E. eapply search_matcher, E.
  - eapply IH, Hin.
Qed.

(** The code of a match of the fence pattern holds no newline followed by
    three backticks. *)
Lemma fence_code_minimal s e cs body :
  matcher false false (source fencePattern) s [] accept = Some (e, cs) ->
  capture 2 cs = Some body ->
  ~ occursIn (NL :: lit "```") body.
Proof.
  intros H C.
  change (source fencePattern)
    with (Seq (Lit (lit "```"))
            (Seq (Opt (Group 1 (Plus w_)))
               (Seq (Chr NL)
                  (Seq (Group 2 (Star false any))
                       (Lit (NL :: lit "```")))))) in H.
  rewrite matcher_Seq in H. apply matcher_sound in H.
  destruct H as (z1 & cs1 & _ & H).
  rewrite matcher_Seq in H. apply matcher_sound in H.
  destruct H as (z2 & cs2 & _ & H).
  rewrite matcher_Seq in H. apply matcher_sound in H.
  destruct H as (z3 & cs3 & _ & H).
  rewrite matcher_Seq, matcher_Group, matcher_Star in H.
  destruct z3 as [bef3 aft3]. unfold any in H.
  apply starLoop_lazy_first in H.
  destruct H as (l & rest & A & Hk & Hearlier).
  cbn [after] in Hk, Hearlier.
  assert (El : firstn (length aft3 - length rest) aft3 = l).
  { rewrite A, length_app.
    replace (length l + length rest - length rest) with (length l) by lia.
    rewrite firstn_app, firstn_all, Nat.sub_diag. simpl. apply app_nil_r. }
  apply matcher_sound in Hk. destruct Hk as (z' & cs' & M & Acc).
  apply matches_noGroups in M; [|reflexivity]. unfold accept in Acc.
  inversion Acc; subst z' cs'. rewrite <- H1 in C. simpl in C.
  rewrite El in C. inversion C; subst body.
  intros (pre & post & Occ).
  specialize (Hearlier pre NL (lit "```" ++ post) Occ).
  change (NL :: (lit "```" ++ post) ++ rest)
    with ((NL :: lit "```") ++ post ++ rest) in Hearlier.
  rewrite matcher_Lit in Hearlier. discriminate.
Qed.

(** X7: the content of a fenced block never holds a newline followed by
    three backticks: the block ends at the first closing fence after its
    opening fence. *)
Theorem fenced_block_holds_no_fence (content : str) (b : CodeBlock.t) :
  In b (extractMarkdownCodeBlocks content) ->
  ~ occursIn (NL :: lit "```") (CodeBlock.content b).
Proof.
  intros Hb Occ.
  assert (Hb' := Hb).
  rewrite (proj2 (extractMarkdownCodeBlocks_matches content)) in Hb'.
  apply in_flat_map in Hb'. destruct Hb' as (m & Hm & Hbm).
  apply fenceMatches_matcher in Hm. destruct Hm as (s & e & cs & -> & Hmatch).
  unfold fencedBlock in Hbm. simpl mgroups in Hbm.
  destruct (capture 2 cs) as [body|] eqn:C.
  - destruct (truthy (trim body) && Nat.ltb 20 (length (trim body)));
      [|contradiction].
    destruct Hbm as [<- | []]. simpl in Occ.
    apply (fence_code_minimal _ Hmatch C).
    eapply occursIn_trans; [exact Occ | apply occursIn_trim].
  - simpl in Hbm. contradiction.
Qed.

Lemma fenced_block_holds_no_fence_witness :
  ~ occursIn (NL :: lit "```")
      (CodeBlock.content
         (CodeBlock.new (lit "print(1 + 1); x = compute(2)")
                        (Some (lit "python")) 2)).
Proof.
  apply (@fenced_block_holds_no_fence sampleDocument).
  vm_compute. left. reflexivity.
Defined.

(** ** The matches of the fenced scanner do not overlap *)

Lemma fenceMatches_disjoint : forall fuel z,
  StronglySorted (fun a b => mindex a + length (mtext a) <= mindex b)
                 (fenceMatches fuel z)
  /\ Forall (fun m => index z <= mindex m
                      /\ 8 <= length (mtext m)
                      /\ firstn (length (mtext m)) (skipn (mindex m) (textOf z))
                         = mtext m)
            (fenceMatches fuel z).
Proof.
  induction fuel as [|fuel IH]; intros z; simpl; [split; constructor|].
  destruct (searchFrom fencePattern z) as [[[s e] cs]|] eqn:E;
    [|split; constructor].
  apply searchFrom_sound in E. destruct E as (R1 & _ & R2).
  rewrite fencePattern_minLen in R2.
  pose proof (reach_index R1) as I1. pose proof (reach_index R2) as I2.
  pose proof (reach_total R2) as T2.
  pose proof (reach_textOf R1) as X1. pose proof (reach_textOf R2) as X2.
  destruct (IH e) as [S1 F1]. simpl mend in *.
  assert (Len : length (firstn (index e - index s) (after s))
                = index e - index s)
    by (rewrite length_firstn; lia).
  split.
  - constructor; [exact S1|].
    eapply Forall_impl; [|exact F1]. simpl. intros m (Hm & _). rewrite Len. lia.
  - constructor.
    + simpl. rewrite Len. repeat split; try lia.
      rewrite <- X1, textOf_skipn. reflexivity.
    + eapply Forall_impl; [|exact F1]. simpl. intros m (Hm & H8 & Ht).
      repeat split; try lia. rewrite <- X1, <- X2. exact Ht.
Qed.

(** X8: the matches of the fence pattern come one after the other in the
    text without overlapping: each is a piece of the text of at least 8
    characters, and the next one starts at or after its end. *)
Theorem fenced_matches_do_not_overlap (content : str) :
  StronglySorted (fun a b => mindex a + length (mtext a) <= mindex b)
                 (fencedMatches content)
  /\ forall m,
       In m (fencedMatches content) ->
       8 <= length (mtext m)
       /\ firstn (length (mtext m)) (skipn (mindex m) content) = mtext m.
Proof.
  destruct (fenceMatches_disjoint (S (length content)) (mkPos [] content))
    as [S1 F1].
  split; [exact S1|]. intros m Hm. rewrite Forall_forall in F1.
  destruct (F1 m Hm) as (_ & H8 & Ht). split; [exact H8 | exact Ht].
Qed.

(** ** The lines of an indented block *)

Lemma search_bol_later r : forall aft bef,
  bef <> [] -> search false false (Seq Bol r) bef aft = None.
Proof.
  induction aft as [|x xs IH]; intros bef Hb; rewrite search_unfold;
    rewrite matcher_Seq; cbn [matcher];
    (destruct bef as [|b bef]; [congruence|]); simpl atBol; cbv iota.
  - reflexivity.
  - apply IH. discriminate.
Qed.

Lemma matcher_Lit_fail multi l bef aft cs k :
  startsWith l aft = false ->
  matcher false multi (Lit l) (mkPos bef aft) cs k = None.
Proof.
  intros H. destruct (matcher false multi (Lit l) (mkPos bef aft) cs k) eqn:E;
    [|reflexivity].
  apply matcher_sound in E. destruct E as (z' & cs' & M & _).
  apply matches_lit in M. destruct M as [A _]. simpl in A.
  assert (startsWith l aft = true)
    by (apply startsWith_spec; exists (after z'); exact A).
  congruence.
Qed.

(** The test of the indentation, without the pattern. *)
Lemma indentPattern_test line :
  test indentPattern line
  = startsWith (lit "    ") line || startsWith [TAB] line.
Proof.
  unfold test, searchFrom.
  change (source indentPattern)
    with (Seq Bol (Group 1 (Alt (Lit (lit "    ")) (Lit [TAB])))).
  cbn [ignoreCase multiline indentPattern re before after].
  rewrite search_unfold, matcher_Seq, matcher_Bol by reflexivity.
  rewrite matcher_Group. cbn [matcher].
  destruct (startsWith (lit "    ") line) eqn:E4.
  - apply startsWith_spec in E4. destruct E4 as (rest & ->).
    rewrite matcher_Lit. reflexivity.
  - rewrite (matcher_Lit_fail false _ _ _ _ _ E4).
    destruct (startsWith [TAB] line) eqn:Et.
    + apply startsWith_spec in Et. destruct Et as (rest & ->).
      change (Chr TAB) with (Lit [TAB]). rewrite matcher_Lit. reflexivity.
    + change (Chr TAB) with (Lit [TAB]).
      rewrite (matcher_Lit_fail false _ _ _ _ _ Et).
      destruct line as [|x xs]; [reflexivity|].
      rewrite search_bol_later by discriminate. reflexivity.
Qed.

Lemma indentPattern_indented line :
  test indentPattern line = true <-> indentedLine line.
Proof.
  rewrite indentPattern_test, orb_true_iff, !startsWith_spec.
  unfold indentedLine. split.
  - intros [(rest & ->) | (rest & ->)]; exists rest; auto.
  - intros (rest & [-> | ->]); [left | right]; exists rest; reflexivity.
Qed.

(** A run starts with an indented line and goes on with indented or blank
    lines. *)
Lemma runsFrom_indented lines : forall i current start run,
  (current <> [] ->
   (exists l ls, current = l :: ls /\ indentedLine l)
   /\ Forall (fun l => indentedLine l \/ trim l = []) current) ->
  In run (runsFrom lines i current start) ->
  snd run <> [] ->
  (exists l ls, snd run = l :: ls /\ indentedLine l)
  /\ Forall (fun l => indentedLine l \/ trim l = []) (snd run).
Proof.
  induction lines as [|line rest IH]; intros i current start run Inv Hin Hne;
    simpl in Hin.
  - destruct Hin as [<- | []]. simpl in *. apply Inv, Hne.
  - destruct (continuesRun line (mkScan [] current start)) eqn:C.
    + eapply IH; [|exact Hin|exact Hne]. intros _.
      unfold continuesRun in C. simpl currentBlock in C.
      destruct current as [|l0 ls0].
      * simpl in C. rewrite andb_false_r, orb_false_r in C.
        apply indentPattern_indented in C. simpl. split.
        -- exists line, []. auto.
        -- constructor; [now left | constructor].
      * destruct Inv as [(l & ls & E & Hl) Hall]; [discriminate|].
        inversion E; subst. split.
        -- exists l, (ls ++ [line]). auto.
        -- apply Forall_app. split; [exact Hall|].
           constructor; [|constructor].
           apply orb_true_iff in C. destruct C as [C | C].
           ++ left. apply indentPattern_indented, C.
           ++ right. apply andb_prop in C. destruct C as [C _].
              apply negb_true_iff, truthy_false in C. exact C.
    + destruct Hin as [<- | Hin].
      * simpl in *. apply Inv, Hne.
      * eapply IH; [|exact Hin|exact Hne]. congruence.
Qed.

(** X9: an indented block comes from consecutive lines of the text, more
    than 3 of them, the first of which begins with four spaces or a tab
    and each of which begins so or is blank. *)
Theorem indented_block_lines (content : str) (b : CodeBlock.t) :
  In b (extractIndentedCodeBlocks content) ->
  exists start first others,
    firstn (length (first :: others)) (skipn start (split_nl content))
    = first :: others
    /\ 3 < length (first :: others)
    /\ indentedLine first
    /\ Forall (fun l => indentedLine l \/ trim l = []) others
    /\ b = CodeBlock.new (trim (join_nl (first :: others))) None start.
Proof.
  intros Hb. apply indented_block_inv in Hb.
  destruct Hb as (start & run & Hr & H3 & _ & Hl & Eb).
  destruct (@runsFrom_indented (split_nl content) 0 [] 0 (start, run))
    as [(l & ls & E & Hfirst) Hall]; auto; try congruence.
  { simpl. destruct run; [simpl in H3; lia | discriminate]. }
  simpl in E. subst run. exists start, l, ls.
  inversion Hall; subst. repeat split; auto.
Qed.

Lemma indented_block_lines_witness :
  exists start first others,
    firstn (length (first :: others)) (skipn start (split_nl indentedFirst))
    = first :: others
    /\ 3 < length (first :: others)
    /\ indentedLine first
    /\ Forall (fun l => indentedLine l \/ trim l = []) others
    /\ CodeBlock.new
         (lit "total = compute(items)" ++ [NL]
          ++ lit "    if (total > limit) {" ++ [NL]
          ++ lit "        report(total);" ++ [NL]
          ++ lit "    }") None 0
       = CodeBlock.new (trim (join_nl (first :: others))) None start.
Proof.
  apply (@indented_block_lines indentedFirst).
  vm_compute. left. reflexivity.
Defined.

Lemma sorted_pairs (A : Type) (R : A -> A -> Prop) l :
  StronglySorted R l ->
  forall a b, In a l -> In b l -> a = b \/ R a b \/ R b a.
Proof.
  induction 1 as [|x l Hs IH Hx]; intros a b Ha Hb; [contradiction|].
  rewrite Forall_forall in Hx.
  destruct Ha as [<- | Ha], Hb as [<- | Hb]; auto.
Qed.

(** X10: two different blocks of the indented scanner start at least five
    lines apart, so that neither is taken for a duplicate of the other,
    whatever their contents. *)
Theorem indented_blocks_five_lines_apart (content : str) (a b : CodeBlock.t) :
  In a (extractIndentedCodeBlocks content) ->
  In b (extractIndentedCodeBlocks content) ->
  a <> b ->
  (CodeBlock.startLine a + 5 <= CodeBlock.startLine b
   \/ CodeBlock.startLine b + 5 <= CodeBlock.startLine a)
  /\ overlaps a b = false /\ overlaps b a = false.
Proof.
  intros Ha Hb Hne.
  destruct (sorted_pairs (extractIndentedCodeBlocks_spaced content) a b Ha Hb)
    as [E | [S | S]]; [contradiction | |];
    (split; [unfold spaced in S; auto|]);
    unfold overlaps, absDiff, spaced in *;
    split;
    (replace (Nat.ltb _ 5) with false;
     [reflexivity | symmetry; apply Nat.ltb_ge; lia]).
Qed.

Lemma indented_blocks_five_lines_apart_witness :
  (CodeBlock.startLine (CodeBlock.new (trim (join_nl firstRun)) None 0) + 5
   <= CodeBlock.startLine (CodeBlock.new (trim (join_nl secondRun)) None 5)
   \/ CodeBlock.startLine (CodeBlock.new (trim (join_nl secondRun)) None 5) + 5
      <= CodeBlock.startLine (CodeBlock.new (trim (join_nl firstRun)) None 0))
  /\ overlaps (CodeBlock.new (trim (join_nl firstRun)) None 0)
              (CodeBlock.new (trim (join_nl secondRun)) None 5) = false
  /\ overlaps (CodeBlock.new (trim (join_nl secondRun)) None 5)
              (CodeBlock.new (trim (join_nl firstRun)) None 0) = false.
Proof.
  apply (@indented_blocks_five_lines_apart twoRuns).
  - vm_compute. left. reflexivity.
  - vm_compute. right. left. reflexivity.
  - intros H. apply (f_equal CodeBlock.startLine) in H. discriminate.
Defined.

(** ** More on topic names *)

Lemma collapseFrom_chars (P : char -> Prop) s : forall inRun,
  P (ch "_") ->
  Forall (fun c => isWhiteSpace c = true \/ P c) s ->
  Forall P (collapseFrom inRun s).
Proof.
  intros inRun Hu. revert inRun.
  induction s as [|c s IH]; intros inRun H; simpl; [constructor|].
  inversion H; subst.
  destruct (isWhiteSpace c) eqn:E.
  - destruct inRun; [apply IH; assumption|].
    constructor; [exact Hu | apply IH; assumption].
  - constructor; [|apply IH; assumption].
    destruct H2 as [H2 | H2]; [congruence | exact H2].
Qed.

Lemma Forall_occursIn (P : char -> Prop) p s :
  occursIn p s -> Forall P s -> Forall P p.
Proof.
  intros (a & b & ->) H. apply Forall_app in H. destruct H as [_ H].
  apply Forall_app in H. tauto.
Qed.

Lemma topicText_chars text :
  length (topicText text) <= 50
  /\ Forall (fun c => isTopicChar c = true) (topicText text).
Proof.
  unfold topicText. split; [apply firstn_le_length|].
  apply Forall_forall. intros x Hx. apply In_firstn in Hx. revert x Hx.
  apply Forall_forall. unfold collapseSpaces.
  apply collapseFrom_chars; [reflexivity|].
  eapply Forall_occursIn; [apply occursIn_trim|].
  apply Forall_forall. intros c Hc. apply filter_In in Hc.
  destruct Hc as [_ Hk]. unfold keepsTopicChar in Hk. unfold isTopicChar.
  destruct (isWhiteSpace c); [now left | right].
  rewrite orb_false_r in Hk. exact Hk.
Qed.

(** X11: a topic taken from a heading or from a [Title:] or [Subject:]
    line has at most 50 characters, all of them word characters or
    hyphens: it holds no white space, no slash and no dot. *)
Theorem topic_from_title_is_clean (fileName content : str) :
  firstTitle titlePatterns content <> None ->
  length (generateTopicName fileName content) <= 50
  /\ Forall (fun c => isTopicChar c = true)
            (generateTopicName fileName content).
Proof.
  intros H. rewrite generateTopicName_refines.
  destruct (firstTitle titlePatterns content) as [text|]; [|congruence].
  apply topicText_chars.
Qed.

Lemma topic_from_title_is_clean_witness :
  length (generateTopicName (lit "notes.md") sampleDocument) <= 50
  /\ Forall (fun c => isTopicChar c = true)
            (generateTopicName (lit "notes.md") sampleDocument).
Proof.
  apply (@topic_from_title_is_clean (lit "notes.md") sampleDocument).
  vm_compute. discriminate.
Defined.

(** X12: when the text of the first matching title has nothing to keep but
    white space (only punctuation, say), the topic is the empty text: the
    name of the file is not used then. *)
Theorem topic_of_unusable_title_is_empty (fileName content text : str) :
  firstTitle titlePatterns content = Some text ->
  forallb (fun c => negb (keepsTopicChar c) || isWhiteSpace c) text = true ->
  generateTopicName fileName content = [].
Proof.
  intros Ht Hall. rewrite generateTopicName_refines, Ht. unfold topicText.
  assert (E : trim (filter keepsTopicChar text) = []).
  { apply trim_nil. apply forallb_forall. intros c Hc.
    apply filter_In in Hc. destruct Hc as [Hc Hk].
    rewrite forallb_forall in Hall. specialize (Hall c Hc).
    rewrite Hk in Hall. exact Hall. }
  rewrite E. reflexivity.
Qed.

Lemma topic_of_unusable_title_is_empty_witness :
  generateTopicName (lit "notes.md") (lit "# !!!") = [].
Proof.
  apply (@topic_of_unusable_title_is_empty (lit "notes.md") (lit "# !!!")
           (lit "!!!")).
  - vm_compute. reflexivity.
  - vm_compute. reflexivity.
Defined.

Lemma removeExtension_no_dot fileName :
  ~ In (ch ".") fileName -> removeExtension fileName = fileName.
Proof.
  intros H. unfold removeExtension.
  destruct (takeWhile isExtChar (rev fileName)) as [|t ts]; [reflexivity|].
  destruct (dropWhile isExtChar (rev fileName)) as [|d base] eqn:D;
    [reflexivity|].
  destruct (chr "." d) eqn:C; [|reflexivity].
  exfalso. apply H. apply N.eqb_eq in C. subst d.
  apply in_rev. rewrite (takeWhile_dropWhile isExtChar (rev fileName)), D.
  apply in_or_app. right. now left.
Qed.

Lemma removeExtension_trailing_dot base :
  removeExtension (base ++ [ch "."]) = base ++ [ch "."].
Proof.
  unfold removeExtension. rewrite rev_app_distr. reflexivity.
Qed.

(** X13: when no title pattern matches, the topic is the name of the file
    without its last dot and what follows it, provided something without a
    slash follows; a name without a dot or with a final dot is kept whole;
    and [unknown_topic] stands in for what would be empty, as for a name
    like [.md]. *)
Theorem topic_from_file_name (fileName content : str) :
  firstTitle titlePatterns content = None ->
  (forall base ext,
     fileName = base ++ ch "." :: ext ->
     ext <> [] -> forallb isExtChar ext = true ->
     generateTopicName fileName content
     = match base with [] => lit "unknown_topic" | _ => base end)
  /\ (~ In (ch ".") fileName ->
      generateTopicName fileName content
      = match fileName with [] => lit "unknown_topic" | _ => fileName end)
  /\ (forall base,
        fileName = base ++ [ch "."] ->
        generateTopicName fileName content = fileName).
Proof.
  intros Ht. rewrite generateTopicName_refines, Ht. repeat split.
  - intros base ext -> Hne Hext.
    rewrite removeExtension_suffix by assumption. destruct base; reflexivity.
  - intros Hd. rewrite removeExtension_no_dot by assumption.
    destruct fileName; reflexivity.
  - intros base ->. rewrite removeExtension_trailing_dot.
    destruct base; reflexivity.
Qed.

Lemma topic_from_file_name_witness :
  generateTopicName (lit "meeting.notes.md") (lit "no title here")
  = lit "meeting.notes".
Proof.
  refine (proj1 (@topic_from_file_name (lit "meeting.notes.md")
                   (lit "no title here") _)
                (lit "meeting.notes") (lit "md") _ _ _).
  - vm_compute. reflexivity.
  - reflexivity.
  - discriminate.
  - reflexivity.
Defined.

(** ** The statistics *)

Lemma existsb_str_eqb x s : existsb (str_eqb x) s = true <-> In x s.
Proof.
  rewrite existsb_exists. split.
  - intros (y & Hy & E). apply str_eqb_eq in E. now subst.
  - intros H. exists x. split; [exact H | now apply str_eqb_eq].
Qed.

Lemma setAdd_In x s y : In y (setAdd x s) <-> y = x \/ In y s.
Proof.
  unfold setAdd. destruct (existsb (str_eqb x) s) eqn:E.
  - apply existsb_str_eqb in E. split; [auto | intros [-> | H]; auto].
  - rewrite in_app_iff. simpl. split.
    + intros [H | [<- | []]]; auto.
    + intros [-> | H]; auto.
Qed.

Lemma setAdd_NoDup x s : NoDup s -> NoDup (setAdd x s).
Proof.
  intros H. unfold setAdd. destruct (existsb (str_eqb x) s) eqn:E; [exact H|].
  assert (~ In x s) by (rewrite <- existsb_str_eqb; congruence).
  apply NoDup_app; try assumption.
  - repeat constructor. intros [].
  - intros y Hy [<- | []]. contradiction.
Qed.

Lemma filesLoop_languages {engine : Engine} blocks : forall i acc st,
  languagesDetected (snd (filesLoop blocks i acc st))
  = fold_left (fun s b => setAdd (CodeBlock.language b) s) blocks
              (languagesDetected st).
Proof.
  induction blocks as [|b rest IH]; intros i acc st; simpl; [reflexivity|].
  rewrite IH. reflexivity.
Qed.

Lemma fold_setAdd_In (A : Type) (f : A -> str) l : forall s y,
  In y (fold_left (fun s b => setAdd (f b) s) l s)
  <-> In y s \/ In y (map f l).
Proof.
  induction l as [|b l IH]; intros s y; simpl; [tauto|].
  rewrite IH, setAdd_In. intuition (subst; auto).
Qed.

Lemma fold_setAdd_NoDup (A : Type) (f : A -> str) l : forall s,
  NoDup s -> NoDup (fold_left (fun s b => setAdd (f b) s) l s).
Proof.
  induction l as [|b l IH]; intros s H; simpl; [exact H|].
  apply IH, setAdd_NoDup, H.
Qed.

Lemma filesFrom_languages {engine : Engine} blocks : forall i,
  map fileLanguage (filesFrom i blocks) = map CodeBlock.language blocks.
Proof. induction blocks; intros i; simpl; [reflexivity | now rewrite IHblocks]. Qed.

(** What [processFile] returns and does to the statistics, case by case. *)
Lemma processFile_cases {engine : Engine} now st file :
  processFile now st file
  = match text file with
    | None =>
        (Error (lit "Failed to process file: " ++ lit "Failed to read file"),
         st)
    | Some content =>
        match extractCodeBlocks content with
        | [] => (Message (lit "No code blocks found"), st)
        | _ :: _ =>
            (Extracted (generateTopicName (name file) content)
               (length (extractCodeBlocks content))
               (filesFrom 0 (extractCodeBlocks content))
               (mkMetadata (name file)
                  (generateTopicName (name file) content)
                  (length (extractCodeBlocks content))
                  (map codeFileOf (filesFrom 0 (extractCodeBlocks content)))
                  now),
             mkStats (filesProcessed st + 1)
               (codeBlocksFound st + length (extractCodeBlocks content))
               (fold_left (fun s b => setAdd (CodeBlock.language b) s)
                          (extractCodeBlocks content) (languagesDetected st))
               (setAdd (generateTopicName (name file) content)
                       (topicsCreated st)))
        end
    end.
Proof.
  destruct (text file) as [content|] eqn:Ht.
  - rewrite (processFile_readable now st file Ht).
    destruct (extractCodeBlocks content) as [|b bs] eqn:E; [reflexivity|].
    change (Nat.eqb (length (b :: bs)) 0) with false. cbv iota zeta.
    rewrite filesLoop_files, filesLoop_languages. rewrite app_nil_l.
    destruct (filesLoop_counters (b :: bs) 0 [] st) as (H1 & H2 & H3).
    rewrite H1, H2, H3. reflexivity.
  - unfold processFile, readFileAsText. rewrite Ht. reflexivity.
Qed.

Lemma processFile_effect {engine : Engine}
  (now : str) (st : Stats) (file : File) :
  let r := fst (processFile now st file) in
  let st' := snd (processFile now st file) in
  (forall st0, fst (processFile now st0 file) = r)
  /\ blocksExtractedOf r = length (filesOf r)
  /\ filesProcessed st' = filesProcessed st + (if hasFiles r then 1 else 0)
  /\ codeBlocksFound st' = codeBlocksFound st + length (filesOf r)
  /\ (forall l, In l (languagesDetected st')
                <-> In l (languagesDetected st)
                    \/ In l (map fileLanguage (filesOf r)))
  /\ (forall t, In t (topicsCreated st')
                <-> In t (topicsCreated st)
                    \/ (hasFiles r = true /\ t = topicOf r))
  /\ (NoDup (languagesDetected st) -> NoDup (languagesDetected st'))
  /\ (NoDup (topicsCreated st) -> NoDup (topicsCreated st'))
  /\ (hasFiles r = false -> st' = st).
Proof.
  intros r st'.
  assert (Indep : forall st0, fst (processFile now st0 file) = r).
  { intros st0. subst r. rewrite !processFile_cases.
    destruct (text file) as [content|]; [|reflexivity].
    destruct (extractCodeBlocks content); reflexivity. }
  split; [exact Indep|]. clear Indep.
  subst r st'. rewrite processFile_cases.
  destruct (text file) as [content|].
  - destruct (extractCodeBlocks content) as [|b bs] eqn:E.
    + simpl. repeat split; auto; try tauto; try lia.
      intros [H | [H _]]; [exact H | discriminate].
    + rewrite <- E.
      assert (Hpos : Nat.ltb 0 (length (filesFrom 0 (extractCodeBlocks content)))
                     = true).
      { apply Nat.ltb_lt. rewrite filesFrom_length, E. simpl. lia. }
      cbn [fst snd blocksExtractedOf filesOf hasFiles topicOf
           filesProcessed codeBlocksFound languagesDetected topicsCreated].
      rewrite Hpos, filesFrom_length, filesFrom_languages.
      split; [reflexivity|]. split; [reflexivity|]. split; [reflexivity|].
      split; [intros l; apply fold_setAdd_In|].
      split.
      { intros t. rewrite setAdd_In. split.
        - intros [-> | H]; auto.
        - intros [H | [_ ->]]; auto. }
      split; [apply fold_setAdd_NoDup|].
      split; [apply setAdd_NoDup | discriminate].
  - simpl. repeat split; auto; try tauto; try lia.
    intros [H | [H _]]; [exact H | discriminate].
Qed.

(** X14: processing a file gives a result that does not depend on the
    statistics; a result with files adds 1 to [filesProcessed] and the
    number of its files, which is its [blocksExtracted], to
    [codeBlocksFound], puts its topic among [topicsCreated] and the
    languages of its files among [languagesDetected]; any other result
    leaves the statistics as they are.  Nothing is ever taken out of the
    two sets, and they stay free of duplicates. *)
Theorem processFile_statistics {engine : Engine}
  (now : str) (st : Stats) (file : File) :
  let r := fst (processFile now st file) in
  let st' := snd (processFile now st file) in
  (forall st0, fst (processFile now st0 file) = r)
  /\ blocksExtractedOf r = length (filesOf r)
  /\ filesProcessed st' = filesProcessed st + (if hasFiles r then 1 else 0)
  /\ codeBlocksFound st' = codeBlocksFound st + length (filesOf r)
  /\ (forall l, In l (languagesDetected st')
                <-> In l (languagesDetected st)
                    \/ In l (map fileLanguage (filesOf r)))
  /\ (forall t, In t (topicsCreated st')
                <-> In t (topicsCreated st)
                    \/ (hasFiles r = true /\ t = topicOf r))
  /\ (NoDup (languagesDetected st) -> NoDup (languagesDetected st'))
  /\ (NoDup (topicsCreated st) -> NoDup (topicsCreated st'))
  /\ (hasFiles r = false -> st' = st).
Proof. apply processFile_effect. Qed.


(** ** The batch run *)

Lemma processFile_topics {engine : Engine} now st file :
  topicsCreated (snd (processFile now st file))
  = if hasFiles (fst (processFile now st file))
    then setAdd (topicOf (fst (processFile now st file))) (topicsCreated st)
    else topicsCreated st.
Proof.
  rewrite processFile_cases.
  destruct (text file) as [content|]; [|reflexivity].
  destruct (extractCodeBlocks content) as [|b bs] eqn:E; [reflexivity|].
  rewrite <- E. cbn [fst snd hasFiles topicOf topicsCreated].
  replace (Nat.ltb 0 (length (filesFrom 0 (extractCodeBlocks content))))
    with true; [reflexivity|].
  symmetry. apply Nat.ltb_lt. rewrite filesFrom_length, E. simpl. lia.
Qed.

Lemma processLoop_spec {engine : Engine}
  clock files : forall i st results details,
  let out := processLoop clock i files st results details in
  let news := resultsFrom clock i files in
  snd (fst out) = results ++ news
  /\ length (snd out) = length details + 2 * length files
  /\ filesProcessed (fst (fst out))
     = filesProcessed st + length (filter (fun r => hasFiles (snd r)) news)
  /\ codeBlocksFound (fst (fst out))
     = codeBlocksFound st + length (flat_map (fun r => filesOf (snd r)) news)
  /\ topicsCreated (fst (fst out))
     = fold_left (fun s x => setAdd x s)
         (map (fun r => topicOf (snd r))
              (filter (fun r => hasFiles (snd r)) news))
         (topicsCreated st)
  /\ (forall l, In l (languagesDetected (fst (fst out)))
                <-> In l (languagesDetected st)
                    \/ In l (map fileLanguage
                               (flat_map (fun r => filesOf (snd r)) news)))
  /\ (NoDup (languagesDetected st) ->
      NoDup (languagesDetected (fst (fst out)))).
Proof.
  induction files as [|file rest IH]; intros i st results details; cbv zeta.
  - simpl. rewrite app_nil_r. repeat split; auto; try lia; try tauto.
  - cbn [processLoop resultsFrom].
    destruct (processFile_effect (clock i) st file)
      as (Indep & Hn & Hf & Hc & Hl & _ & Hnd & _ & _).
    pose proof (processFile_topics (clock i) st file) as Ht.
    rewrite <- (Indep reset) in *.
    destruct (processFile (clock i) st file) as [r st1] eqn:E.
    cbn [fst snd] in *.
    set (r0 := fst (processFile (clock i) reset file)) in *.
    assert (Er : r = r0) by (symmetry; exact (Indep reset)).
    subst r.
    specialize (IH (S i) st1 (results ++ [(name file, r0)])
                  ((details ++
                    [[55357%N; 56513%N; 32%N] ++ lit "Processing file: "
                     ++ name file]) ++ [resultDetail r0])).
    cbv zeta in IH.
    destruct IH as (I1 & I2 & I3 & I4 & I5 & I6 & I7).
    split; [rewrite I1, <- app_assoc; reflexivity|].
    split; [rewrite I2, !length_app; simpl; lia|].
    cbn [filter flat_map map snd].
    split.
    { rewrite I3, Hf. destruct (hasFiles r0); simpl; lia. }
    split.
    { rewrite I4, Hc, length_app. lia. }
    split.
    { rewrite I5, Ht. destruct (hasFiles r0); reflexivity. }
    split.
    { intros l. rewrite I6, Hl, map_app, in_app_iff. tauto. }
    intros H. apply I7, Hnd, H.
Qed.

Lemma resultsFrom_names {engine : Engine} clock files : forall i,
  map fst (resultsFrom clock i files) = map name files.
Proof.
  induction files as [|f rest IH]; intros i; simpl; [reflexivity|].
  now rewrite IH.
Qed.

(** X15: a run over a non-empty selection resets the statistics and gives
    one result per selected file, in the order of the selection, each being
    what [processFile] gives for that file alone (a file that cannot be
    read or has no block changes nothing for the others).  After the run
    [filesProcessed] is the number of results with files (not the number of
    files), [codeBlocksFound] the number of extracted files in all,
    [topicsCreated] the topics of the results with files in the order of
    their first occurrence, and [languagesDetected] the languages of the
    extracted files; two lines of progress are written per file. *)
Theorem processFiles_batch {engine : Engine} (clock : nat -> str) (app : App) :
  selectedFiles app <> [] ->
  let results := resultsFrom clock 0 (map snd (selectedFiles app)) in
  let withFiles := filter (fun r => hasFiles (snd r)) results in
  exists st details,
    processFiles clock app
    = (mkApp st (outputName app) (selectedFiles app) (Some results),
       Progress details)
    /\ map fst results = map (fun kv => name (snd kv)) (selectedFiles app)
    /\ length details = 2 * length (selectedFiles app)
    /\ filesProcessed st = length withFiles
    /\ codeBlocksFound st
       = length (flat_map (fun r => filesOf (snd r)) results)
    /\ topicsCreated st
       = firstOccurrences (map (fun r => topicOf (snd r)) withFiles)
    /\ (forall l, In l (languagesDetected st)
                  <-> In l (map fileLanguage
                              (flat_map (fun r => filesOf (snd r)) results)))
    /\ NoDup (languagesDetected st)
    /\ NoDup (topicsCreated st).
Proof.
  intros Hne results withFiles. unfold processFiles.
  destruct (selectedFiles app) as [|kv sel] eqn:Es; [congruence|].
  change (Nat.eqb (length (kv :: sel)) 0) with false. cbv iota.
  destruct (processLoop_spec clock (map snd (kv :: sel)) 0 reset [] [])
    as (H1 & H2 & H3 & H4 & H5 & H6 & H7).
  destruct (processLoop clock 0 (map snd (kv :: sel)) reset [] [])
    as [[st res] details] eqn:E.
  cbn [fst snd] in *. rewrite app_nil_l in H1. subst res.
  exists st, details. fold results. 
  split; [reflexivity|].
  split; [unfold results; rewrite resultsFrom_names, map_map; reflexivity|].
  split; [rewrite H2, length_map; simpl; lia|].
  split; [rewrite H3; reflexivity|].
  split; [rewrite H4; reflexivity|].
  split; [rewrite H5; reflexivity|].
  split; [intros l; rewrite H6; simpl; tauto|].
  split; [apply H7; constructor|].
  rewrite H5. apply fold_setAdd_NoDup with (f := fun x : str => x). constructor.
Qed.

Lemma processFiles_batch_witness :
  exists st details,
    processFiles (engine := v8) (fun _ => []) sampleApp
    = (mkApp st (outputName sampleApp) (selectedFiles sampleApp)
             (Some (resultsFrom (engine := v8) (fun _ => []) 0
                      (map snd (selectedFiles sampleApp)))),
       Progress details)
    /\ filesProcessed st = 1
    /\ codeBlocksFound st = 2.
Proof.
  destruct (@processFiles_batch v8 (fun _ => []) sampleApp)
    as (st & details & E & _ & _ & Hf & Hc & _); [discriminate|].
  exists st, details. split; [exact E|]. split.
  - rewrite Hf. vm_compute. reflexivity.
  - rewrite Hc. vm_compute. reflexivity.
Defined.

(** ** File names *)

Lemma readDigits_uint d : forall acc rest,
  stops isDigit rest ->
  readDigits acc (lit (DecimalString.NilEmpty.string_of_uint d) ++ rest)
  = Nat.of_uint_acc d acc.
Proof.
  induction d; intros acc rest Hr; cbn [DecimalString.NilEmpty.string_of_uint
                                        Nat.of_uint_acc];
    try (change (lit (String ?c ?s)) with (N_of_ascii c :: lit s));
    [ destruct rest as [|y ys]; [reflexivity | simpl in *; now rewrite Hr]
    | .. ];
    unfold lit; cbn [list_ascii_of_string map app readDigits];
    fold (lit (DecimalString.NilEmpty.string_of_uint d));
    (match goal with
     | |- context [isDigit ?c] => change (isDigit c) with true
     end);
    cbv iota; rewrite IHd by exact Hr; f_equal;
    rewrite Nat.tail_mul_spec; vm_compute N.to_nat; lia.
Qed.

Lemma readDigits_natToString n rest :
  stops isDigit rest -> readDigits 0 (natToString n ++ rest) = n.
Proof.
  intros Hr. unfold natToString, DecimalString.NilZero.string_of_uint.
  rewrite <- (DecimalNat.Unsigned.of_to n) at 2.
  destruct (Nat.to_uint n) eqn:E;
    try (rewrite readDigits_uint by exact Hr; reflexivity).
  simpl. destruct rest as [|y ys]; [reflexivity|].
  simpl in Hr. simpl. now rewrite Hr.
Qed.

Lemma readDigits_zeros k s : readDigits 0 (repeat (ch "0") k ++ s) = readDigits 0 s.
Proof. induction k; simpl; auto. Qed.

(** The number of a file name is the index it was made with. *)
Lemma indexOfName_fileNameOf {engine : Engine}
  index b : indexOfName (fileNameOf index b) = index.
Proof.
  unfold indexOfName, fileNameOf.
  destruct (truthy (CodeBlock.language b)
            && negb (str_eqb (CodeBlock.language b) (lit "txt")));
    change (skipn 5 (lit "code_" ++ ?x)) with x;
    unfold padStart0; rewrite <- app_assoc, readDigits_zeros;
    apply readDigits_natToString; reflexivity.
Qed.

Lemma filesFrom_indexes {engine : Engine} blocks : forall i,
  map (fun f => indexOfName (fileName f)) (filesFrom i blocks)
  = seq (i + 1) (length blocks).
Proof.
  induction blocks as [|b rest IH]; intros i; simpl; [reflexivity|].
  rewrite indexOfName_fileNameOf, IH. repeat (f_equal; try lia).
Qed.

(** X16: the files of a result have pairwise different names: the name of
    the file at index [i] carries the number [i + 1] after [code_],
    written with at least two digits. *)
Theorem file_names_are_distinct {engine : Engine}
  (now : str) (st st' : Stats) (file : File)
  (topic : str) (n : nat) (files : list ExtractedFile) (metadata : Metadata) :
  processFile now st file = (Extracted topic n files metadata, st') ->
  NoDup (map fileName files)
  /\ map (fun f => indexOfName (fileName f)) files = seq 1 (length files)
  /\ map cfFileName (codeFiles metadata) = map fileName files.
Proof.
  intros H. rewrite processFile_cases in H.
  destruct (text file) as [content|]; [|discriminate].
  destruct (extractCodeBlocks content) as [|b bs] eqn:E; [discriminate|].
  rewrite <- E in H. inversion H; subst; clear H.
  assert (Hi : map (fun f => indexOfName (fileName f))
                   (filesFrom 0 (extractCodeBlocks content))
               = seq 1 (length (filesFrom 0 (extractCodeBlocks content)))).
  { rewrite filesFrom_indexes, filesFrom_length. reflexivity. }
  split; [|split; [exact Hi|]].
  - apply (NoDup_map_inv indexOfName). rewrite map_map, Hi. apply seq_NoDup.
  - simpl. rewrite map_map. reflexivity.
Qed.

Lemma file_names_are_distinct_witness :
  NoDup (map fileName (filesFrom (engine := v8) 0 (blocksOf sampleFile))).
Proof.
  eapply (fun H => proj1 (@file_names_are_distinct v8 [] reset _ sampleFile
                            _ _ (filesFrom (engine := v8) 0 (blocksOf sampleFile)) _ H)).
  vm_compute. reflexivity.
Defined.

(** ** The map of the selection *)

Lemma mapHas_In (V : Type) k (m : list (str * V)) :
  mapHas k m = true <-> In k (map fst m).
Proof.
  unfold mapHas. rewrite existsb_exists, in_map_iff. split.
  - intros (kv & H & E). apply str_eqb_eq in E. exists kv. auto.
  - intros (kv & E & H). exists kv. split; [exact H | now apply str_eqb_eq].
Qed.

Lemma mapHas_keys (V : Type) k (m : list (str * V)) :
  mapHas k m = existsb (str_eqb k) (map fst m).
Proof.
  apply eq_true_iff_eq. rewrite mapHas_In, existsb_str_eqb. reflexivity.
Qed.

Lemma mapGet_has (V : Type) k (m : list (str * V)) :
  mapHas k m = false <-> mapGet k m = None.
Proof.
  induction m as [|[k0 w] m IH]; simpl; [tauto|].
  destruct (str_eqb k0 k); simpl; [split; discriminate | exact IH].
Qed.

Lemma mapSet_keys (V : Type) k (v : V) m :
  map fst (mapSet k v m)
  = if mapHas k m then map fst m else map fst m ++ [k].
Proof.
  induction m as [|[k0 w] m IH]; simpl; [reflexivity|].
  destruct (str_eqb k0 k) eqn:E; simpl; [reflexivity|].
  rewrite IH. destruct (mapHas k m); reflexivity.
Qed.

Lemma mapSet_fresh (V : Type) k (v : V) m :
  mapHas k m = false -> mapSet k v m = m ++ [(k, v)].
Proof.
  induction m as [|[k0 w] m IH]; simpl; [reflexivity|].
  destruct (str_eqb k0 k); simpl; [discriminate|].
  intros H. now rewrite IH.
Qed.

Lemma mapHas_mapSet (V : Type) k (v : V) m : mapHas k (mapSet k v m) = true.
Proof.
  apply mapHas_In. rewrite mapSet_keys.
  destruct (mapHas k m) eqn:E; [now apply mapHas_In|].
  apply in_or_app. right. left. reflexivity.
Qed.

Lemma str_eqb_refl a : str_eqb a a = true.
Proof. now apply str_eqb_eq. Qed.

Lemma mapGet_mapSet (V : Type) k (v : V) m k' :
  mapGet k' (mapSet k v m) = if str_eqb k k' then Some v else mapGet k' m.
Proof.
  induction m as [|[k0 w] m IH]; simpl; [reflexivity|].
  destruct (str_eqb k0 k) eqn:E; simpl.
  - apply str_eqb_eq in E. subst k0. destruct (str_eqb k k'); reflexivity.
  - destruct (str_eqb k0 k') eqn:E'; [|exact IH].
    destruct (str_eqb k k') eqn:E''; [|reflexivity].
    apply str_eqb_eq in E', E''. subst. rewrite str_eqb_refl in E.
    discriminate.
Qed.

Lemma mapDelete_absent (V : Type) k (m : list (str * V)) :
  mapHas k m = false -> mapDelete k m = m.
Proof.
  unfold mapDelete, mapHas.
  induction m as [|[k0 w] m IH]; simpl; [reflexivity|].
  destruct (str_eqb k0 k); simpl; [discriminate|].
  intros H. now rewrite IH.
Qed.

Lemma mapGet_mapDelete (V : Type) k (m : list (str * V)) k' :
  mapGet k' (mapDelete k m) = if str_eqb k k' then None else mapGet k' m.
Proof.
  unfold mapDelete.
  induction m as [|[k0 w] m IH]; simpl; [destruct (str_eqb k k'); reflexivity|].
  destruct (str_eqb k0 k) eqn:E; simpl.
  - apply str_eqb_eq in E. subst k0. rewrite IH.
    destruct (str_eqb k k'); reflexivity.
  - destruct (str_eqb k0 k') eqn:E'; [|exact IH].
    destruct (str_eqb k k') eqn:E''; [|reflexivity].
    apply str_eqb_eq in E', E''. subst. rewrite str_eqb_refl in E.
    discriminate.
Qed.

(** ** addFiles *)

Lemma selectFile_keys sel f :
  map fst (selectFile sel f) = setAdd (name f) (map fst sel).
Proof.
  unfold selectFile, setAdd. rewrite <- mapHas_keys.
  destruct (mapHas (name f) sel) eqn:E; simpl; [reflexivity|].
  rewrite mapSet_keys, E. reflexivity.
Qed.

Lemma fold_selectFile_keys files : forall sel,
  map fst (fold_left selectFile files sel)
  = fold_left (fun s f => setAdd (name f) s) files (map fst sel).
Proof.
  induction files as [|f fs IH]; intros sel; simpl; [reflexivity|].
  rewrite IH, selectFile_keys. reflexivity.
Qed.

Lemma selectFile_get sel f k :
  mapGet k (selectFile sel f)
  = match mapGet k sel with
    | Some g => Some g
    | None => if str_eqb (name f) k then Some f else None
    end.
Proof.
  unfold selectFile. destruct (mapHas (name f) sel) eqn:E; simpl.
  - destruct (mapGet k sel) eqn:G; [reflexivity|].
    destruct (str_eqb (name f) k) eqn:E'; [|reflexivity].
    apply str_eqb_eq in E'. subst k. apply mapGet_has in G. congruence.
  - rewrite mapGet_mapSet. destruct (str_eqb (name f) k) eqn:E'.
    + apply str_eqb_eq in E'. subst k. apply mapGet_has in E. now rewrite E.
    + destruct (mapGet k sel); reflexivity.
Qed.

Lemma fold_selectFile_get files : forall sel k,
  mapGet k (fold_left selectFile files sel)
  = match mapGet k sel with
    | Some g => Some g
    | None => find (fun f => str_eqb (name f) k) files
    end.
Proof.
  induction files as [|f fs IH]; intros sel k; simpl.
  - destruct (mapGet k sel); reflexivity.
  - rewrite IH, selectFile_get. destruct (mapGet k sel); [reflexivity|].
    destruct (str_eqb (name f) k); reflexivity.
Qed.

Lemma fold_selectFile_app files : forall sel,
  exists added, fold_left selectFile files sel = sel ++ added
                /\ incl (map snd added) files.
Proof.
  induction files as [|f fs IH]; intros sel; simpl.
  - exists []. rewrite app_nil_r. split; [reflexivity | intros x []].
  - destruct (IH (selectFile sel f)) as (added & E & Hi). rewrite E.
    unfold selectFile. destruct (mapHas (name f) sel) eqn:Eh; simpl.
    + exists added. split; [reflexivity|]. intros x Hx. right. now apply Hi.
    + rewrite mapSet_fresh by exact Eh. exists ((name f, f) :: added).
      rewrite <- app_assoc. split; [reflexivity|].
      intros x [<- | Hx]; [left; reflexivity | right; now apply Hi].
Qed.

Lemma filter_length_all (A : Type) (p : A -> bool) l :
  length (filter p l) = length l <-> forallb p l = true.
Proof.
  induction l as [|x l IH]; simpl; [tauto|].
  pose proof (filter_length_le p l) as Hle.
  destruct (p x); simpl.
  - rewrite <- IH. lia.
  - split; [lia | discriminate].
Qed.

Lemma splitDot_nonempty s : splitDot s <> [].
Proof.
  destruct s as [|c s]; cbn [splitDot]; [discriminate|].
  destruct (char_eqb c (ch ".")); [discriminate|].
  destruct (splitDot s); discriminate.
Qed.

Lemma splitDot_no_dot s : ~ In (ch ".") s -> splitDot s = [s].
Proof.
  induction s as [|c s IH]; cbn [splitDot]; intros H; [reflexivity|].
  destruct (char_eqb c (ch ".")) eqn:E.
  - apply N.eqb_eq in E. subst c. exfalso. apply H. left. reflexivity.
  - rewrite IH by (intros Hc; apply H; right; exact Hc). reflexivity.
Qed.

Lemma splitDot_app base : forall rest,
  splitDot (base ++ ch "." :: rest) = splitDot base ++ splitDot rest.
Proof.
  induction base as [|c base IH]; intros rest; [reflexivity|].
  cbn [app splitDot]. rewrite IH.
  destruct (char_eqb c (ch ".")); [reflexivity|].
  pose proof (splitDot_nonempty base) as Hn.
  destruct (splitDot base); [congruence | reflexivity].
Qed.

(** [split('.').pop()] is what follows the last dot. *)
Lemma splitDot_last base ext :
  ~ In (ch ".") ext -> last (splitDot (base ++ ch "." :: ext)) [] = ext.
Proof.
  intros H. rewrite splitDot_app, (@splitDot_no_dot ext H).
  apply last_last.
Qed.

Lemma includes_dot base ext : includes (base ++ ch "." :: ext) (lit ".") = true.
Proof. apply includes_spec. exists base, ext. reflexivity. Qed.

Lemma includes_no_dot s : ~ In (ch ".") s -> includes s (lit ".") = false.
Proof.
  intros H. destruct (includes s (lit ".")) eqn:E; [|reflexivity].
  apply includes_spec in E. destruct E as (pre & post & ->).
  exfalso. apply H. apply in_or_app. right. left. reflexivity.
Qed.

(** X17: which files [addFiles] accepts.  A file whose name has no dot is
    accepted.  A file whose name has a dot is accepted exactly when what
    follows the last dot is, in lower case, md, txt, log, rtf or text.
    The warning is shown exactly when some file was not accepted. *)
Theorem addFiles_accepts_text_files (toLowerCase : str -> str) :
  (forall file, ~ In (ch ".") (name file) ->
                isValidFile toLowerCase file = true)
  /\ (forall file base ext,
        name file = base ++ ch "." :: ext -> ~ In (ch ".") ext ->
        (isValidFile toLowerCase file = true
         <-> In (toLowerCase ext) textExtensions))
  /\ (forall files app,
        snd (addFiles toLowerCase files app) = true
        <-> exists file, In file files
                         /\ isValidFile toLowerCase file = false).
Proof.
  split; [|split].
  - intros file H. unfold isValidFile.
    rewrite includes_no_dot by exact H. apply orb_true_r.
  - intros file base ext E H. unfold isValidFile.
    rewrite E, splitDot_last, includes_dot by exact H.
    cbn [negb]. rewrite orb_false_r, existsb_str_eqb.
    change validExtensions with (map (cons (ch ".")) textExtensions).
    rewrite in_map_iff. split.
    + intros (x & Ex & Hx). inversion Ex. subst. exact Hx.
    + intros Hx. exists (toLowerCase ext). split; [reflexivity | exact Hx].
  - intros files app. unfold addFiles. cbn [snd].
    rewrite negb_true_iff, Nat.eqb_neq, filter_length_all.
    rewrite forallb_forall. split.
    + intros H.
      destruct (existsb (fun f => negb (isValidFile toLowerCase f)) files)
        eqn:Ex.
      * apply existsb_exists in Ex. destruct Ex as (f & Hf & Hv).
        exists f. split; [exact Hf|]. now apply negb_true_iff.
      * exfalso. apply H. intros f Hf.
        destruct (isValidFile toLowerCase f) eqn:Ev; [reflexivity|].
        assert (existsb (fun f => negb (isValidFile toLowerCase f)) files
                = true); [|congruence].
        apply existsb_exists. exists f. split; [exact Hf|]. now rewrite Ev.
    + intros (f & Hf & Hv) H. rewrite (H f Hf) in Hv. discriminate.
Qed.

Lemma addFiles_accepts_text_files_witness :
  isValidFile asciiLower upperCaseNotes = true
  /\ isValidFile asciiLower picture = false.
Proof.
  destruct (addFiles_accepts_text_files asciiLower) as (_ & H & _). split.
  - apply (H upperCaseNotes (lit "NOTES") (lit "MD")).
    + reflexivity.
    + simpl. intuition discriminate.
    + vm_compute. auto.
  - destruct (isValidFile asciiLower picture) eqn:E; [|reflexivity].
    apply (H picture (lit "photo") (lit "png")) in E.
    + vm_compute in E. intuition discriminate.
    + reflexivity.
    + simpl. intuition discriminate.
Defined.

(** X18: what [addFiles] does to the selection.  The files selected
    before stay where they are and what is new comes after them; a name
    already selected keeps its file, a new name gets the first accepted
    file of that name; the names are the old ones followed by the new
    ones in the order of their first occurrence, and no name is selected
    twice if none was. *)
Theorem addFiles_selection (toLowerCase : str -> str) (files : list File)
  (app : App) :
  NoDup (map fst (selectedFiles app)) ->
  let accepted := filter (isValidFile toLowerCase) files in
  let selected := selectedFiles (fst (addFiles toLowerCase files app)) in
  NoDup (map fst selected)
  /\ (exists added, selected = selectedFiles app ++ added
                    /\ incl (map snd added) accepted)
  /\ map fst selected
     = fold_left (fun s f => setAdd (name f) s) accepted
                 (map fst (selectedFiles app))
  /\ (forall k, mapGet k selected
                = match mapGet k (selectedFiles app) with
                  | Some f => Some f
                  | None => find (fun f => str_eqb (name f) k) accepted
                  end)
  /\ (forall f, In f accepted -> mapHas (name f) selected = true).
Proof.
  intros Hnd accepted selected. unfold selected, addFiles. cbn [fst selectedFiles].
  fold accepted.
  assert (Hk := fold_selectFile_keys accepted (selectedFiles app)).
  split; [rewrite Hk; apply fold_setAdd_NoDup; exact Hnd|].
  split; [apply fold_selectFile_app|].
  split; [exact Hk|].
  split; [intros k; apply fold_selectFile_get|].
  intros f Hf. apply mapHas_In. rewrite Hk. apply fold_setAdd_In.
  right. now apply in_map.
Qed.

Lemma addFiles_selection_witness :
  map fst (selectedFiles
             (fst (addFiles asciiLower [upperCaseNotes; picture; upperCaseNotes]
                            new)))
  = [lit "NOTES.MD"].
Proof.
  destruct (@addFiles_selection asciiLower
              [upperCaseNotes; picture; upperCaseNotes] new)
    as (_ & _ & H & _); [constructor|].
  rewrite H. vm_compute. reflexivity.
Defined.

(** X19: [removeFile] removes the file of that name and nothing else;
    it undoes the selection of a file whose name was not selected. *)
Theorem removeFile_selection (toLowerCase : str -> str) (app : App)
  (fileName : str) :
  (forall k, mapGet k (selectedFiles (removeFile fileName app))
             = if str_eqb fileName k then None
               else mapGet k (selectedFiles app))
  /\ (mapHas fileName (selectedFiles app) = false ->
      removeFile fileName app = app
      /\ forall file, name file = fileName ->
           removeFile fileName (fst (addFiles toLowerCase [file] app)) = app).
Proof.
  split.
  - intros k. apply mapGet_mapDelete.
  - intros H. destruct app as [st out sel res]. cbn [selectedFiles] in H.
    unfold removeFile, addFiles. cbn [fst stats outputName selectedFiles
                                      extractionResults].
    split; [now rewrite mapDelete_absent|].
    intros file <-. f_equal. cbn [filter].
    destruct (isValidFile toLowerCase file); cbn [fold_left].
    + unfold selectFile. rewrite H. cbn [negb].
      rewrite mapSet_fresh by exact H. unfold mapDelete.
      rewrite filter_app. fold (mapDelete (name file) sel).
      rewrite mapDelete_absent by exact H.
      cbn [filter fst]. rewrite str_eqb_refl. apply app_nil_r.
    + now apply mapDelete_absent.
Qed.

Lemma removeFile_selection_witness :
  removeFile (lit "NOTES.MD") (fst (addFiles asciiLower [upperCaseNotes] new))
  = new.
Proof.
  destruct (@removeFile_selection asciiLower new (lit "NOTES.MD")) as [_ H].
  destruct (H eq_refl) as [_ H'].
  exact (H' upperCaseNotes eq_refl).
Defined.

(** ** The groups of a topic *)

Lemma displayStep_keys g file r :
  map fst (displayStep g (file, r))
  = if hasFiles r then setAdd (topicOf r) (map fst g) else map fst g.
Proof.
  unfold displayStep, setAdd. rewrite <- mapHas_keys.
  destruct (hasFiles r); [|reflexivity].
  destruct (mapHas (topicOf r) g) eqn:E; cbn [negb].
  - destruct (mapGet (topicOf r) g) eqn:G; [|reflexivity].
    rewrite mapSet_keys, E. reflexivity.
  - rewrite mapGet_mapSet, str_eqb_refl, mapSet_keys, mapHas_mapSet,
      mapSet_keys, E. reflexivity.
Qed.

Lemma displayStep_get g file r t :
  hasFiles r = true ->
  mapGet t (displayStep g (file, r))
  = if str_eqb (topicOf r) t
    then Some (match mapGet (topicOf r) g with
               | Some group => group
               | None => []
               end ++ [(file, r)])
    else mapGet t g.
Proof.
  intros H. unfold displayStep. rewrite H.
  destruct (mapHas (topicOf r) g) eqn:E; cbn [negb].
  - destruct (mapGet (topicOf r) g) eqn:G.
    + apply mapGet_mapSet.
    + apply mapGet_has in G. congruence.
  - rewrite mapGet_mapSet, str_eqb_refl, !mapGet_mapSet.
    apply mapGet_has in E. rewrite E.
    destruct (str_eqb (topicOf r) t); reflexivity.
Qed.

Lemma downloadStep_keys g file r :
  map fst (downloadStep g (file, r))
  = if hasFiles r then setAdd (topicOf r) (map fst g) else map fst g.
Proof.
  unfold downloadStep, setAdd. rewrite <- mapHas_keys.
  destruct (hasFiles r); [|reflexivity].
  destruct (mapHas (topicOf r) g) eqn:E; cbn [negb].
  - destruct (mapGet (topicOf r) g) as [[fs md]|] eqn:G; [|reflexivity].
    rewrite mapSet_keys, E. reflexivity.
  - rewrite mapGet_mapSet, str_eqb_refl, mapSet_keys, mapHas_mapSet,
      mapSet_keys, E. reflexivity.
Qed.

Lemma downloadStep_get g file r t :
  hasFiles r = true ->
  mapGet t (downloadStep g (file, r))
  = if str_eqb (topicOf r) t
    then Some (match mapGet (topicOf r) g with
               | Some (files, metadata) => (files ++ filesOf r, metadata)
               | None => (filesOf r, metadataOf r)
               end)
    else mapGet t g.
Proof.
  intros H. unfold downloadStep. rewrite H.
  destruct (mapHas (topicOf r) g) eqn:E; cbn [negb].
  - destruct (mapGet (topicOf r) g) as [[fs md]|] eqn:G.
    + apply mapGet_mapSet.
    + apply mapGet_has in G. congruence.
  - rewrite mapGet_mapSet, str_eqb_refl, !mapGet_mapSet.
    apply mapGet_has in E. rewrite E.
    destruct (str_eqb (topicOf r) t); reflexivity.
Qed.

Lemma firstOccurrences_snoc l x :
  firstOccurrences (l ++ [x]) = setAdd x (firstOccurrences l).
Proof. unfold firstOccurrences. rewrite fold_left_app. reflexivity. Qed.

Lemma groupOf_snoc t l file r :
  groupOf t (l ++ [(file, r)])
  = groupOf t l
    ++ (if hasFiles r && str_eqb (topicOf r) t then [(file, r)] else []).
Proof. unfold groupOf. rewrite filter_app. reflexivity. Qed.

Lemma displayGroups_spec results :
  map fst (displayGroups results)
  = firstOccurrences (map (fun r => topicOf (snd r)) (withFiles results))
  /\ forall t, mapGet t (displayGroups results) = nonEmpty (groupOf t results).
Proof.
  induction results as [|[file r] l [IHk IHg]] using rev_ind;
    [split; reflexivity|].
  unfold displayGroups, withFiles in *. rewrite fold_left_app. cbn [fold_left].
  split.
  - rewrite displayStep_keys, IHk, filter_app, map_app. cbn [filter snd].
    destruct (hasFiles r); cbn [map snd].
    + now rewrite firstOccurrences_snoc.
    + now rewrite app_nil_r.
  - intros t. rewrite groupOf_snoc.
    destruct (hasFiles r) eqn:H; cbn [andb].
    + rewrite displayStep_get by exact H.
      destruct (str_eqb (topicOf r) t) eqn:E.
      * apply str_eqb_eq in E. subst t. rewrite IHg.
        destruct (groupOf (topicOf r) l); reflexivity.
      * rewrite app_nil_r. apply IHg.
    + unfold displayStep. rewrite H, app_nil_r. apply IHg.
Qed.

Lemma downloadGroups_spec results :
  map fst (downloadGroups results)
  = firstOccurrences (map (fun r => topicOf (snd r)) (withFiles results))
  /\ forall t, mapGet t (downloadGroups results)
               = match groupOf t results with
                 | [] => None
                 | first :: rest =>
                     Some (allFiles (first :: rest), metadataOf (snd first))
                 end.
Proof.
  induction results as [|[file r] l [IHk IHg]] using rev_ind;
    [split; reflexivity|].
  unfold downloadGroups, withFiles in *. rewrite fold_left_app. cbn [fold_left].
  split.
  - rewrite downloadStep_keys, IHk, filter_app, map_app. cbn [filter snd].
    destruct (hasFiles r); cbn [map snd].
    + now rewrite firstOccurrences_snoc.
    + now rewrite app_nil_r.
  - intros t. rewrite groupOf_snoc.
    destruct (hasFiles r) eqn:H; cbn [andb].
    + rewrite downloadStep_get by exact H.
      destruct (str_eqb (topicOf r) t) eqn:E.
      * apply str_eqb_eq in E. subst t. rewrite IHg.
        destruct (groupOf (topicOf r) l) as [|first rest].
        -- cbn [app allFiles flat_map snd]. now rewrite app_nil_r.
        -- cbn [app]. unfold allFiles.
           change (first :: rest ++ [(file, r)])
             with ((first :: rest) ++ [(file, r)]).
           rewrite flat_map_app. cbn [flat_map snd].
           now rewrite app_nil_r.
      * rewrite app_nil_r. apply IHg.
    + unfold downloadStep. rewrite H, app_nil_r. apply IHg.
Qed.

(** X20: the groups shown and the groups downloaded.  Both have one group
    per topic of a result with files, in the order in which the topics
    first occur.  The group shown for a topic holds the results with files
    of that topic in their order; the group downloaded holds the files of
    these results, one result after the other, and the metadata of the
    first of them only. *)
Theorem results_grouped_by_topic (results : list (str * Result)) :
  map fst (displayGroups results)
  = firstOccurrences (map (fun r => topicOf (snd r)) (withFiles results))
  /\ map fst (downloadGroups results) = map fst (displayGroups results)
  /\ NoDup (map fst (displayGroups results))
  /\ (forall t, mapGet t (displayGroups results)
                = nonEmpty (groupOf t results))
  /\ (forall t, mapGet t (downloadGroups results)
                = match groupOf t results with
                  | [] => None
                  | first :: rest =>
                      Some (allFiles (first :: rest), metadataOf (snd first))
                  end).
Proof.
  destruct (displayGroups_spec results) as [Hk Hg].
  destruct (downloadGroups_spec results) as [Hk' Hg'].
  split; [exact Hk|]. split; [congruence|].
  split; [|split; assumption].
  rewrite Hk. unfold firstOccurrences.
  apply fold_setAdd_NoDup with (f := fun x : str => x). constructor.
Qed.

Lemma resultsFrom_counts {engine : Engine} clock files : forall i,
  Forall (fun r => blocksExtractedOf (snd r) = length (filesOf (snd r)))
         (resultsFrom clock i files).
Proof.
  induction files as [|f rest IH]; intros i; simpl; constructor.
  - destruct (processFile_effect (clock i) reset f) as (_ & Hn & _).
    exact Hn.
  - apply IH.
Qed.

Lemma totalBlocks_sum group : forall acc,
  Forall (fun r => blocksExtractedOf (snd r) = length (filesOf (snd r))) group ->
  fold_left (fun sum r => sum + blocksExtractedOf (snd r)) group acc
  = acc + length (allFiles group).
Proof.
  induction group as [|r g IH]; intros acc H; simpl; [lia|].
  inversion H; subst. rewrite IH by assumption.
  unfold allFiles. rewrite length_app. lia.
Qed.

(** X21: after a run, what is shown and downloaded agrees with the
    statistics: the folders of the download are the topics of
    [topicsCreated], in the same order; the number of code blocks shown
    for a topic is the number of the files listed under it; and every
    folder has metadata. *)
Theorem download_agrees_with_statistics {engine : Engine}
  (clock : nat -> str) (app : App) :
  selectedFiles app <> [] ->
  exists results,
    extractionResults (fst (processFiles clock app)) = Some results
    /\ map fst (downloadGroups results)
       = topicsCreated (stats (fst (processFiles clock app)))
    /\ (forall t group, mapGet t (displayGroups results) = Some group ->
          totalBlocks group = length (allFiles group))
    /\ (forall t files metadata,
          mapGet t (downloadGroups results) = Some (files, metadata) ->
          metadata <> None /\ files <> []).
Proof.
  intros Hne. unfold processFiles.
  destruct (selectedFiles app) as [|kv sel] eqn:Es; [congruence|].
  change (Nat.eqb (length (kv :: sel)) 0) with false. cbv iota.
  destruct (processLoop_spec clock (map snd (kv :: sel)) 0 reset [] [])
    as (H1 & _ & _ & _ & H5 & _).
  destruct (processLoop clock 0 (map snd (kv :: sel)) reset [] [])
    as [[st res] details] eqn:E.
  cbn [fst snd] in *. rewrite app_nil_l in H1. subst res.
  set (results := resultsFrom clock 0 (map snd (kv :: sel))) in *.
  exists results. cbn [fst extractionResults stats].
  destruct (displayGroups_spec results) as [_ Hg].
  destruct (downloadGroups_spec results) as [Hk' Hg'].
  split; [reflexivity|].
  split; [rewrite Hk', H5; reflexivity|].
  split.
  - intros t group G. rewrite Hg in G.
    assert (Eg : group = groupOf t results)
      by (destruct (groupOf t results); simpl in G; congruence).
    unfold totalBlocks. rewrite totalBlocks_sum; [reflexivity|].
    subst group. apply Forall_forall. intros r Hr.
    apply filter_In in Hr. destruct Hr as [Hr _].
    pose proof (resultsFrom_counts clock (map snd (kv :: sel)) 0) as Hc.
    rewrite Forall_forall in Hc. now apply Hc.
  - intros t files metadata G. rewrite Hg' in G.
    destruct (groupOf t results) as [|first rest] eqn:Eg; [discriminate|].
    assert (Hin : In first (groupOf t results)) by (rewrite Eg; left; reflexivity).
    apply filter_In in Hin. destruct Hin as [_ Hf].
    apply andb_true_iff in Hf. destruct Hf as [Hf _].
    inversion G; subst. destruct first as [file r]. cbn [snd] in *.
    destruct r as [e|m|topic n fs md]; try discriminate.
    split; [discriminate|].
    cbn [hasFiles] in Hf. apply Nat.ltb_lt in Hf.
    unfold allFiles. cbn [flat_map snd filesOf].
    destruct fs; [simpl in Hf; lia | discriminate].
Qed.

Lemma download_agrees_with_statistics_witness :
  exists results,
    extractionResults (fst (processFiles (engine := v8) (fun _ => []) sampleApp))
    = Some results
    /\ map fst (downloadGroups results)
       = topicsCreated (stats (fst (processFiles (engine := v8) (fun _ => []) sampleApp))).
Proof.
  destruct (@download_agrees_with_statistics v8 (fun _ => []) sampleApp)
    as (results & E & H & _); [discriminate|].
  exists results. split; [exact E | exact H].
Defined.
